(** * Glipt: a shallow embedding of the runtime core

    The development follows the C sources of the interpreter:
    permission.c, value.h, object.c, vm.c, memory.c, compiler.c and
    dataformat.c.  Each module below embeds the functions of one source
    file and proves the properties stated about them. *)

From Stdlib Require Import ZArith List Lia Bool Ascii String.
From Stdlib Require Import Floats.SpecFloat Sorting.Sorted.
From stdpp Require Import base list strings.

Local Open Scope Z_scope.

(** A C string is represented by its contents: the bytes that precede the
    terminating NUL.  Reading a NUL at the pointer is the test for the empty
    list and advancing the pointer is taking the tail. *)
Definition cstring := list ascii.

Definition lit (s : string) : cstring := list_ascii_of_string s.

(** The C string that starts at the first of [bytes]: it ends at the
    first NUL byte. *)
Fixpoint untilNul (bytes : list ascii) : cstring :=
  match bytes with
  | [] => []
  | c :: rest => if Ascii.eqb c zero then [] else c :: untilNul rest
  end.

(** A fixed-size C array is the function from its indices to its
    cells; [aset] is the assignment to one cell. *)
Definition array (A : Type) : Type := Z -> A.
Definition aset {A : Type} (a : array A) (i : Z) (x : A) : array A :=
  fun j => if j =? i then x else a j.

(* ================================================================= *)
(** ** permission.c *)

Module Permission.

Inductive PermissionType : Type :=
  | PERM_EXEC
  | PERM_NET
  | PERM_READ
  | PERM_WRITE
  | PERM_ENV.

Definition PermissionType_eqb (a b : PermissionType) : bool :=
  match a, b with
  | PERM_EXEC, PERM_EXEC
  | PERM_NET, PERM_NET
  | PERM_READ, PERM_READ
  | PERM_WRITE, PERM_WRITE
  | PERM_ENV, PERM_ENV => true
  | _, _ => false
  end.

Record Permission : Type := mkPermission {
  type : PermissionType;
  target : cstring            (* target pattern (supports * wildcards) *)
}.

(** [count] is the length of [permissions]; [capacity] is the size of
    the allocation that holds them. *)
Record PermissionSet : Type := mkPermissionSet {
  permissions : list Permission;
  capacity : Z;
  allowAll : bool
}.

Definition count (set : PermissionSet) : Z := Z.of_nat (length (permissions set)).

Definition initPermissions : PermissionSet :=
  {| permissions := []; capacity := 0; allowAll := false |}.

Definition addPermission (set : PermissionSet) (ty : PermissionType)
    (tgt : list ascii) (len : Z) : PermissionSet :=
  let cap :=
    if count set >=? capacity set
    then (if capacity set <? 8 then 8 else capacity set * 2)
    else capacity set in
  {| permissions := permissions set ++
       [ {| type := ty; target := untilNul (take (Z.to_nat len) tgt) |} ];
     capacity := cap;
     allowAll := allowAll set |}.

(** The loop that advances [pattern] over every leading star. *)
Fixpoint skipStars (pattern : cstring) : cstring :=
  match pattern with
  | c :: rest => if Ascii.eqb c "*" then skipStars rest else pattern
  | [] => []
  end.

(** The code after the main loop of [globMatch]. *)
Definition globTail (pattern text : cstring) : bool :=
  match skipStars pattern, text with
  | [], [] => true
  | _, _ => false
  end.

(** The loop [while text is not at its end: if globMatch(pattern, text)
    return true; advance text] of the star case, over the matcher [rec]
    for the rest of the pattern. *)
Fixpoint scanText (rec : cstring -> bool) (text : cstring) : bool :=
  match text with
  | [] => false
  | _ :: text' => if rec text then true else scanText rec text'
  end.

(** Simple glob matching with [*] wildcards.  The recursive call of the
    C function is always made on [pattern + 1], so the recursion is
    structural in the pattern. *)
Fixpoint globMatch (pattern text : cstring) {struct pattern} : bool :=
  match pattern, text with
  | p :: pattern', t :: text' =>
      if Ascii.eqb p "*" then
        match pattern' with
        | [] => true
        | _ :: _ => scanText (globMatch pattern') text
        end
      else if negb (Ascii.eqb p t) then false
      else globMatch pattern' text'
  | _, _ => globTail pattern text
  end.

Definition hasPermission (set : PermissionSet) (ty : PermissionType)
    (tgt : cstring) : bool :=
  if allowAll set then true
  else
    (fix loop (ps : list Permission) : bool :=
       match ps with
       | [] => false
       | p :: ps' =>
           if PermissionType_eqb (type p) ty
           then (if globMatch (target p) tgt then true else loop ps')
           else loop ps'
       end) (permissions set).

Definition permissionTypeName (ty : PermissionType) : cstring :=
  match ty with
  | PERM_EXEC => lit "exec"
  | PERM_NET => lit "net"
  | PERM_READ => lit "read"
  | PERM_WRITE => lit "write"
  | PERM_ENV => lit "env"
  end.

(** The glob language as the specification words it: [*] stands for any
    run of bytes, possibly empty; every other byte stands for itself. *)
Inductive globSpec : cstring -> cstring -> Prop :=
  | globSpec_end : globSpec [] []
  | globSpec_star pattern run rest :
      globSpec pattern rest ->
      globSpec ("*"%char :: pattern) (run ++ rest)
  | globSpec_byte c pattern text :
      c <> "*"%char ->
      globSpec pattern text ->
      globSpec (c :: pattern) (c :: text).

End Permission.

(* ================================================================= *)
(** ** value.h: NaN boxing *)

(** A C [double] is an IEEE 754 binary64 number: a [spec_float] with
    precision 53 and maximal exponent 1024. *)
Definition double := spec_float.
Definition prec : Z := 53.
Definition emax : Z := 1024.

Definition INT_MIN : Z := - 2 ^ 31.
Definition INT_MAX : Z := 2 ^ 31 - 1.

(** The conversion of an [int] to [double].  It is exact: the mantissa
    is the magnitude shifted to 53 bits, the exponent makes up for the
    shift.  (Every integer below 2^53 in magnitude converts exactly.) *)
Definition double_of_int (n : Z) : double :=
  if n =? 0 then S754_zero false
  else
    let d := Z.log2 (Z.abs n) + 1 in
    S754_finite (n <? 0) (Z.to_pos (Z.abs n * 2 ^ (53 - d))) (d - 53).

(** The cast [(int)num]: truncation toward zero.  [None] stands for the
    casts that C leaves undefined: a NaN, an infinity, a number outside
    the range of [int]. *)
Definition double_to_int (num : double) : option Z :=
  match num with
  | S754_zero _ => Some 0
  | S754_finite s m e =>
      let a := if 0 <=? e then Z.pos m * 2 ^ e else Z.pos m / 2 ^ (- e) in
      let z := if s then - a else a in
      if (INT_MIN <=? z) && (z <=? INT_MAX) then Some z else None
  | _ => None
  end.

(** [a == 0] on doubles: both signed zeros compare equal to 0, a NaN
    compares equal to nothing. *)
Definition double_is_zero (d : double) : bool := SFeqb d (S754_zero false).

Module ValueH.

(** [typedef uint64_t Value;] a value is the integer below 2^64 that
    its 64 bits spell. *)
Definition Value := Z.

Definition uint64_range (v : Value) : Prop := 0 <= v < 2 ^ 64.

Definition SIGN_BIT : Z := 0x8000000000000000.
Definition QNAN : Z := 0x7FFC000000000000.

Definition TAG_NIL : Z := 1.
Definition TAG_FALSE : Z := 2.
Definition TAG_TRUE : Z := 3.

Definition NIL_VAL : Value := Z.lor QNAN TAG_NIL.
Definition TRUE_VAL : Value := Z.lor QNAN TAG_TRUE.
Definition FALSE_VAL : Value := Z.lor QNAN TAG_FALSE.
Definition BOOL_VAL (b : bool) : Value := if b then TRUE_VAL else FALSE_VAL.
(** [obj] is the address of the heap object. *)
Definition OBJ_VAL (obj : Z) : Value := Z.lor (Z.lor SIGN_BIT QNAN) obj.

Definition IS_NIL (v : Value) : bool := v =? NIL_VAL.
Definition IS_BOOL (v : Value) : bool := (v =? TRUE_VAL) || (v =? FALSE_VAL).
Definition IS_NUMBER (v : Value) : bool := negb (Z.land v QNAN =? QNAN).
Definition IS_OBJ (v : Value) : bool :=
  Z.land v (Z.lor SIGN_BIT QNAN) =? Z.lor SIGN_BIT QNAN.

Definition AS_BOOL (v : Value) : bool := v =? TRUE_VAL.

(** [valueToNum]: the 64 bits read as a double (the [memcpy] of the
    source): bit 63 is the sign, bits 52..62 the biased exponent, bits
    0..51 the fraction. *)
Definition valueToNum (v : Value) : double :=
  let sign := Z.testbit v 63 in
  let e := Z.land (Z.shiftr v 52) 0x7FF in
  let m := Z.land v (Z.ones 52) in
  if e =? 0 then
    (if m =? 0 then S754_zero sign else S754_finite sign (Z.to_pos m) (-1074))
  else if e =? 0x7FF then
    (if m =? 0 then S754_infinity sign else S754_nan)
  else S754_finite sign (Z.to_pos (Z.lor m (2 ^ 52))) (e - 1075).

(** [numToValue]: the bits of a double.  A finite number is expected in
    its normal form (53-bit mantissa, or a shorter one at exponent
    -1074); the NaN is the default quiet NaN of the machine. *)
Definition numToValue (num : double) : Value :=
  let signbit (s : bool) := if s then SIGN_BIT else 0 in
  match num with
  | S754_zero s => signbit s
  | S754_infinity s => Z.lor (signbit s) 0x7FF0000000000000
  | S754_nan => 0x7FF8000000000000
  | S754_finite s m e =>
      if Z.pos m <? 2 ^ 52 then Z.lor (signbit s) (Z.pos m)
      else Z.lor (signbit s)
             (Z.lor (Z.shiftl (e + 1075) 52) (Z.land (Z.pos m) (Z.ones 52)))
  end.

Definition AS_NUMBER := valueToNum.
Definition NUMBER_VAL := numToValue.
Definition AS_OBJ (v : Value) : Z := Z.land v (Z.ones 64 - Z.lor SIGN_BIT QNAN).

(** Inline falsey check (hot path: JUMP_IF_FALSE). *)
Definition isFalsey (value : Value) : bool :=
  if IS_NIL value then true
  else if IS_BOOL value then value =? FALSE_VAL
  else if IS_NUMBER value then double_is_zero (AS_NUMBER value)
  else false.

End ValueH.

(* ================================================================= *)
(** ** object.h, table.h, chunk.h: the tagged view of values *)

(** Outside value.h the sources only use values through the macros
    [IS_NIL], [IS_BOOL], [IS_NUMBER], [IS_OBJ], [AS_...] and [..._VAL];
    the embedding of those files works on the tagged union these macros
    implement.  A reference to a heap object is represented by the object
    it points to; an interned string is identified by its bytes, which is
    what pointer equality of interned strings decides. *)
Module Object.

(** [ObjString]: [chars] are the bytes, [length] and [hash] are
    functions of them. *)
Abbreviation ObjString := (list ascii).

(** FNV-1a over the bytes, in [uint32_t] arithmetic. *)
Definition hashString (key : list ascii) : Z :=
  fold_left
    (fun hash c => ((Z.lxor hash (Z.of_nat (nat_of_ascii c))) * 16777619) mod 2 ^ 32)
    key 2166136261.

Record Entry (V : Type) : Type := mkEntry {
  key : option ObjString;       (* NULL is None *)
  value : V
}.
Arguments mkEntry {V}.
Arguments key {V}.
Arguments value {V}.

Record Table (V : Type) : Type := mkTable {
  count : nat;
  capacity : nat;
  entries : list (Entry V)
}.
Arguments mkTable {V}.
Arguments count {V}.
Arguments capacity {V}.
Arguments entries {V}.

(** [Chunk]: the byte code, the source line of each byte, the constant
    pool and the index that deduplicates string constants. *)
Record Chunk (V : Type) : Type := mkChunk {
  code : list Z;
  lines : list Z;
  constants : list V;
  constantIndex : Table V
}.
Arguments mkChunk {V}.
Arguments code {V}.
Arguments lines {V}.
Arguments constants {V}.
Arguments constantIndex {V}.

(** The host functions that the embedding covers. *)
Inductive NativeFn : Type :=
  | lenNative
  | execNative
  | parseJsonNative
  | toJsonNative.

#[local] Set Warnings "-register-all".
Inductive Value : Type :=
  | NIL_VAL
  | BOOL_VAL (b : bool)
  | NUMBER_VAL (num : double)
  | OBJ_VAL (obj : Obj)
with Obj : Type :=
  | OBJ_STRING (chars : ObjString)
  | OBJ_FUNCTION (function : ObjFunction)
  | OBJ_CLOSURE (function : ObjFunction)   (* a closure that captures nothing *)
  | OBJ_NATIVE (function : NativeFn) (name : cstring) (arity : Z)
  | OBJ_LIST (items : list Value)
  | OBJ_MAP (table : Table Value)
with ObjFunction : Type :=
  | mkFunction (arity upvalueCount : Z) (chunk : Chunk Value) (name : option ObjString).

Definition fn_arity (f : ObjFunction) : Z := let 'mkFunction a _ _ _ := f in a.
Definition fn_chunk (f : ObjFunction) : Chunk Value := let 'mkFunction _ _ c _ := f in c.
Definition fn_name (f : ObjFunction) : option ObjString := let 'mkFunction _ _ _ n := f in n.

Definition TRUE_VAL : Value := BOOL_VAL true.
Definition FALSE_VAL : Value := BOOL_VAL false.

Definition IS_NIL (v : Value) : bool := match v with NIL_VAL => true | _ => false end.
Definition IS_BOOL (v : Value) : bool := match v with BOOL_VAL _ => true | _ => false end.
Definition IS_NUMBER (v : Value) : bool := match v with NUMBER_VAL _ => true | _ => false end.
Definition IS_OBJ (v : Value) : bool := match v with OBJ_VAL _ => true | _ => false end.
Definition IS_STRING (v : Value) : bool :=
  match v with OBJ_VAL (OBJ_STRING _) => true | _ => false end.
Definition IS_LIST (v : Value) : bool :=
  match v with OBJ_VAL (OBJ_LIST _) => true | _ => false end.

(** Inline falsey check (hot path: JUMP_IF_FALSE), on the tagged view. *)
Definition isFalsey (value : Value) : bool :=
  match value with
  | NIL_VAL => true
  | BOOL_VAL b => negb b
  | NUMBER_VAL num => double_is_zero num
  | OBJ_VAL _ => false
  end.

(** value.c, [valuesEqual]; [None] where the answer is the identity of two heap
    objects other than strings, which this view does not hold. *)
Definition valuesEqual (a b : Value) : option bool :=
  match a, b with
  | NUMBER_VAL x, NUMBER_VAL y => Some (SFeqb x y)
  | NIL_VAL, NIL_VAL => Some true
  | BOOL_VAL x, BOOL_VAL y => Some (eqb x y)
  | OBJ_VAL (OBJ_STRING x), OBJ_VAL (OBJ_STRING y) => Some (bool_decide (x = y))
  | OBJ_VAL (OBJ_STRING _), OBJ_VAL _ | OBJ_VAL _, OBJ_VAL (OBJ_STRING _) => Some false
  | OBJ_VAL _, OBJ_VAL _ => None
  | _, _ => Some false
  end.

(** The tagged reading of the 64 bits of value.h: what the type-check
    macros tell apart, with the object left as its address. *)
Inductive Tagged : Type :=
  | TAG_NIL
  | TAG_BOOL (b : bool)
  | TAG_NUMBER (num : double)
  | TAG_OBJ (address : Z).

Definition untag (v : ValueH.Value) : Tagged :=
  if ValueH.IS_NIL v then TAG_NIL
  else if ValueH.IS_BOOL v then TAG_BOOL (ValueH.AS_BOOL v)
  else if ValueH.IS_NUMBER v then TAG_NUMBER (ValueH.AS_NUMBER v)
  else TAG_OBJ (ValueH.AS_OBJ v).

(** The value of the tagged view that a word of value.h stands for, when
    [deref] gives the object stored at an address. *)
Definition tagged_value (deref : Z -> Obj) (t : Tagged) : Value :=
  match t with
  | TAG_NIL => NIL_VAL
  | TAG_BOOL b => BOOL_VAL b
  | TAG_NUMBER num => NUMBER_VAL num
  | TAG_OBJ address => OBJ_VAL (deref address)
  end.

End Object.

(* ================================================================= *)
(** ** table.c *)

(** Modelled from the spec: table.c, the implementation of the functions
    that table.h declares, is not among the sources.  The specification
    describes it: open addressing with linear probing, tombstones that
    mark deletions, a resize when the load would exceed 75%.  The layout
    of a slot is the [Entry] of table.h; callers in vm.c and dataformat.c
    test [entry->key != NULL] for a live slot.  A tombstone is the
    key-less slot that holds [true], an empty slot the key-less slot that
    holds [nil]; the capacity grows as every other array of the sources
    does (8, then doubling: [writeValueArray], [addPermission]). *)
Module TableC.
Import Object.

Abbreviation Entry := (Object.Entry Value).
Abbreviation Table := (Object.Table Value).

Definition GROW_CAPACITY (capacity : nat) : nat :=
  if (capacity <? 8)%nat then 8%nat else (capacity * 2)%nat.

Definition emptyEntry : Entry := mkEntry None NIL_VAL.
Definition tombstoneEntry : Entry := mkEntry None (BOOL_VAL true).

Definition initTable : Table := mkTable 0 0 [].

(** Modelled from the spec: the start of the probe sequence of a key,
    [hash % capacity]. *)
Definition homeSlot (capacity : nat) (key : ObjString) : nat :=
  Z.to_nat (hashString key mod Z.of_nat capacity).

(** Modelled from the spec: the probe loop.  [fuel] bounds the number of
    slots visited; the loop of a table with an empty slot ends before
    [capacity] slots have been visited. *)
Fixpoint probe (fuel : nat) (entries : list Entry) (capacity : nat)
    (key : ObjString) (index : nat) (tombstone : option nat) : nat :=
  match fuel with
  | O => default index tombstone
  | S fuel' =>
      match entries !! index with
      | None => index
      | Some entry =>
          match Object.key entry with
          | None =>
              if IS_NIL (value entry) then default index tombstone
              else probe fuel' entries capacity key ((index + 1) mod capacity)
                     (Some (default index tombstone))
          | Some k =>
              if bool_decide (k = key) then index
              else probe fuel' entries capacity key ((index + 1) mod capacity)
                     tombstone
          end
      end
  end.

(** Modelled from the spec: the slot of [key], or the slot where it
    would be stored: the first tombstone passed, else the empty slot that
    ended the search.  The result is the index of the [Entry*] that the C
    function returns. *)
Definition findEntry (entries : list Entry) (capacity : nat) (key : ObjString) : nat :=
  probe capacity entries capacity key (homeSlot capacity key) None.

(** Modelled from the spec: [tableGetEntry], the lookup that hands out
    the slot itself. *)
Definition tableGetEntry (table : Table) (key : ObjString) : option nat :=
  if (count table =? 0)%nat then None
  else
    let index := findEntry (entries table) (capacity table) key in
    match entries table !! index with
    | Some entry =>
        match Object.key entry with Some _ => Some index | None => None end
    | None => None
    end.

(** Modelled from the spec: [tableGet]; [None] is the C function's
    [false]. *)
Definition tableGet (table : Table) (key : ObjString) : option Value :=
  match tableGetEntry table key with
  | Some index => value <$> entries table !! index
  | None => None
  end.

(** Modelled from the spec: the re-insertion of one live entry into the
    fresh array of a resize. *)
Definition reinsert (capacity : nat) (acc : list Entry * nat) (entry : Entry)
    : list Entry * nat :=
  match Object.key entry with
  | None => acc
  | Some k =>
      let dest := findEntry (fst acc) capacity k in
      (<[dest := entry]> (fst acc), S (snd acc))
  end.

(** Modelled from the spec: the resize; only live entries are carried
    over, so the count is recomputed. *)
Definition adjustCapacity (table : Table) (capacity : nat) : Table :=
  let '(fresh, n) :=
    fold_left (reinsert capacity) (entries table) (replicate capacity emptyEntry, 0%nat) in
  mkTable n capacity fresh.

(** Modelled from the spec: the part of [tableSet] that follows the
    resize: find the slot, count it when it was empty, fill it. *)
Definition store (table : Table) (key : ObjString) (v : Value) : Table :=
  let index := findEntry (entries table) (capacity table) key in
  match entries table !! index with
  | None => table
  | Some entry =>
      let isNewKey := negb (bool_decide (is_Some (Object.key entry))) in
      let n := if isNewKey && IS_NIL (value entry) then S (count table) else count table in
      mkTable n (capacity table) (<[index := mkEntry (Some key) v]> (entries table))
  end.

(** Modelled from the spec: [tableSet]; the load test
    [count + 1 > capacity * 0.75] is written over the integers. *)
Definition tableSet (table : Table) (key : ObjString) (v : Value) : Table :=
  store
    (if (3 * capacity table <? 4 * (count table + 1))%nat
     then adjustCapacity table (GROW_CAPACITY (capacity table))
     else table)
    key v.

(** Modelled from the spec: [tableDelete] leaves a tombstone in the
    slot and keeps [count] and [capacity]. *)
Definition tableDelete (table : Table) (key : ObjString) : Table :=
  match tableGetEntry table key with
  | None => table
  | Some index =>
      mkTable (count table) (capacity table) (<[index := tombstoneEntry]> (entries table))
  end.

(** Modelled from the spec: [tableAddAll] copies every live entry of
    [from] into [to]. *)
Definition tableAddAll (from to : Table) : Table :=
  fold_left
    (fun to entry =>
       match Object.key entry with
       | Some k => tableSet to k (value entry)
       | None => to
       end)
    (entries from) to.

(** *** The representation invariant of a table *)

Definition usedSlot (e : Entry) : bool :=
  match Object.key e with Some _ => true | None => negb (IS_NIL (value e)) end.

Fixpoint usedCount (l : list Entry) : nat :=
  match l with
  | [] => 0
  | e :: l' => ((if usedSlot e then 1 else 0) + usedCount l')%nat
  end.

(** The [j]-th slot of the probe sequence of [key]. *)
Definition probeSlot (capacity : nat) (key : ObjString) (j : nat) : nat :=
  ((homeSlot capacity key + j) mod capacity)%nat.

(** The first [d] slots of the probe sequence of [key] are used and
    hold other keys. *)
Definition pathUsed (l : list Entry) (capacity : nat) (key : ObjString) (d : nat) : Prop :=
  forall j, (j < d)%nat ->
    exists e, l !! probeSlot capacity key j = Some e /\
              usedSlot e = true /\ Object.key e <> Some key.

(** Every key of the array is reached from its home slot over used
    slots that hold other keys. *)
Record slots_wf (capacity : nat) (l : list Entry) : Prop := {
  wf_length : length l = capacity;
  wf_reach : forall i k v,
    l !! i = Some (mkEntry (Some k) v) ->
    exists d, (d < capacity)%nat /\ i = probeSlot capacity k d /\ pathUsed l capacity k d
}.

(** The array is well formed, [count] counts the used slots (live
    entries and tombstones) and stays within the load limit. *)
Record table_wf (table : Table) : Prop := {
  wf_slots : slots_wf (capacity table) (entries table);
  wf_count : count table = usedCount (entries table);
  wf_load : (4 * count table <= 3 * capacity table)%nat
}.

(** No slot of the array holds [k]. *)
Definition absent (l : list Entry) (k : ObjString) : Prop :=
  forall i v, l !! i <> Some (mkEntry (Some k) v).

(** The array holds no tombstone. *)
Definition noTomb (l : list Entry) : Prop :=
  forall i e, l !! i = Some e -> Object.key e = None -> usedSlot e = false.

(** The invariant of the re-insertion loop of a resize, after the
    entries [done] of the old array have been visited. *)
Record adjInv (cap' : nat) (done : list Entry) (acc : list Entry * nat) : Prop := {
  ai_wf : slots_wf cap' (fst acc);
  ai_count : snd acc = usedCount (fst acc);
  ai_le : (snd acc <= usedCount done)%nat;
  ai_notomb : noTomb (fst acc);
  ai_content : forall k v,
    (exists i, fst acc !! i = Some (mkEntry (Some k) v)) <-> mkEntry (Some k) v ∈ done
}.

End TableC.

(* ================================================================= *)
(** ** The host *)

(** process.h *)
Record ProcessResult : Type := mkProcessResult {
  exitCode : Z;
  stdoutData : list ascii;
  stderrData : list ascii
}.

(** What the embedded functions call outside the embedded sources: the
    C library ([strtod], [snprintf] with the format [%g]), the process
    runner of process.c, the file system, and the front end of the
    compiler, which turns the text of a module into its script
    function. *)
Record Host : Type := mkHost {
  strtod : list ascii -> double;
  snprintf_g : double -> list ascii;
  processExec : cstring -> ProcessResult;
  fmod : double -> double -> double;
  readFile : cstring -> option (list ascii);
  compile : list ascii -> option Object.ObjFunction
}.

(** [snprintf] with the format [%d]. *)
Definition digitChar (d : Z) : ascii := ascii_of_nat (48 + Z.to_nat d).

Fixpoint decimalDigits (fuel : nat) (n : Z) (acc : list ascii) : list ascii :=
  match fuel with
  | O => acc
  | S fuel' =>
      let acc' := digitChar (n mod 10) :: acc in
      if n / 10 =? 0 then acc' else decimalDigits fuel' (n / 10) acc'
  end.

Definition snprintf_d (n : Z) : list ascii :=
  if n <? 0 then "-"%char :: decimalDigits 20 (- n) []
  else decimalDigits 20 n [].

(* ================================================================= *)
(** ** dataformat.c *)

Module Dataformat.
Import Object TableC.

Definition dquote : ascii := "034"%char.
Definition backslash : ascii := "092"%char.
Definition char_b : ascii := "008"%char.    (* backspace *)
Definition char_t : ascii := "009"%char.    (* horizontal tab *)
Definition char_n : ascii := "010"%char.    (* line feed *)
Definition char_f : ascii := "012"%char.    (* form feed *)
Definition char_r : ascii := "013"%char.    (* carriage return *)

Definition isdigit (c : ascii) : bool :=
  (48 <=? nat_of_ascii c)%nat && (nat_of_ascii c <=? 57)%nat.

(** The parser reads [source] at the index [pos]; [length] is the
    length of [source].  [messages] collects what [jsonError] prints:
    the position and the text. *)
Record JSONParser : Type := mkJSONParser {
  source : list ascii;
  pos : nat;
  hadError : bool;
  messages : list (nat * cstring)
}.

Definition setPos (p : JSONParser) (n : nat) : JSONParser :=
  mkJSONParser (source p) n (hadError p) (messages p).

Definition jsonError (p : JSONParser) (message : cstring) : JSONParser :=
  if hadError p then p
  else mkJSONParser (source p) (pos p) true (messages p ++ [(pos p, message)]).

Definition jsonPeek (p : JSONParser) : ascii := default zero (source p !! pos p).

Definition isspace (c : ascii) : bool :=
  bool_decide (c = " "%char) || bool_decide (c = char_t) ||
  bool_decide (c = char_r) || bool_decide (c = char_n).

(** The number of leading bytes of [l] that satisfy [f]: a loop
    [while (pos < length && f(source[pos])) pos++] advances by it. *)
Fixpoint span (f : ascii -> bool) (l : list ascii) : nat :=
  match l with
  | c :: l' => if f c then S (span f l') else O
  | [] => O
  end.

Definition jsonSkipWhitespace (p : JSONParser) : JSONParser :=
  setPos p (pos p + span isspace (drop (pos p) (source p))).

Definition jsonMatch (p : JSONParser) (expected : ascii) : JSONParser * bool :=
  match source p !! pos p with
  | Some c => if bool_decide (c = expected) then (setPos p (S (pos p)), true) else (p, false)
  | None => (p, false)
  end.

(** The scan for the closing quote: the number of positions the loop
    advances from the first byte of [l], and whether it met a backslash.
    A backslash takes the byte after it along, also past the end. *)
Fixpoint scanString (l : list ascii) : nat * bool :=
  match l with
  | [] => (O, false)
  | c :: l' =>
      if bool_decide (c = dquote) then (O, false)
      else if bool_decide (c = backslash) then
        match l' with
        | [] => (2%nat, true)
        | _ :: l'' => let '(n, _) := scanString l'' in (S (S n), true)
        end
      else let '(n, e) := scanString l' in (S n, e)
  end.

(** The second pass over the bytes between the quotes. *)
Fixpoint unescape (l : list ascii) : list ascii :=
  match l with
  | [] => []
  | c :: l' =>
      if bool_decide (c = backslash) then
        match l' with
        | [] => [c]
        | d :: l'' =>
            (if bool_decide (d = dquote) then dquote
             else if bool_decide (d = backslash) then backslash
             else if bool_decide (d = "/"%char) then "/"%char
             else if bool_decide (d = "b"%char) then char_b
             else if bool_decide (d = "f"%char) then char_f
             else if bool_decide (d = "n"%char) then char_n
             else if bool_decide (d = "r"%char) then char_r
             else if bool_decide (d = "t"%char) then char_t
             else d) :: unescape l''
        end
      else c :: unescape l'
  end.

Definition jsonParseString (p : JSONParser) : JSONParser * Value :=
  let '(p, matched) := jsonMatch p dquote in
  if negb matched then (jsonError p (lit "Expected '" ++ [dquote] ++ lit "'"), NIL_VAL)
  else
    let start := pos p in
    let '(n, hasEscape) := scanString (drop start (source p)) in
    let p := setPos p (start + n) in
    if (length (source p) <=? pos p)%nat then
      (jsonError p (lit "Unterminated string"), NIL_VAL)
    else
      let end_ := pos p in
      let p := setPos p (S end_) in
      let bytes := take (end_ - start) (drop start (source p)) in
      if negb hasEscape then (p, OBJ_VAL (OBJ_STRING bytes))
      else (p, OBJ_VAL (OBJ_STRING (unescape bytes))).

Section WithHost.
Variable host : Host.

Definition jsonParseNumber (p : JSONParser) : JSONParser * Value :=
  let src := source p in
  let len := length src in
  let start := pos p in
  let i := if bool_decide (jsonPeek p = "-"%char) then S start else start in
  let i := (i + span isdigit (drop i src))%nat in
  let i :=
    if bool_decide (src !! i = Some "."%char)
    then (S i + span isdigit (drop (S i) src))%nat else i in
  let i :=
    if bool_decide (src !! i = Some "e"%char) || bool_decide (src !! i = Some "E"%char)
    then
      let i := S i in
      let i :=
        if bool_decide (src !! i = Some "+"%char) || bool_decide (src !! i = Some "-"%char)
        then S i else i in
      (i + span isdigit (drop i src))%nat
    else i in
  let n := (i - start)%nat in
  let n := if (64 <=? n)%nat then 63%nat else n in
  (setPos p i, NUMBER_VAL (strtod host (take n (drop start src)))).

(** The [do ... while (jsonMatch(p, ','))] loop of [jsonParseArray].
    [n] bounds the number of rounds; [None] is the bound reached. *)
Fixpoint arrayElements (parseValue : JSONParser -> option (JSONParser * Value))
    (n : nat) (p : JSONParser) (items : list Value)
    : option (JSONParser * list Value) :=
  match n with
  | O => None
  | S n' =>
      let p := jsonSkipWhitespace p in
      match parseValue p with
      | None => None
      | Some (p, element) =>
          if hadError p then Some (p, items)
          else
            let items := items ++ [element] in
            let p := jsonSkipWhitespace p in
            let '(p, more) := jsonMatch p ","%char in
            if more then arrayElements parseValue n' p items else Some (p, items)
      end
  end.

Definition jsonParseArray (parseValue : JSONParser -> option (JSONParser * Value))
    (n : nat) (p : JSONParser) : option (JSONParser * Value) :=
  let p := setPos p (S (pos p)) in
  let p := jsonSkipWhitespace p in
  match
    (if bool_decide (jsonPeek p = "]"%char) then Some (p, [])
     else arrayElements parseValue n p [])
  with
  | None => None
  | Some (p, items) =>
      let '(p, closed) := jsonMatch p "]"%char in
      let p := if closed then p else jsonError p (lit "Expected ']'") in
      Some (p, OBJ_VAL (OBJ_LIST items))
  end.

(** The loop of [jsonParseObject]. *)
Fixpoint objectMembers (parseValue : JSONParser -> option (JSONParser * Value))
    (n : nat) (p : JSONParser) (table : Table) : option (JSONParser * Table) :=
  match n with
  | O => None
  | S n' =>
      let p := jsonSkipWhitespace p in
      let '(p, key) := jsonParseString p in
      if hadError p then Some (p, table)
      else
        let p := jsonSkipWhitespace p in
        let '(p, colon) := jsonMatch p ":"%char in
        if negb colon then Some (jsonError p (lit "Expected ':'"), table)
        else
          let p := jsonSkipWhitespace p in
          match parseValue p with
          | None => None
          | Some (p, val) =>
              if hadError p then Some (p, table)
              else
                match key with
                | OBJ_VAL (OBJ_STRING k) =>
                    let table := tableSet table k val in
                    let p := jsonSkipWhitespace p in
                    let '(p, more) := jsonMatch p ","%char in
                    if more then objectMembers parseValue n' p table
                    else Some (p, table)
                | _ => None
                end
          end
  end.

Definition jsonParseObject (parseValue : JSONParser -> option (JSONParser * Value))
    (n : nat) (p : JSONParser) : option (JSONParser * Value) :=
  let p := setPos p (S (pos p)) in
  let p := jsonSkipWhitespace p in
  match
    (if bool_decide (jsonPeek p = "}"%char) then Some (p, initTable)
     else objectMembers parseValue n p initTable)
  with
  | None => None
  | Some (p, table) =>
      let '(p, closed) := jsonMatch p "}"%char in
      let p := if closed then p else jsonError p (lit "Expected '}'") in
      Some (p, OBJ_VAL (OBJ_MAP table))
  end.

(** [fuel] bounds the nesting depth of the recursive descent and the
    rounds of each loop; [None] is the bound reached. *)
Fixpoint jsonParseValue (fuel : nat) (p : JSONParser) : option (JSONParser * Value) :=
  match fuel with
  | O => None
  | S fuel' =>
      let p := jsonSkipWhitespace p in
      let c := jsonPeek p in
      let rest := drop (pos p) (source p) in
      if bool_decide (c = dquote) then Some (jsonParseString p)
      else if bool_decide (c = "-"%char) || isdigit c then Some (jsonParseNumber p)
      else if bool_decide (c = "["%char) then jsonParseArray (jsonParseValue fuel') fuel' p
      else if bool_decide (c = "{"%char) then jsonParseObject (jsonParseValue fuel') fuel' p
      else if bool_decide (take 4 rest = lit "true") then
        Some (setPos p (pos p + 4), BOOL_VAL true)
      else if bool_decide (take 5 rest = lit "false") then
        Some (setPos p (pos p + 5), BOOL_VAL false)
      else if bool_decide (take 4 rest = lit "null") then
        Some (setPos p (pos p + 4), NIL_VAL)
      else Some (jsonError p (lit "Unexpected character"), NIL_VAL)
  end.

(** [parseJSON]: every nested value and every round of a loop starts
    at a byte of its own, so the length of the text bounds both. *)
Definition parseJSON (json : list ascii) : option Value :=
  match jsonParseValue (S (length json)) (mkJSONParser json 0 false []) with
  | None => None
  | Some (parser, result) => Some (if hadError parser then NIL_VAL else result)
  end.

(** *** The serializer.  The writer is its buffer. *)

Definition jsonWrite (w : list ascii) (str : list ascii) : list ascii := w ++ str.
Definition jsonWriteChar (w : list ascii) (c : ascii) : list ascii := jsonWrite w [c].

Fixpoint jsonWriteString (w : list ascii) (str : ObjString) : list ascii :=
  match str with
  | [] => w
  | c :: str' =>
      let w :=
        if bool_decide (c = dquote) then jsonWrite w [backslash; dquote]
        else if bool_decide (c = backslash) then jsonWrite w [backslash; backslash]
        else if bool_decide (c = char_b) then jsonWrite w [backslash; "b"%char]
        else if bool_decide (c = char_f) then jsonWrite w [backslash; "f"%char]
        else if bool_decide (c = char_n) then jsonWrite w [backslash; "n"%char]
        else if bool_decide (c = char_r) then jsonWrite w [backslash; "r"%char]
        else if bool_decide (c = char_t) then jsonWrite w [backslash; "t"%char]
        else jsonWriteChar w c in
      jsonWriteString w str'
  end.

Definition jsonWriteQuoted (w : list ascii) (str : ObjString) : list ascii :=
  jsonWriteChar (jsonWriteString (jsonWriteChar w dquote) str) dquote.

(** [num == (int)num && num >= -1e15 && num <= 1e15] picks the format
    [%d].  Where the cast is undefined the comparison is taken to fail,
    as it does on the common targets, and the format is [%g]. *)
Definition jsonWriteNumber (w : list ascii) (num : double) : list ascii :=
  match double_to_int num with
  | Some i =>
      if SFeqb num (double_of_int i)
         && SFleb (double_of_int (- 10 ^ 15)) num
         && SFleb num (double_of_int (10 ^ 15))
      then jsonWrite w (snprintf_d i)
      else jsonWrite w (snprintf_g host num)
  | None => jsonWrite w (snprintf_g host num)
  end.

Fixpoint jsonWriteValue (w : list ascii) (value : Value) {struct value} : list ascii :=
  match value with
  | NIL_VAL => jsonWrite w (lit "null")
  | BOOL_VAL b => if b then jsonWrite w (lit "true") else jsonWrite w (lit "false")
  | NUMBER_VAL num => jsonWriteNumber w num
  | OBJ_VAL (OBJ_STRING chars) => jsonWriteQuoted w chars
  | OBJ_VAL (OBJ_LIST items) =>
      let w := jsonWriteChar w "["%char in
      let w :=
        (fix elements (w : list ascii) (first : bool) (items : list Value) : list ascii :=
           match items with
           | [] => w
           | item :: items' =>
               let w := if first then w else jsonWriteChar w ","%char in
               elements (jsonWriteValue w item) false items'
           end) w true items in
      jsonWriteChar w "]"%char
  | OBJ_VAL (OBJ_MAP (mkTable _ capacity entries)) =>
      let w := jsonWriteChar w "{"%char in
      let w :=
        (fix members (i : nat) (w : list ascii) (first : bool) (entries : list Entry)
             {struct entries} : list ascii :=
           match i, entries with
           | S i', mkEntry (Some key) v :: entries' =>
               let w := if first then w else jsonWriteChar w ","%char in
               let w := jsonWriteQuoted w key in
               let w := jsonWriteChar w ":"%char in
               members i' (jsonWriteValue w v) false entries'
           | S i', mkEntry None _ :: entries' => members i' w first entries'
           | _, _ => w
           end) capacity w true entries in
      jsonWriteChar w "}"%char
  | OBJ_VAL _ => jsonWrite w (lit "null")
  end.

Definition toJSON (value : Value) : Value :=
  let w := jsonWriteValue [] value in
  match w with
  | [] => OBJ_VAL (OBJ_STRING (lit "null"))
  | _ => OBJ_VAL (OBJ_STRING w)
  end.

End WithHost.

End Dataformat.

(* ================================================================= *)
(** ** opcode.h *)

Module Opcode.

Inductive OpCode : Type :=
  | OP_CONSTANT | OP_NIL | OP_TRUE | OP_FALSE
  | OP_ADD | OP_SUBTRACT | OP_MULTIPLY | OP_DIVIDE | OP_MODULO | OP_NEGATE
  | OP_EQUAL | OP_NOT_EQUAL | OP_GREATER | OP_GREATER_EQUAL | OP_LESS | OP_LESS_EQUAL
  | OP_NOT
  | OP_GET_LOCAL | OP_SET_LOCAL | OP_GET_GLOBAL | OP_SET_GLOBAL | OP_DEFINE_GLOBAL
  | OP_GET_UPVALUE | OP_SET_UPVALUE
  | OP_JUMP | OP_JUMP_IF_FALSE | OP_LOOP
  | OP_CALL | OP_CLOSURE | OP_RETURN | OP_CLOSE_UPVALUE
  | OP_BUILD_LIST | OP_BUILD_MAP | OP_INDEX_GET | OP_INDEX_SET
  | OP_GET_PROPERTY | OP_SET_PROPERTY
  | OP_PRINT | OP_POP
  | OP_ALLOW | OP_PUSH_HANDLER | OP_POP_HANDLER | OP_THROW | OP_IMPORT.

(** The enumerators in the order of the [enum]: the position of an
    opcode is its byte. *)
Definition opcodes : list OpCode :=
  [ OP_CONSTANT; OP_NIL; OP_TRUE; OP_FALSE;
    OP_ADD; OP_SUBTRACT; OP_MULTIPLY; OP_DIVIDE; OP_MODULO; OP_NEGATE;
    OP_EQUAL; OP_NOT_EQUAL; OP_GREATER; OP_GREATER_EQUAL; OP_LESS; OP_LESS_EQUAL;
    OP_NOT;
    OP_GET_LOCAL; OP_SET_LOCAL; OP_GET_GLOBAL; OP_SET_GLOBAL; OP_DEFINE_GLOBAL;
    OP_GET_UPVALUE; OP_SET_UPVALUE;
    OP_JUMP; OP_JUMP_IF_FALSE; OP_LOOP;
    OP_CALL; OP_CLOSURE; OP_RETURN; OP_CLOSE_UPVALUE;
    OP_BUILD_LIST; OP_BUILD_MAP; OP_INDEX_GET; OP_INDEX_SET;
    OP_GET_PROPERTY; OP_SET_PROPERTY;
    OP_PRINT; OP_POP;
    OP_ALLOW; OP_PUSH_HANDLER; OP_POP_HANDLER; OP_THROW; OP_IMPORT ].

Definition OpCode_eqb (a b : OpCode) : bool :=
  match a, b with
  | OP_CONSTANT, OP_CONSTANT | OP_NIL, OP_NIL | OP_TRUE, OP_TRUE | OP_FALSE, OP_FALSE
  | OP_ADD, OP_ADD | OP_SUBTRACT, OP_SUBTRACT | OP_MULTIPLY, OP_MULTIPLY
  | OP_DIVIDE, OP_DIVIDE | OP_MODULO, OP_MODULO | OP_NEGATE, OP_NEGATE
  | OP_EQUAL, OP_EQUAL | OP_NOT_EQUAL, OP_NOT_EQUAL | OP_GREATER, OP_GREATER
  | OP_GREATER_EQUAL, OP_GREATER_EQUAL | OP_LESS, OP_LESS | OP_LESS_EQUAL, OP_LESS_EQUAL
  | OP_NOT, OP_NOT | OP_GET_LOCAL, OP_GET_LOCAL | OP_SET_LOCAL, OP_SET_LOCAL
  | OP_GET_GLOBAL, OP_GET_GLOBAL | OP_SET_GLOBAL, OP_SET_GLOBAL
  | OP_DEFINE_GLOBAL, OP_DEFINE_GLOBAL | OP_GET_UPVALUE, OP_GET_UPVALUE
  | OP_SET_UPVALUE, OP_SET_UPVALUE | OP_JUMP, OP_JUMP | OP_JUMP_IF_FALSE, OP_JUMP_IF_FALSE
  | OP_LOOP, OP_LOOP | OP_CALL, OP_CALL | OP_CLOSURE, OP_CLOSURE | OP_RETURN, OP_RETURN
  | OP_CLOSE_UPVALUE, OP_CLOSE_UPVALUE | OP_BUILD_LIST, OP_BUILD_LIST
  | OP_BUILD_MAP, OP_BUILD_MAP | OP_INDEX_GET, OP_INDEX_GET | OP_INDEX_SET, OP_INDEX_SET
  | OP_GET_PROPERTY, OP_GET_PROPERTY | OP_SET_PROPERTY, OP_SET_PROPERTY
  | OP_PRINT, OP_PRINT | OP_POP, OP_POP | OP_ALLOW, OP_ALLOW
  | OP_PUSH_HANDLER, OP_PUSH_HANDLER | OP_POP_HANDLER, OP_POP_HANDLER
  | OP_THROW, OP_THROW | OP_IMPORT, OP_IMPORT => true
  | _, _ => false
  end.

Fixpoint indexOf (op : OpCode) (l : list OpCode) (i : Z) : Z :=
  match l with
  | [] => i
  | x :: l' => if OpCode_eqb x op then i else indexOf op l' (i + 1)
  end.

(** The byte of an opcode and the opcode of a byte. *)
Definition byteOf (op : OpCode) : Z := indexOf op opcodes 0.
Definition decode (byte : Z) : option OpCode :=
  if byte <? 0 then None else opcodes !! Z.to_nat byte.

End Opcode.

(* ================================================================= *)
(** ** vm.h *)

Module VM.
Import Object TableC Opcode.

Definition UINT8_COUNT : Z := 256.
Definition UINT16_MAX : Z := 65535.
Definition FRAMES_MAX : Z := 256.
Definition STACK_MAX : Z := FRAMES_MAX * UINT8_COUNT.
Definition HANDLER_MAX : Z := 64.
Definition GLOBAL_IC_SIZE : Z := 512.

(** A [uint8_t*] into byte code: the code array it points into and the
    index in it. *)
Record CodePtr : Type := mkCodePtr {
  base : list Z;
  offset : Z
}.

(** One slot of the inline cache of globals.  [ic_entry] is the index
    of the cached [Entry*] in the entries of the globals table. *)
Record GlobalICSlot : Type := mkGlobalICSlot {
  ic_key : option ObjString;
  ic_entry : nat;
  ic_tableCapacity : nat
}.

(** [closure] is the function of the frame's closure; [slots] is the
    index in the value stack of the frame's first slot. *)
Record CallFrame : Type := mkCallFrame {
  closure : ObjFunction;
  ip : CodePtr;
  slots : Z
}.

(** Error handler for [on failure] blocks: what [OP_PUSH_HANDLER]
    records. *)
Record ErrorHandler : Type := mkErrorHandler {
  handlerIP : CodePtr;          (* IP of handler code *)
  h_frameCount : Z;             (* frame count when handler was pushed *)
  h_stackTop : Z                (* stack top when handler was pushed *)
}.

(** What [runtimeError] writes to the error stream: the message, then
    one line of trace for every frame. *)
Inductive StderrLine : Type :=
  | Message (text : cstring)
  | TraceScript (line : Z)
  | TraceFunction (line : Z) (name : cstring).

Inductive InterpretResult : Type :=
  | INTERPRET_OK
  | INTERPRET_COMPILE_ERROR
  | INTERPRET_RUNTIME_ERROR.

(** The value stack is indexed from 0: [stackTop] is the number of
    live slots.  The string table and the collector's fields are not
    part of this view of the machine (strings are identified by their
    bytes); closures capture nothing, so there is no list of open
    upvalues. *)
Record VM : Type := mkVM {
  frames : array CallFrame;
  frameCount : Z;
  stack : array Value;
  stackTop : Z;
  globals : Table;
  permissions : Permission.PermissionSet;
  handlers : array ErrorHandler;
  handlerCount : Z;
  hasError : bool;
  currentError : Value;
  globalIC : array GlobalICSlot;
  baseFrameCount : Z;
  modules : Table;
  scriptPath : option cstring;
  stderr : list StderrLine
}.

Definition set_frames (vm : VM) (x : array CallFrame) : VM :=
  mkVM x (frameCount vm) (stack vm) (stackTop vm) (globals vm) (permissions vm) (handlers vm) (handlerCount vm) (hasError vm) (currentError vm) (globalIC vm) (baseFrameCount vm) (modules vm) (scriptPath vm) (stderr vm).
Definition set_frameCount (vm : VM) (x : Z) : VM :=
  mkVM (frames vm) x (stack vm) (stackTop vm) (globals vm) (permissions vm) (handlers vm) (handlerCount vm) (hasError vm) (currentError vm) (globalIC vm) (baseFrameCount vm) (modules vm) (scriptPath vm) (stderr vm).
Definition set_stack (vm : VM) (x : array Value) : VM :=
  mkVM (frames vm) (frameCount vm) x (stackTop vm) (globals vm) (permissions vm) (handlers vm) (handlerCount vm) (hasError vm) (currentError vm) (globalIC vm) (baseFrameCount vm) (modules vm) (scriptPath vm) (stderr vm).
Definition set_stackTop (vm : VM) (x : Z) : VM :=
  mkVM (frames vm) (frameCount vm) (stack vm) x (globals vm) (permissions vm) (handlers vm) (handlerCount vm) (hasError vm) (currentError vm) (globalIC vm) (baseFrameCount vm) (modules vm) (scriptPath vm) (stderr vm).
Definition set_globals (vm : VM) (x : Table) : VM :=
  mkVM (frames vm) (frameCount vm) (stack vm) (stackTop vm) x (permissions vm) (handlers vm) (handlerCount vm) (hasError vm) (currentError vm) (globalIC vm) (baseFrameCount vm) (modules vm) (scriptPath vm) (stderr vm).
Definition set_permissions (vm : VM) (x : Permission.PermissionSet) : VM :=
  mkVM (frames vm) (frameCount vm) (stack vm) (stackTop vm) (globals vm) x (handlers vm) (handlerCount vm) (hasError vm) (currentError vm) (globalIC vm) (baseFrameCount vm) (modules vm) (scriptPath vm) (stderr vm).
Definition set_handlers (vm : VM) (x : array ErrorHandler) : VM :=
  mkVM (frames vm) (frameCount vm) (stack vm) (stackTop vm) (globals vm) (permissions vm) x (handlerCount vm) (hasError vm) (currentError vm) (globalIC vm) (baseFrameCount vm) (modules vm) (scriptPath vm) (stderr vm).
Definition set_handlerCount (vm : VM) (x : Z) : VM :=
  mkVM (frames vm) (frameCount vm) (stack vm) (stackTop vm) (globals vm) (permissions vm) (handlers vm) x (hasError vm) (currentError vm) (globalIC vm) (baseFrameCount vm) (modules vm) (scriptPath vm) (stderr vm).
Definition set_hasError (vm : VM) (x : bool) : VM :=
  mkVM (frames vm) (frameCount vm) (stack vm) (stackTop vm) (globals vm) (permissions vm) (handlers vm) (handlerCount vm) x (currentError vm) (globalIC vm) (baseFrameCount vm) (modules vm) (scriptPath vm) (stderr vm).
Definition set_currentError (vm : VM) (x : Value) : VM :=
  mkVM (frames vm) (frameCount vm) (stack vm) (stackTop vm) (globals vm) (permissions vm) (handlers vm) (handlerCount vm) (hasError vm) x (globalIC vm) (baseFrameCount vm) (modules vm) (scriptPath vm) (stderr vm).
Definition set_globalIC (vm : VM) (x : array GlobalICSlot) : VM :=
  mkVM (frames vm) (frameCount vm) (stack vm) (stackTop vm) (globals vm) (permissions vm) (handlers vm) (handlerCount vm) (hasError vm) (currentError vm) x (baseFrameCount vm) (modules vm) (scriptPath vm) (stderr vm).
Definition set_baseFrameCount (vm : VM) (x : Z) : VM :=
  mkVM (frames vm) (frameCount vm) (stack vm) (stackTop vm) (globals vm) (permissions vm) (handlers vm) (handlerCount vm) (hasError vm) (currentError vm) (globalIC vm) x (modules vm) (scriptPath vm) (stderr vm).
Definition set_modules (vm : VM) (x : Table) : VM :=
  mkVM (frames vm) (frameCount vm) (stack vm) (stackTop vm) (globals vm) (permissions vm) (handlers vm) (handlerCount vm) (hasError vm) (currentError vm) (globalIC vm) (baseFrameCount vm) x (scriptPath vm) (stderr vm).
Definition set_stderr (vm : VM) (x : list StderrLine) : VM :=
  mkVM (frames vm) (frameCount vm) (stack vm) (stackTop vm) (globals vm) (permissions vm) (handlers vm) (handlerCount vm) (hasError vm) (currentError vm) (globalIC vm) (baseFrameCount vm) (modules vm) (scriptPath vm) x.

(** The registers of [run]: the machine, the index of the cached frame,
    and the cached [ip] and [constants]. *)
Record Regs : Type := mkRegs {
  vm : VM;
  frame : Z;
  r_ip : CodePtr;
  r_constants : list Value
}.

Definition set_vm (r : Regs) (x : VM) : Regs := mkRegs x (frame r) (r_ip r) (r_constants r).
Definition set_ip (r : Regs) (x : CodePtr) : Regs := mkRegs (vm r) (frame r) x (r_constants r).

(** The result of one instruction: go on, leave [run] with a result,
    or a behaviour the embedding does not define (an instruction or a
    value outside the embedded part, a read outside an array). *)
Inductive Outcome : Type :=
  | Next (r : Regs)
  | Return (result : InterpretResult) (vm : VM)
  | Undefined.


(* ================================================================= *)
(** ** vm.c: the stack, errors, calls *)

(** [*vm->stackTop++ = value], the push without a bound check that the
    dispatch loop uses. *)
Definition pushRaw (vm : VM) (value : Value) : VM :=
  set_stackTop (set_stack vm (aset (stack vm) (stackTop vm) value)) (stackTop vm + 1).

Definition push (vm : VM) (value : Value) : VM :=
  if STACK_MAX <=? stackTop vm then
    set_frameCount
      (set_stackTop (set_stderr vm (stderr vm ++ [Message (lit "Stack overflow.")])) 0) 0
  else pushRaw vm value.

Definition pop (vm : VM) : VM * Value :=
  let vm := set_stackTop vm (stackTop vm - 1) in
  (vm, stack vm (stackTop vm)).

Definition peek (vm : VM) (distance : Z) : Value :=
  stack vm (stackTop vm - 1 - distance).

(** [vm->stackTop[i]] for the negative indices the loop uses. *)
Definition top (vm : VM) (i : Z) : Value := stack vm (stackTop vm + i).
Definition set_top (vm : VM) (i : Z) (value : Value) : VM :=
  set_stack vm (aset (stack vm) (stackTop vm + i) value).

(** The trace line of the frame [i]: the line of the instruction before
    the frame's [ip]. *)
Definition traceLine (vm : VM) (i : Z) : StderrLine :=
  let fr := frames vm i in
  let instruction := offset (ip fr) - 1 in
  let line :=
    if instruction <? 0 then 0
    else default 0 (lines (fn_chunk (closure fr)) !! Z.to_nat instruction) in
  match fn_name (closure fr) with
  | None => TraceScript line
  | Some name => TraceFunction line (untilNul name)
  end.

Definition runtimeError (vm : VM) (message : cstring) : VM :=
  let trace :=
    map (fun i => traceLine vm (Z.of_nat i)) (rev (seq 0 (Z.to_nat (frameCount vm)))) in
  set_frameCount
    (set_stackTop (set_stderr vm (stderr vm ++ Message message :: trace)) 0) 0.

(** Build the error map and mark the VM as having a pending error.
    The map is pushed while it is built (GC protection) and popped
    again. *)
Definition raiseError (vm : VM) (message type : cstring) : VM :=
  let errorMap :=
    tableSet (tableSet initTable (lit "message") (OBJ_VAL (OBJ_STRING message)))
      (lit "type") (OBJ_VAL (OBJ_STRING type)) in
  let vm := push vm (OBJ_VAL (OBJ_MAP errorMap)) in
  let vm := fst (pop vm) in
  set_currentError (set_hasError vm true) (OBJ_VAL (OBJ_MAP errorMap)).

Definition callClosure (vm : VM) (closure : ObjFunction) (argCount : Z) : VM * bool :=
  if negb (argCount =? fn_arity closure) then
    (runtimeError vm
       (lit "Expected " ++ snprintf_d (fn_arity closure) ++ lit " arguments but got "
        ++ snprintf_d argCount ++ lit "."), false)
  else if frameCount vm =? FRAMES_MAX then
    (runtimeError vm (lit "Stack overflow."), false)
  else
    let fr :=
      mkCallFrame closure (mkCodePtr (code (fn_chunk closure)) 0)
        (stackTop vm - argCount - 1) in
    (set_frameCount (set_frames vm (aset (frames vm) (frameCount vm) fr))
       (frameCount vm + 1), true).

(** *** Native functions.  [args] is the index of the first argument in
    the value stack. *)

Definition lenNative (vm : VM) (argCount : Z) (args : Z) : Value :=
  if negb (argCount =? 1) then NIL_VAL
  else
    match stack vm args with
    | OBJ_VAL (OBJ_STRING chars) => NUMBER_VAL (double_of_int (Z.of_nat (length chars)))
    | OBJ_VAL (OBJ_LIST items) => NUMBER_VAL (double_of_int (Z.of_nat (length items)))
    | _ => NIL_VAL
    end.

Section WithHost.
Variable host : Host.

Definition execNative (vm : VM) (argCount : Z) (args : Z) : VM * Value :=
  if argCount <? 1 then (vm, NIL_VAL)
  else
    match stack vm args with
    | OBJ_VAL (OBJ_STRING chars) =>
        let command := untilNul chars in
        if negb (Permission.hasPermission (permissions vm) Permission.PERM_EXEC command) then
          let msg :=
            take 511 (lit "Permission denied: exec " ++ [Dataformat.dquote] ++ command
                      ++ [Dataformat.dquote]) in
          (raiseError vm msg (lit "permission"), NIL_VAL)
        else
          let result := processExec host command in
          let out := stdoutData result in
          let outLen :=
            match rev out with
            | c :: _ => if bool_decide (c = Dataformat.char_n)
                        then (length out - 1)%nat else length out
            | [] => length out
            end in
          let map :=
            tableSet
              (tableSet
                 (tableSet
                    (tableSet initTable (lit "stdout") (OBJ_VAL (OBJ_STRING out)))
                    (lit "stderr") (OBJ_VAL (OBJ_STRING (stderrData result))))
                 (lit "exitCode") (NUMBER_VAL (double_of_int (exitCode result))))
              (lit "output") (OBJ_VAL (OBJ_STRING (take outLen out))) in
          let mapVal := OBJ_VAL (OBJ_MAP map) in
          (* the map sits in the slot above the arguments while it is built *)
          let vm := set_stack vm (aset (stack vm) (stackTop vm) mapVal) in
          let vm :=
            if negb (exitCode result =? 0) then
              raiseError vm
                (take 511 (lit "Command failed with exit code "
                           ++ snprintf_d (exitCode result) ++ lit ": " ++ command))
                (lit "exec")
            else vm in
          (vm, mapVal)
    | _ => (vm, NIL_VAL)
    end.

(** The two JSON natives.  [None] is the bound of the parser's descent
    reached; the parser's messages and its use of the value stack as a
    shelter from the collector are left out. *)
Definition parseJsonNative (vm : VM) (argCount : Z) (args : Z) : option Value :=
  if negb (argCount =? 1) then Some NIL_VAL
  else
    match stack vm args with
    | OBJ_VAL (OBJ_STRING chars) => Dataformat.parseJSON host chars
    | _ => Some NIL_VAL
    end.

Definition toJsonNative (vm : VM) (argCount : Z) (args : Z) : Value :=
  if negb (argCount =? 1) then OBJ_VAL (OBJ_STRING (lit "null"))
  else Dataformat.toJSON host (stack vm args).

(** [native->function(vm, argCount, args)]. *)
Definition callNative (function : NativeFn) (vm : VM) (argCount : Z) (args : Z)
    : option (VM * Value) :=
  match function with
  | Object.lenNative => Some (vm, lenNative vm argCount args)
  | Object.execNative => Some (execNative vm argCount args)
  | Object.parseJsonNative =>
      match parseJsonNative vm argCount args with
      | Some v => Some (vm, v)
      | None => None
      end
  | Object.toJsonNative => Some (vm, toJsonNative vm argCount args)
  end.

Definition callValue (vm : VM) (callee : Value) (argCount : Z) : option (VM * bool) :=
  match callee with
  | OBJ_VAL (OBJ_CLOSURE function) => Some (callClosure vm function argCount)
  | OBJ_VAL (OBJ_NATIVE function name arity) =>
      if (0 <=? arity) && negb (argCount =? arity) then
        Some (runtimeError vm
                (lit "Expected " ++ snprintf_d arity ++ lit " arguments but got "
                 ++ snprintf_d argCount ++ lit "."), false)
      else
        match callNative function vm argCount (stackTop vm - argCount) with
        | None => None
        | Some (vm, result) =>
            let vm := set_stackTop vm (stackTop vm - (argCount + 1)) in
            Some (push vm result, true)
        end
  | _ => Some (runtimeError vm (lit "Can only call functions."), false)
  end.

(** *** The macros of [run] *)

Definition STORE_FRAME (r : Regs) : Regs :=
  let fr := frames (vm r) (frame r) in
  set_vm r (set_frames (vm r)
              (aset (frames (vm r)) (frame r) (mkCallFrame (closure fr) (r_ip r) (slots fr)))).

Definition LOAD_FRAME (r : Regs) : Regs :=
  let i := frameCount (vm r) - 1 in
  let fr := frames (vm r) i in
  mkRegs (vm r) i (ip fr) (constants (fn_chunk (closure fr))).

(** [*ip++]; [None] is a read outside the code array. *)
Definition READ_BYTE (r : Regs) : option (Z * Regs) :=
  let p := r_ip r in
  if offset p <? 0 then None
  else
    match base p !! Z.to_nat (offset p) with
    | Some byte => Some (byte, set_ip r (mkCodePtr (base p) (offset p + 1)))
    | None => None
    end.

Definition READ_SHORT (r : Regs) : option (Z * Regs) :=
  match READ_BYTE r with
  | Some (hi, r) =>
      match READ_BYTE r with
      | Some (lo, r) => Some (Z.lor (Z.shiftl hi 8) lo, r)
      | None => None
      end
  | None => None
  end.

Definition READ_CONSTANT (r : Regs) : option (Value * Regs) :=
  match READ_BYTE r with
  | Some (i, r) =>
      match r_constants r !! Z.to_nat i with
      | Some v => Some (v, r)
      | None => None
      end
  | None => None
  end.

Definition READ_STRING (r : Regs) : option (ObjString * Regs) :=
  match READ_CONSTANT r with
  | Some (OBJ_VAL (OBJ_STRING chars), r) => Some (chars, r)
  | _ => None
  end.

Definition jumpBy (r : Regs) (delta : Z) : Regs :=
  set_ip r (mkCodePtr (base (r_ip r)) (offset (r_ip r) + delta)).

(** [STORE_FRAME(); runtimeError(vm, message); return
    INTERPRET_RUNTIME_ERROR;] *)
Definition fail (r : Regs) (message : cstring) : Outcome :=
  Return INTERPRET_RUNTIME_ERROR (runtimeError (vm (STORE_FRAME r)) message).

(** [BINARY_OP(valueType, op)] *)
Definition BINARY_OP (r : Regs) (op : double -> double -> Value) : Outcome :=
  match top (vm r) (-1), top (vm r) (-2) with
  | NUMBER_VAL b, NUMBER_VAL a =>
      let vm1 := set_stackTop (vm r) (stackTop (vm r) - 1) in
      Next (set_vm r (set_top vm1 (-1) (op a b)))
  | _, _ => fail r (lit "Operands must be numbers.")
  end.

Definition concatenate (vm : VM) : option VM :=
  match peek vm 0, peek vm 1 with
  | OBJ_VAL (OBJ_STRING b), OBJ_VAL (OBJ_STRING a) =>
      let vm := fst (pop vm) in
      let vm := fst (pop vm) in
      Some (push vm (OBJ_VAL (OBJ_STRING (a ++ b))))
  | _, _ => None
  end.

(** *** Raised errors: the check that follows a call in [OP_CALL] *)

(** Unwind to the state recorded by the topmost handler and enter its
    code with the error value pushed. *)
Definition fireHandler (r : Regs) : Regs :=
  let handler := handlers (vm r) (handlerCount (vm r) - 1) in
  let r := set_vm r (set_frameCount (vm r) (h_frameCount handler)) in
  let r := LOAD_FRAME r in
  let r := set_vm r (set_stackTop (vm r) (h_stackTop handler)) in
  let r := set_vm r (push (vm r) (currentError (vm r))) in
  let r := set_ip r (handlerIP handler) in
  set_vm r (set_currentError (set_hasError (vm r) false) NIL_VAL).

(** No handler: print the error and terminate. *)
Definition unhandledError (r : Regs) : Outcome :=
  let message :=
    match currentError (vm r) with
    | OBJ_VAL (OBJ_MAP errMap) =>
        match tableGet errMap (lit "message") with
        | Some (OBJ_VAL (OBJ_STRING msg)) => untilNul msg
        | _ => lit "Runtime error."
        end
    | _ => lit "Runtime error."
    end in
  let vm := runtimeError (vm (STORE_FRAME r)) message in
  Return INTERPRET_RUNTIME_ERROR (set_currentError (set_hasError vm false) NIL_VAL).

Definition checkRaised (r : Regs) : Outcome :=
  if hasError (vm r) then
    if 0 <? handlerCount (vm r) then Next (fireHandler r)
    else unhandledError r
  else Next r.

(* ================================================================= *)
(** ** vm.c: the instructions *)

Definition op_CONSTANT (r : Regs) : Outcome :=
  match READ_CONSTANT r with
  | Some (v, r) => Next (set_vm r (pushRaw (vm r) v))
  | None => Undefined
  end.

Definition op_ADD (r : Regs) : Outcome :=
  match top (vm r) (-1), top (vm r) (-2) with
  | NUMBER_VAL b, NUMBER_VAL a =>
      let vm1 := set_stackTop (vm r) (stackTop (vm r) - 1) in
      Next (set_vm r (set_top vm1 (-1) (NUMBER_VAL (SFadd prec emax a b))))
  | OBJ_VAL (OBJ_STRING _), OBJ_VAL (OBJ_STRING _) =>
      match concatenate (vm r) with
      | Some vm' => Next (set_vm r vm')
      | None => Undefined
      end
  | _, _ => fail r (lit "Operands must be two numbers or two strings.")
  end.

Definition op_DIVIDE (r : Regs) : Outcome :=
  match top (vm r) (-1), top (vm r) (-2) with
  | NUMBER_VAL b, NUMBER_VAL a =>
      if double_is_zero b then fail r (lit "Division by zero.")
      else
        let vm1 := set_stackTop (vm r) (stackTop (vm r) - 1) in
        Next (set_vm r (set_top vm1 (-1) (NUMBER_VAL (SFdiv prec emax a b))))
  | _, _ => fail r (lit "Operands must be numbers.")
  end.

Definition op_MODULO (r : Regs) : Outcome :=
  BINARY_OP r (fun a b => NUMBER_VAL (fmod host a b)).

Definition op_NEGATE (r : Regs) : Outcome :=
  match top (vm r) (-1) with
  | NUMBER_VAL a => Next (set_vm r (set_top (vm r) (-1) (NUMBER_VAL (SFopp a))))
  | _ => fail r (lit "Operand must be a number.")
  end.

Definition op_EQUAL (r : Regs) (negate : bool) : Outcome :=
  let b := top (vm r) (-1) in
  let a := top (vm r) (-2) in
  match valuesEqual a b with
  | Some eq =>
      let vm1 := set_stackTop (vm r) (stackTop (vm r) - 1) in
      Next (set_vm r (set_top vm1 (-1) (BOOL_VAL (if negate then negb eq else eq))))
  | None => Undefined
  end.

Definition op_NOT (r : Regs) : Outcome :=
  Next (set_vm r (set_top (vm r) (-1) (BOOL_VAL (isFalsey (top (vm r) (-1)))))).

Definition op_GET_LOCAL (r : Regs) : Outcome :=
  match READ_BYTE r with
  | Some (slot, r) =>
      let fr := frames (vm r) (frame r) in
      Next (set_vm r (pushRaw (vm r) (stack (vm r) (slots fr + slot))))
  | None => Undefined
  end.

Definition op_SET_LOCAL (r : Regs) : Outcome :=
  match READ_BYTE r with
  | Some (slot, r) =>
      let fr := frames (vm r) (frame r) in
      Next (set_vm r (set_stack (vm r)
                        (aset (stack (vm r)) (slots fr + slot) (top (vm r) (-1)))))
  | None => Undefined
  end.

Definition icSlot (name : ObjString) : Z := Z.land (hashString name) (GLOBAL_IC_SIZE - 1).

(** The test of the inline cache: the same name, and the capacity the
    table had when the slot was filled. *)
Definition icHit (vm : VM) (name : ObjString) : bool :=
  let ic := globalIC vm (icSlot name) in
  bool_decide (ic_key ic = Some name) &&
  bool_decide (ic_tableCapacity ic = capacity (globals vm)).

Definition fillIC (vm : VM) (name : ObjString) (entry : nat) : VM :=
  set_globalIC vm
    (aset (globalIC vm) (icSlot name)
       (mkGlobalICSlot (Some name) entry (capacity (globals vm)))).

Definition op_GET_GLOBAL (r : Regs) : Outcome :=
  match READ_STRING r with
  | Some (name, r) =>
      let ic := globalIC (vm r) (icSlot name) in
      if icHit (vm r) name then
        match entries (globals (vm r)) !! ic_entry ic with
        | Some e => Next (set_vm r (pushRaw (vm r) (value e)))
        | None => Undefined
        end
      else
        match tableGetEntry (globals (vm r)) name with
        | None => fail r (lit "Undefined variable '" ++ untilNul name ++ lit "'.")
        | Some entry =>
            match entries (globals (vm r)) !! entry with
            | Some e => Next (set_vm r (pushRaw (fillIC (vm r) name entry) (value e)))
            | None => Undefined
            end
        end
  | None => Undefined
  end.

Definition op_SET_GLOBAL (r : Regs) : Outcome :=
  match READ_STRING r with
  | Some (name, r) =>
      let v := top (vm r) (-1) in
      let ic := globalIC (vm r) (icSlot name) in
      let g := globals (vm r) in
      if icHit (vm r) name then
        match entries g !! ic_entry ic with
        | Some e =>
            Next (set_vm r (set_globals (vm r)
                    (mkTable (count g) (capacity g)
                       (<[ic_entry ic := mkEntry (Object.key e) v]> (entries g)))))
        | None => Undefined
        end
      else
        let vm1 := set_globals (vm r) (tableSet g name v) in
        match tableGetEntry (globals vm1) name with
        | Some entry => Next (set_vm r (fillIC vm1 name entry))
        | None => Undefined
        end
  | None => Undefined
  end.

Definition op_DEFINE_GLOBAL (r : Regs) : Outcome :=
  match READ_STRING r with
  | Some (name, r) =>
      let vm1 := set_globals (vm r) (tableSet (globals (vm r)) name (top (vm r) (-1))) in
      Next (set_vm r (set_stackTop vm1 (stackTop vm1 - 1)))
  | None => Undefined
  end.

Definition op_JUMP (r : Regs) : Outcome :=
  match READ_SHORT r with
  | Some (off, r) => Next (jumpBy r off)
  | None => Undefined
  end.

Definition op_JUMP_IF_FALSE (r : Regs) : Outcome :=
  match READ_SHORT r with
  | Some (off, r) => Next (if isFalsey (top (vm r) (-1)) then jumpBy r off else r)
  | None => Undefined
  end.

Definition op_LOOP (r : Regs) : Outcome :=
  match READ_SHORT r with
  | Some (off, r) => Next (jumpBy r (- off))
  | None => Undefined
  end.

Definition op_CALL (r : Regs) : Outcome :=
  match READ_BYTE r with
  | Some (argCount, r) =>
      let r := STORE_FRAME r in
      match callValue (vm r) (peek (vm r) argCount) argCount with
      | None => Undefined
      | Some (vm', false) => Return INTERPRET_RUNTIME_ERROR vm'
      | Some (vm', true) => checkRaised (LOAD_FRAME (set_vm r vm'))
      end
  | None => Undefined
  end.

Definition op_CLOSURE (r : Regs) : Outcome :=
  match READ_CONSTANT r with
  | Some (OBJ_VAL (OBJ_FUNCTION (mkFunction a 0 c n)), r) =>
      Next (set_vm r (push (vm r) (OBJ_VAL (OBJ_CLOSURE (mkFunction a 0 c n)))))
  | _ => Undefined
  end.

Definition op_RETURN (r : Regs) : Outcome :=
  let '(vm1, result) := pop (vm r) in
  let fr := frames vm1 (frame r) in
  let vm1 := set_frameCount vm1 (frameCount vm1 - 1) in
  if frameCount vm1 =? 0 then Return INTERPRET_OK (fst (pop vm1))
  else if (0 <? baseFrameCount vm1) && (frameCount vm1 =? baseFrameCount vm1) then
    Return INTERPRET_OK (push (set_stackTop vm1 (slots fr)) result)
  else Next (LOAD_FRAME (set_vm r (push (set_stackTop vm1 (slots fr)) result))).

Definition op_POP (r : Regs) : Outcome :=
  Next (set_vm r (set_stackTop (vm r) (stackTop (vm r) - 1))).

Definition op_BUILD_LIST (r : Regs) : Outcome :=
  match READ_BYTE r with
  | Some (n, r) =>
      let items :=
        map (fun i => top (vm r) (- (Z.of_nat i) - 1)) (rev (seq 0 (Z.to_nat n))) in
      let list := OBJ_VAL (OBJ_LIST items) in
      let vm1 := push (vm r) list in
      let vm1 := set_stackTop vm1 (stackTop vm1 - (n + 1)) in
      Next (set_vm r (push vm1 list))
  | None => Undefined
  end.

(** The cast of an index and the wrap of a negative one. *)
Definition wrapIndex (index : double) (n : Z) : option Z :=
  match double_to_int index with
  | Some i => Some (if i <? 0 then i + n else i)
  | None => None
  end.

Definition op_INDEX_GET (r : Regs) : Outcome :=
  let '(vm1, index) := pop (vm r) in
  let '(vm1, obj) := pop vm1 in
  let r := set_vm r vm1 in
  match obj with
  | OBJ_VAL (OBJ_LIST items) =>
      match index with
      | NUMBER_VAL num =>
          match wrapIndex num (Z.of_nat (length items)) with
          | Some i =>
              if (i <? 0) || (Z.of_nat (length items) <=? i) then
                fail r (lit "List index " ++ snprintf_d i ++ lit " out of range (length "
                        ++ snprintf_d (Z.of_nat (length items)) ++ lit ").")
              else
                match items !! Z.to_nat i with
                | Some v => Next (set_vm r (push vm1 v))
                | None => Undefined
                end
          | None => Undefined
          end
      | _ => fail r (lit "List index must be a number.")
      end
  | OBJ_VAL (OBJ_MAP table) =>
      match index with
      | OBJ_VAL (OBJ_STRING k) =>
          Next (set_vm r (push vm1 (default NIL_VAL (tableGet table k))))
      | _ => fail r (lit "Map key must be a string.")
      end
  | OBJ_VAL (OBJ_STRING chars) =>
      match index with
      | NUMBER_VAL num =>
          match wrapIndex num (Z.of_nat (length chars)) with
          | Some i =>
              if (i <? 0) || (Z.of_nat (length chars) <=? i) then
                fail r (lit "String index out of range.")
              else
                match chars !! Z.to_nat i with
                | Some c => Next (set_vm r (push vm1 (OBJ_VAL (OBJ_STRING [c]))))
                | None => Undefined
                end
          | None => Undefined
          end
      | _ => fail r (lit "String index must be a number.")
      end
  | _ => fail r (lit "Only lists, maps, and strings support indexing.")
  end.

Definition op_GET_PROPERTY (r : Regs) : Outcome :=
  let obj := peek (vm r) 0 in
  match READ_STRING r with
  | Some (name, r) =>
      let replaceTop (v : Value) := Next (set_vm r (push (fst (pop (vm r))) v)) in
      match obj with
      | OBJ_VAL (OBJ_MAP table) => replaceTop (default NIL_VAL (tableGet table name))
      | OBJ_VAL (OBJ_LIST items) =>
          if bool_decide (name = lit "length")
          then replaceTop (NUMBER_VAL (double_of_int (Z.of_nat (length items))))
          else fail r (lit "List has no property '" ++ untilNul name ++ lit "'.")
      | OBJ_VAL (OBJ_STRING chars) =>
          if bool_decide (name = lit "length")
          then replaceTop (NUMBER_VAL (double_of_int (Z.of_nat (length chars))))
          else fail r (lit "String has no property '" ++ untilNul name ++ lit "'.")
      | _ => fail r (lit "Only maps, lists, and strings have properties.")
      end
  | None => Undefined
  end.

Definition permissionOfByte (b : Z) : option Permission.PermissionType :=
  [ Permission.PERM_EXEC; Permission.PERM_NET; Permission.PERM_READ;
    Permission.PERM_WRITE; Permission.PERM_ENV ] !! Z.to_nat b.

Definition op_ALLOW (r : Regs) : Outcome :=
  match READ_BYTE r with
  | Some (permType, r) =>
      match READ_STRING r, permissionOfByte permType with
      | Some (target, r), Some ty =>
          Next (set_vm r (set_permissions (vm r)
                  (Permission.addPermission (permissions (vm r)) ty target
                     (Z.of_nat (length target)))))
      | _, _ => Undefined
      end
  | None => Undefined
  end.

Definition op_PUSH_HANDLER (r : Regs) : Outcome :=
  match READ_SHORT r with
  | Some (off, r) =>
      if HANDLER_MAX <=? handlerCount (vm r) then
        fail r (lit "Too many nested error handlers.")
      else
        let handler :=
          mkErrorHandler (mkCodePtr (base (r_ip r)) (offset (r_ip r) + off))
            (frameCount (vm r)) (stackTop (vm r)) in
        Next (set_vm r
                (set_handlerCount
                   (set_handlers (vm r)
                      (aset (handlers (vm r)) (handlerCount (vm r)) handler))
                   (handlerCount (vm r) + 1)))
  | None => Undefined
  end.

Definition op_POP_HANDLER (r : Regs) : Outcome :=
  Next (if 0 <? handlerCount (vm r)
        then set_vm r (set_handlerCount (vm r) (handlerCount (vm r) - 1))
        else r).

(** *** [OP_IMPORT] *)

(** The path of the module file: relative to the directory of the
    script, with the extension [.glipt] appended when it is missing.
    The buffer holds 1023 bytes. *)
Fixpoint lastSlash (s : cstring) (i : nat) (found : option nat) : option nat :=
  match s with
  | [] => found
  | c :: s' => lastSlash s' (S i) (if bool_decide (c = "/"%char) then Some i else found)
  end.

Definition resolveModulePath (scriptPath : option cstring) (path : ObjString) : cstring :=
  let name := untilNul path in
  let full :=
    match scriptPath with
    | Some script =>
        match lastSlash script 0 None with
        | Some (S dirLen) => take 1023 (take (S dirLen) script ++ "/"%char :: name)
        | _ => take 1023 name
        end
    | None => take 1023 name
    end in
  let fpLen := length full in
  if (fpLen <? 6)%nat || negb (bool_decide (drop (fpLen - 6) full = lit ".glipt")) then
    if (fpLen + 7 <? 1024)%nat then full ++ lit ".glipt" else full
  else full.

(** Diff globals: anything the module added goes into the module map,
    then gets removed from globals to keep the namespace clean.  The
    loop visits the slots [i], [i+1], ... of the globals table; [n] is
    the number of slots left. *)
Fixpoint importDiff (n : nat) (i : nat) (existingGlobals : Table)
    (globals moduleTable : Table) : Table * Table :=
  match n with
  | O => (globals, moduleTable)
  | S n' =>
      match entries globals !! i with
      | Some (mkEntry (Some k) v) =>
          match tableGet existingGlobals k with
          | None =>
              importDiff n' (S i) existingGlobals
                (tableDelete globals k) (tableSet moduleTable k v)
          | Some _ => importDiff n' (S i) existingGlobals globals moduleTable
          end
      | _ => importDiff n' (S i) existingGlobals globals moduleTable
      end
  end.

(** The part of [OP_IMPORT] that follows the run of the module: the
    diff, the cache, the binding. *)
Definition importFinish (existingGlobals : Table) (path modName : ObjString) (vm : VM)
    : VM :=
  let '(g, moduleTable) :=
    importDiff (capacity (globals vm)) 0 existingGlobals (globals vm) initTable in
  let moduleMap := OBJ_VAL (OBJ_MAP moduleTable) in
  let vm := fst (pop (push (set_globals vm g) moduleMap)) in
  let vm := set_modules vm (tableSet (modules vm) path moduleMap) in
  set_globals vm (tableSet (globals vm) modName moduleMap).

(** [run] is the nested run of the dispatch loop. *)
Definition op_IMPORT (run : VM -> option (InterpretResult * VM)) (r : Regs) : Outcome :=
  match READ_STRING r with
  | Some (path, r) =>
      match READ_STRING r with
      | Some (modName, r) =>
          let r := STORE_FRAME r in
          let vm0 := vm r in
          match tableGet (modules vm0) path with
          | Some cached => Next (set_vm r (set_globals vm0 (tableSet (globals vm0) modName cached)))
          | None =>
              let fullPath := resolveModulePath (scriptPath vm0) path in
              match readFile host fullPath with
              | None =>
                  Return INTERPRET_RUNTIME_ERROR
                    (runtimeError vm0
                       (lit "Could not open module '" ++ untilNul path
                        ++ lit "' (resolved to '" ++ fullPath ++ lit "')."))
              | Some modSource =>
                  let existingGlobals := tableAddAll (globals vm0) initTable in
                  match compile host (untilNul modSource) with
                  | None =>
                      Return INTERPRET_RUNTIME_ERROR
                        (runtimeError vm0
                           (lit "Compilation error in module '" ++ untilNul path ++ lit "'."))
                  | Some modFunc =>
                      let vm1 := fst (pop (push vm0 (OBJ_VAL (OBJ_FUNCTION modFunc)))) in
                      let vm1 := push vm1 (OBJ_VAL (OBJ_CLOSURE modFunc)) in
                      match callClosure vm1 modFunc 0 with
                      | (vm2, false) =>
                          Return INTERPRET_RUNTIME_ERROR
                            (runtimeError vm2
                               (lit "Error calling module '" ++ untilNul path ++ lit "'."))
                      | (vm2, true) =>
                          let savedBase := baseFrameCount vm2 in
                          let vm2 := set_baseFrameCount vm2 (frameCount vm2 - 1) in
                          match run vm2 with
                          | None => Undefined
                          | Some (modResult, vm3) =>
                              let vm3 := set_baseFrameCount vm3 savedBase in
                              match modResult with
                              | INTERPRET_OK =>
                                  Next (LOAD_FRAME
                                          (set_vm r (importFinish existingGlobals path modName vm3)))
                              | _ => Return INTERPRET_RUNTIME_ERROR vm3
                              end
                          end
                      end
                  end
              end
          end
      | None => Undefined
      end
  | None => Undefined
  end.

(** *** The dispatch loop *)

(** One instruction.  [OP_MODULO] goes to the host's [fmod].  The
    instructions that read or write a captured variable, that write
    into a list or a map shared with other values, and [OP_BUILD_MAP]
    and [OP_PRINT], are outside the embedded part. *)
Definition step (run : VM -> option (InterpretResult * VM)) (r : Regs) : Outcome :=
  match READ_BYTE r with
  | None => Undefined
  | Some (instruction, r) =>
      match decode instruction with
      | None => Undefined
      | Some op =>
          match op with
          | OP_CONSTANT => op_CONSTANT r
          | OP_NIL => Next (set_vm r (pushRaw (vm r) NIL_VAL))
          | OP_TRUE => Next (set_vm r (pushRaw (vm r) TRUE_VAL))
          | OP_FALSE => Next (set_vm r (pushRaw (vm r) FALSE_VAL))
          | OP_ADD => op_ADD r
          | OP_SUBTRACT => BINARY_OP r (fun a b => NUMBER_VAL (SFsub prec emax a b))
          | OP_MULTIPLY => BINARY_OP r (fun a b => NUMBER_VAL (SFmul prec emax a b))
          | OP_DIVIDE => op_DIVIDE r
          | OP_MODULO => op_MODULO r
          | OP_NEGATE => op_NEGATE r
          | OP_EQUAL => op_EQUAL r false
          | OP_NOT_EQUAL => op_EQUAL r true
          | OP_GREATER => BINARY_OP r (fun a b => BOOL_VAL (SFltb b a))
          | OP_GREATER_EQUAL => BINARY_OP r (fun a b => BOOL_VAL (SFleb b a))
          | OP_LESS => BINARY_OP r (fun a b => BOOL_VAL (SFltb a b))
          | OP_LESS_EQUAL => BINARY_OP r (fun a b => BOOL_VAL (SFleb a b))
          | OP_NOT => op_NOT r
          | OP_GET_LOCAL => op_GET_LOCAL r
          | OP_SET_LOCAL => op_SET_LOCAL r
          | OP_GET_GLOBAL => op_GET_GLOBAL r
          | OP_SET_GLOBAL => op_SET_GLOBAL r
          | OP_DEFINE_GLOBAL => op_DEFINE_GLOBAL r
          | OP_JUMP => op_JUMP r
          | OP_JUMP_IF_FALSE => op_JUMP_IF_FALSE r
          | OP_LOOP => op_LOOP r
          | OP_CALL => op_CALL r
          | OP_CLOSURE => op_CLOSURE r
          | OP_RETURN => op_RETURN r
          | OP_CLOSE_UPVALUE => op_POP r
          | OP_BUILD_LIST => op_BUILD_LIST r
          | OP_INDEX_GET => op_INDEX_GET r
          | OP_GET_PROPERTY => op_GET_PROPERTY r
          | OP_POP => op_POP r
          | OP_ALLOW => op_ALLOW r
          | OP_PUSH_HANDLER => op_PUSH_HANDLER r
          | OP_POP_HANDLER => op_POP_HANDLER r
          | OP_THROW => Next r
          | OP_IMPORT => op_IMPORT run r
          | OP_GET_UPVALUE | OP_SET_UPVALUE | OP_BUILD_MAP | OP_INDEX_SET
          | OP_SET_PROPERTY | OP_PRINT => Undefined
          end
      end
  end.

(** The registers on entry to [run]. *)
Definition enter (vm : VM) : Regs := LOAD_FRAME (mkRegs vm 0 (mkCodePtr [] 0) []).

(** The loop, for at most [fuel] instructions, nested runs included;
    [None] is the bound reached or an undefined step. *)
Fixpoint exec (fuel : nat) (r : Regs) : option (InterpretResult * VM) :=
  match fuel with
  | O => None
  | S fuel' =>
      match step (fun vm => exec fuel' (enter vm)) r with
      | Next r' => exec fuel' r'
      | Return result vm' => Some (result, vm')
      | Undefined => None
      end
  end.

Definition run (fuel : nat) (vm : VM) : option (InterpretResult * VM) :=
  exec fuel (enter vm).

(** [n] instructions from [r], when none of them leaves the loop. *)
Fixpoint steps (fuel : nat) (n : nat) (r : Regs) : option Regs :=
  match n with
  | O => Some r
  | S n' =>
      match step (run fuel) r with
      | Next r' => steps fuel n' r'
      | _ => None
      end
  end.

End WithHost.


Definition initVM : VM :=
  mkVM (fun _ => mkCallFrame (mkFunction 0 0 (mkChunk [] [] [] initTable) None)
                   (mkCodePtr [] 0) 0)
    0 (fun _ => NIL_VAL) 0 initTable Permission.initPermissions
    (fun _ => mkErrorHandler (mkCodePtr [] 0) 0 0) 0 false NIL_VAL
    (fun _ => mkGlobalICSlot None 0 0) 0 initTable None [].

End VM.

(* ================================================================= *)
(** ** memory.c: the collector, over the heap as a graph *)

(** The collector follows pointers, so here an object is a cell of the
    heap and a reference is the address of the cell; address 0 is
    [NULL].  A value is a word of value.h read through [untag].  The
    module also embeds the allocating functions of object.c, value.c and
    chunk.c that the compiler calls while it fills a constant pool. *)
Module Memory.

Abbreviation Value := Object.Tagged.
Abbreviation NIL_VAL := Object.TAG_NIL.
Abbreviation OBJ_VAL := Object.TAG_OBJ.

Inductive ObjType : Type :=
  | OBJ_STRING | OBJ_FUNCTION | OBJ_CLOSURE | OBJ_UPVALUE | OBJ_NATIVE | OBJ_LIST | OBJ_MAP.

Record Entry : Type := mkEntry {
  key : Z;                      (* ObjString* *)
  value : Value
}.

(** The live entries of a table. *)
Definition Table := list Entry.

(** The fields of each kind of object that hold references, and those
    that the allocating functions read.  [constants] are the
    [chunk.constants.count] values of the pool and [capacity] is
    [chunk.constants.capacity]. *)
Inductive Fields : Type :=
  | ObjString (chars : list ascii)
  | ObjFunction (name : Z) (constants : list Value) (capacity : Z)
  | ObjClosure (function : Z) (upvalues : list Z)
  | ObjUpvalue (closed : Value) (next : Z)
  | ObjNative
  | ObjList (items : list Value)
  | ObjMap (table : Table).

Definition type (fields : Fields) : ObjType :=
  match fields with
  | ObjString _ => OBJ_STRING
  | ObjFunction _ _ _ => OBJ_FUNCTION
  | ObjClosure _ _ => OBJ_CLOSURE
  | ObjUpvalue _ _ => OBJ_UPVALUE
  | ObjNative => OBJ_NATIVE
  | ObjList _ => OBJ_LIST
  | ObjMap _ => OBJ_MAP
  end.

(** [struct Obj] and what follows it in the object. *)
Record Obj : Type := mkObj {
  isMarked : bool;
  next : Z;
  fields : Fields
}.

Definition set_isMarked (o : Obj) (b : bool) : Obj := mkObj b (next o) (fields o).
Definition set_next (o : Obj) (n : Z) : Obj := mkObj (isMarked o) n (fields o).
Definition set_fields (o : Obj) (f : Fields) : Obj := mkObj (isMarked o) (next o) f.

(** The part of [struct VM] that the collector and the allocator use.
    [stack] holds the slots from [vm->stack] up to [vm->stackTop],
    [frames] the closure of each of the [frameCount] active frames,
    [grayStack] the [grayCount] gray objects, the last pushed first.
    [memory] gives the object at an address, [None] where nothing is
    allocated, and [brk] is the address that the next [malloc] returns. *)
Record VM : Type := mkVM {
  stack : list Value;
  frames : list Z;
  openUpvalues : Z;
  globals : Table;
  modules : Table;
  strings : Table;
  objects : Z;
  grayStack : list Z;
  bytesAllocated : Z;
  nextGC : Z;
  memory : array (option Obj);
  brk : Z
}.

Definition set_stack (vm : VM) (x : list Value) : VM :=
  mkVM x (frames vm) (openUpvalues vm) (globals vm) (modules vm) (strings vm) (objects vm)
    (grayStack vm) (bytesAllocated vm) (nextGC vm) (memory vm) (brk vm).
Definition set_strings (vm : VM) (x : Table) : VM :=
  mkVM (stack vm) (frames vm) (openUpvalues vm) (globals vm) (modules vm) x (objects vm)
    (grayStack vm) (bytesAllocated vm) (nextGC vm) (memory vm) (brk vm).
Definition set_objects (vm : VM) (x : Z) : VM :=
  mkVM (stack vm) (frames vm) (openUpvalues vm) (globals vm) (modules vm) (strings vm) x
    (grayStack vm) (bytesAllocated vm) (nextGC vm) (memory vm) (brk vm).
Definition set_grayStack (vm : VM) (x : list Z) : VM :=
  mkVM (stack vm) (frames vm) (openUpvalues vm) (globals vm) (modules vm) (strings vm)
    (objects vm) x (bytesAllocated vm) (nextGC vm) (memory vm) (brk vm).
Definition set_bytesAllocated (vm : VM) (x : Z) : VM :=
  mkVM (stack vm) (frames vm) (openUpvalues vm) (globals vm) (modules vm) (strings vm)
    (objects vm) (grayStack vm) x (nextGC vm) (memory vm) (brk vm).
Definition set_nextGC (vm : VM) (x : Z) : VM :=
  mkVM (stack vm) (frames vm) (openUpvalues vm) (globals vm) (modules vm) (strings vm)
    (objects vm) (grayStack vm) (bytesAllocated vm) x (memory vm) (brk vm).
Definition set_memory (vm : VM) (x : array (option Obj)) : VM :=
  mkVM (stack vm) (frames vm) (openUpvalues vm) (globals vm) (modules vm) (strings vm)
    (objects vm) (grayStack vm) (bytesAllocated vm) (nextGC vm) x (brk vm).
Definition set_brk (vm : VM) (x : Z) : VM :=
  mkVM (stack vm) (frames vm) (openUpvalues vm) (globals vm) (modules vm) (strings vm)
    (objects vm) (grayStack vm) (bytesAllocated vm) (nextGC vm) (memory vm) x.

(** What a function of the C code comes to: its result, a read or a
    write through a pointer to an object that has been freed, or the
    bound of a loop reached. *)
Inductive Run (A : Type) : Type :=
  | Done (a : A)
  | UseAfterFree (address : Z)
  | OutOfFuel.
Arguments Done {A}.
Arguments UseAfterFree {A}.
Arguments OutOfFuel {A}.

Definition bind {A B : Type} (m : Run A) (k : A -> Run B) : Run B :=
  match m with
  | Done a => k a
  | UseAfterFree address => UseAfterFree address
  | OutOfFuel => OutOfFuel
  end.

Notation "x <- m ;; k" := (bind m (fun x => k))
  (at level 100, m at next level, right associativity).

(** The object behind a pointer. *)
Definition deref (vm : VM) (object : Z) : Run Obj :=
  match memory vm object with
  | Some o => Done o
  | None => UseAfterFree object
  end.

Definition store (vm : VM) (object : Z) (o : Obj) : VM :=
  set_memory vm (aset (memory vm) object (Some o)).

Section WithTarget.

(** [DEBUG_STRESS_GC], the sizes that [sizeof] gives for the structs of
    the objects, and the bound of each loop of the collector. *)
Variable stress : bool.
Variable sizeofObj : ObjType -> Z.
Variable fuel : nat.

Definition size_t (n : Z) : Z := n mod 2 ^ 64.

(** *** The mark phase *)

(** The gray stack grows by a [realloc] of its own, which does not
    count as an allocation. *)
Definition markObject (vm : VM) (object : Z) : Run VM :=
  if object =? 0 then Done vm
  else
    o <- deref vm object ;;
    if isMarked o then Done vm
    else Done (set_grayStack (store vm object (set_isMarked o true)) (object :: grayStack vm)).

Definition markValue (vm : VM) (value : Value) : Run VM :=
  match value with
  | OBJ_VAL object => markObject vm object
  | _ => Done vm
  end.

Fixpoint markArray (vm : VM) (values : list Value) : Run VM :=
  match values with
  | [] => Done vm
  | v :: values' => vm <- markValue vm v ;; markArray vm values'
  end.

Fixpoint markObjects (vm : VM) (pointers : list Z) : Run VM :=
  match pointers with
  | [] => Done vm
  | object :: pointers' => vm <- markObject vm object ;; markObjects vm pointers'
  end.

(** Modelled from the spec: [markTable] of table.c marks the key and
    the value of every entry. *)
Fixpoint markTable (vm : VM) (table : Table) : Run VM :=
  match table with
  | [] => Done vm
  | e :: table' =>
      vm <- markObject vm (key e) ;;
      vm <- markValue vm (value e) ;;
      markTable vm table'
  end.

(** The loop over the list of open upvalues. *)
Fixpoint markOpenUpvalues (n : nat) (vm : VM) (upvalue : Z) : Run VM :=
  match n with
  | O => if upvalue =? 0 then Done vm else OutOfFuel
  | S n' =>
      if upvalue =? 0 then Done vm
      else
        vm <- markObject vm upvalue ;;
        o <- deref vm upvalue ;;
        match fields o with
        | ObjUpvalue _ next => markOpenUpvalues n' vm next
        | _ => Done vm
        end
  end.

(** [markRoots]: the stack, the closures of the frames, the open
    upvalues, the globals and the module cache.  Its last two lines are
    a comment on the roots of the compiler, and no statement. *)
Definition markRoots (vm : VM) : Run VM :=
  vm <- markArray vm (stack vm) ;;
  vm <- markObjects vm (frames vm) ;;
  vm <- markOpenUpvalues fuel vm (openUpvalues vm) ;;
  vm <- markTable vm (globals vm) ;;
  markTable vm (modules vm).

(** *** The trace phase *)

Definition blackenObject (vm : VM) (object : Z) : Run VM :=
  o <- deref vm object ;;
  match fields o with
  | ObjClosure function upvalues =>
      vm <- markObject vm function ;;
      markObjects vm upvalues
  | ObjFunction name constants _ =>
      vm <- markObject vm name ;;
      markArray vm constants
  | ObjUpvalue closed _ => markValue vm closed
  | ObjList items => markArray vm items
  | ObjMap table => markTable vm table
  | ObjNative | ObjString _ => Done vm
  end.

Fixpoint traceReferences_loop (n : nat) (vm : VM) : Run VM :=
  match grayStack vm, n with
  | [], _ => Done vm
  | _ :: _, O => OutOfFuel
  | object :: gray, S n' =>
      vm <- blackenObject (set_grayStack vm gray) object ;;
      traceReferences_loop n' vm
  end.

Definition traceReferences (vm : VM) : Run VM := traceReferences_loop fuel vm.

(** *** The sweep phase *)

(** The bytes that [freeObject] gives back.  The arrays of the byte
    code and of its lines, of the items of a list and of the entries
    of a map, which this view of the objects leaves out, are not
    counted. *)
Definition sizeOf (o : Obj) : Z :=
  match fields o with
  | ObjString chars => sizeofObj OBJ_STRING + Z.of_nat (length chars) + 1
  | ObjFunction _ _ capacity => sizeofObj OBJ_FUNCTION + 8 * capacity
  | ObjClosure _ upvalues => sizeofObj OBJ_CLOSURE + 8 * Z.of_nat (length upvalues)
  | fields => sizeofObj (type fields)
  end.

(** [freeObject]: each of its calls of [reallocate] has the new size
    0, which lowers [bytesAllocated] and starts no collection. *)
Definition freeObject (vm : VM) (object : Z) : Run VM :=
  o <- deref vm object ;;
  let vm := set_bytesAllocated vm (size_t (bytesAllocated vm - sizeOf o)) in
  Done (set_memory vm (aset (memory vm) object None)).

Fixpoint sweep_loop (n : nat) (vm : VM) (previous object : Z) : Run VM :=
  match n with
  | O => if object =? 0 then Done vm else OutOfFuel
  | S n' =>
      if object =? 0 then Done vm
      else
        o <- deref vm object ;;
        if isMarked o then
          sweep_loop n' (store vm object (set_isMarked o false)) object (next o)
        else
          let unreached := object in
          let object := next o in
          vm <- (if negb (previous =? 0) then
                   p <- deref vm previous ;;
                   Done (store vm previous (set_next p object))
                 else Done (set_objects vm object)) ;;
          vm <- freeObject vm unreached ;;
          sweep_loop n' vm previous object
  end.

Definition sweep (vm : VM) : Run VM := sweep_loop fuel vm 0 (objects vm).

(** Modelled from the spec: [tableRemoveWhite] of table.c deletes the
    entries whose key is not marked. *)
Fixpoint tableRemoveWhite (vm : VM) (table : Table) : Run Table :=
  match table with
  | [] => Done []
  | e :: table' =>
      o <- deref vm (key e) ;;
      table' <- tableRemoveWhite vm table' ;;
      Done (if isMarked o then e :: table' else table')
  end.

Definition collectGarbage (vm : VM) : Run VM :=
  vm <- markRoots vm ;;
  vm <- traceReferences vm ;;
  table <- tableRemoveWhite vm (strings vm) ;;
  vm <- sweep (set_strings vm table) ;;
  Done (set_nextGC vm (size_t (bytesAllocated vm * 2))).

(** [reallocate], with [currentVM] set, as it is from [initVM] on.  The
    block itself comes from [realloc]; what is left of the function is
    its count of the bytes and the collections that it starts. *)
Definition reallocate (vm : VM) (oldSize newSize : Z) : Run VM :=
  let vm := set_bytesAllocated vm (size_t (bytesAllocated vm + (newSize - oldSize))) in
  vm <- (if stress && (oldSize <? newSize) then collectGarbage vm else Done vm) ;;
  if (nextGC vm <? bytesAllocated vm) && (oldSize <? newSize) then collectGarbage vm
  else Done vm.

(** *** object.c *)

(** [allocateObject]: the new object is put in front of the list of
    all objects. *)
Definition allocateObject (vm : VM) (size : Z) (fields : Fields) : Run (VM * Z) :=
  vm <- reallocate vm 0 size ;;
  let object := brk vm in
  let vm := set_brk vm (brk vm + 1) in
  let vm := store vm object (mkObj false (objects vm) fields) in
  Done (set_objects vm object, object).

Definition vmPush (vm : VM) (value : Value) : VM :=
  if 256 * 256 <=? Z.of_nat (length (stack vm)) then vm
  else set_stack vm (stack vm ++ [value]).

Definition vmPop (vm : VM) : VM := set_stack vm (removelast (stack vm)).

(** Modelled from the spec: [tableFindString] of table.c finds the
    interned string that has the given bytes. *)
Fixpoint tableFindString (vm : VM) (table : Table) (chars : list ascii) : Run Z :=
  match table with
  | [] => Done 0
  | e :: table' =>
      o <- deref vm (key e) ;;
      match fields o with
      | ObjString chars' =>
          if bool_decide (chars' = chars) then Done (key e)
          else tableFindString vm table' chars
      | _ => tableFindString vm table' chars
      end
  end.

(** Modelled from the spec: [tableSet] of table.c on a key that the
    table does not hold.  The growth of the array of the entries, an
    allocation of its own, is left out. *)
Definition tableSet (table : Table) (key : Z) (value : Value) : Table :=
  table ++ [mkEntry key value].

(** The new string is on the stack while the table of the interned
    strings takes it. *)
Definition allocateString (vm : VM) (chars : list ascii) : Run (VM * Z) :=
  r <- allocateObject vm (sizeofObj OBJ_STRING + Z.of_nat (length chars) + 1)
         (ObjString chars) ;;
  let '(vm, string) := r in
  let vm := vmPush vm (OBJ_VAL string) in
  let vm := set_strings vm (tableSet (strings vm) string NIL_VAL) in
  Done (vmPop vm, string).

Definition copyString (vm : VM) (chars : list ascii) : Run (VM * Z) :=
  interned <- tableFindString vm (strings vm) chars ;;
  if negb (interned =? 0) then Done (vm, interned)
  else allocateString vm chars.

Definition newFunction (vm : VM) : Run (VM * Z) :=
  allocateObject vm (sizeofObj OBJ_FUNCTION) (ObjFunction 0 [] 0).

(** *** value.c and chunk.c, on the pool of a function *)

(** [writeValueArray (&function->chunk.constants, value)]. *)
Definition writeValueArray (vm : VM) (function : Z) (value : Value) : Run VM :=
  o <- deref vm function ;;
  match fields o with
  | ObjFunction name constants capacity =>
      let grow := capacity <? Z.of_nat (length constants) + 1 in
      let capacity' :=
        if grow then (if capacity <? 8 then 8 else capacity * 2) else capacity in
      vm <- (if grow then reallocate vm (8 * capacity) (8 * capacity') else Done vm) ;;
      o <- deref vm function ;;
      Done (store vm function (set_fields o (ObjFunction name (constants ++ [value]) capacity')))
  | _ => Done vm
  end.

(** The place of a value in a pool.  Strings are interned, so the
    index of the string constants, which maps a string to its place,
    finds the constant that has the same address. *)
Fixpoint indexOf (same : Value -> bool) (constants : list Value) (i : Z) : option Z :=
  match constants with
  | [] => None
  | c :: constants' => if same c then Some i else indexOf same constants' (i + 1)
  end.

Definition sameObject (a b : Value) : bool :=
  match a, b with
  | OBJ_VAL x, OBJ_VAL y => x =? y
  | _, _ => false
  end.

(** [addConstant (&function->chunk, value)] for a string constant; the
    allocations of the index are left out. *)
Definition addConstant (vm : VM) (function : Z) (value : Value) : Run (VM * Z) :=
  o <- deref vm function ;;
  match fields o with
  | ObjFunction _ constants _ =>
      match indexOf (sameObject value) constants 0 with
      | Some i => Done (vm, i)
      | None =>
          vm <- writeValueArray vm function value ;;
          Done (vm, Z.of_nat (length constants))
      end
  | _ => Done (vm, 0)
  end.

(** *** compiler.c, as far as it allocates *)

(** [makeConstant]; beyond [UINT8_MAX] constants the compiler reports
    an error and goes on with constant 0. *)
Definition makeConstant (vm : VM) (function : Z) (value : Value) : Run (VM * Z) :=
  r <- addConstant vm function value ;;
  let '(vm, constant) := r in
  Done (vm, if 255 <? constant then 0 else constant).

(** [initCompiler]: the function under compilation is held by the
    [Compiler], a local variable of [compile]. *)
Definition initCompiler (vm : VM) : Run (VM * Z) := newFunction vm.

(** [compileLiteral] on a string: [copyString], then [emitConstant],
    whose bytes of code are left out. *)
Definition compileLiteral (vm : VM) (function : Z) (chars : list ascii) : Run VM :=
  r <- copyString vm chars ;;
  let '(vm, str) := r in
  r <- makeConstant vm function (OBJ_VAL str) ;;
  let '(vm, _) := r in
  Done vm.

Fixpoint compileLiterals (vm : VM) (function : Z) (literals : list (list ascii)) : Run VM :=
  match literals with
  | [] => Done vm
  | chars :: literals' =>
      vm <- compileLiteral vm function chars ;;
      compileLiterals vm function literals'
  end.

End WithTarget.

(** *** A compilation that meets a collection *)

(** The sizes of the structs on a target with pointers of 64 bits. *)
Definition lp64 (t : ObjType) : Z :=
  match t with
  | OBJ_STRING => 24
  | OBJ_FUNCTION => 88
  | OBJ_CLOSURE => 40
  | OBJ_UPVALUE => 40
  | OBJ_NATIVE => 40
  | OBJ_LIST => 32
  | OBJ_MAP => 32
  end.

(** A machine that has [allocated] bytes in use and the threshold of
    [initVM], one megabyte, and whose one object is the string that the
    global [g] holds. *)
Definition machine (allocated : Z) : VM :=
  mkVM [] [] 0 [mkEntry 1 (OBJ_VAL 1)] [] [mkEntry 1 NIL_VAL] 1 [] allocated (1024 * 1024)
    (aset (fun _ => None) 1 (Some (mkObj false 0 (ObjString (lit "g"))))) 2.

(** The function under compilation and the machine, after the string
    literals of [before] have been compiled. *)
Definition compiling (stress : bool) (allocated : Z) (before : list (list ascii))
    : Run (VM * Z) :=
  r <- initCompiler stress lp64 64 (machine allocated) ;;
  let '(vm, function) := r in
  vm <- compileLiterals stress lp64 64 vm function before ;;
  Done (vm, function).

(** The constants of the function at an address, [None] where no
    function is. *)
Definition poolOf (vm : VM) (function : Z) : option (list Value) :=
  match memory vm function with
  | Some (mkObj _ _ (ObjFunction _ constants _)) => Some constants
  | _ => None
  end.

(** Whether the object at an address is allocated. *)
Definition allocated (vm : VM) (object : Z) : bool :=
  match memory vm object with
  | Some _ => true
  | None => false
  end.

(** What is seen of a compilation: the address of the function, its
    pool before the next literal, and after the literal whether the
    function, its first constant and the global's string are still
    allocated. *)
Definition observe (stress : bool) (allocated0 : Z) (before : list (list ascii))
    (literal : list ascii) : Run (Z * option (list Value) * (bool * bool * bool)) :=
  r <- compiling stress allocated0 before ;;
  let '(vm, function) := r in
  r <- copyString stress lp64 64 vm literal ;;
  let '(vm', _) := r in
  Done (function, poolOf vm function, (allocated vm' function, allocated vm' 3, allocated vm' 1)).

End Memory.

(* ================================================================= *)
(** ** ast.h, compiler.c *)

(** The embedding covers the compiler of a script: the compiler whose
    [enclosing] is NULL and whose [type] is TYPE_SCRIPT, for which
    [resolveUpvalue] returns -1.  Function declarations, lambdas and
    [match] need nested compilers, captured variables or both and are
    left out, with the nodes that only add emission patterns of their
    own (maps, index and property stores, compound assignment, pipes,
    ranges, [parallel], [return]). *)
Module Compiler.
Import Object TableC Opcode.

Inductive TokenType : Type :=
  | TOKEN_PLUS | TOKEN_MINUS | TOKEN_STAR | TOKEN_SLASH | TOKEN_PERCENT
  | TOKEN_BANG | TOKEN_BANG_EQUAL | TOKEN_EQUAL_EQUAL
  | TOKEN_GREATER | TOKEN_GREATER_EQUAL | TOKEN_LESS | TOKEN_LESS_EQUAL
  | TOKEN_PIPE_PIPE | TOKEN_AMP_AMP | TOKEN_AND | TOKEN_OR | TOKEN_NOT
  | TOKEN_EXEC | TOKEN_NET | TOKEN_READ | TOKEN_WRITE | TOKEN_ENV
  | TOKEN_IDENTIFIER.

Inductive LiteralValue : Type :=
  | LIT_NUMBER (number : double)
  | LIT_STRING (chars : list ascii)
  | LIT_BOOL (boolean : bool)
  | LIT_NIL.

(** A name of the tree is the token's [start] and [length]: its bytes. *)
#[local] Set Warnings "-register-all".
Inductive AstNode : Type :=
  | NODE_LITERAL (line : Z) (value : LiteralValue)
  | NODE_UNARY (line : Z) (op : TokenType) (operand : AstNode)
  | NODE_BINARY (line : Z) (op : TokenType) (left_ right_ : AstNode)
  | NODE_VARIABLE (line : Z) (name : list ascii)
  | NODE_ASSIGN (line : Z) (name : list ascii) (value : AstNode)
  | NODE_CALL (line : Z) (callee : AstNode) (args : list AstNode)
  | NODE_INDEX (line : Z) (object index : AstNode)
  | NODE_DOT (line : Z) (object : AstNode) (name : list ascii)
  | NODE_LIST (line : Z) (elements : list AstNode)
  | NODE_EXPRESSION_STMT (line : Z) (expression : AstNode)
  | NODE_BLOCK (line : Z) (statements : list AstNode)
  | NODE_IF (line : Z) (condition thenBranch : AstNode) (elseBranch : option AstNode)
  | NODE_WHILE (line : Z) (condition body : AstNode)
  | NODE_FOR (line : Z) (varName : list ascii) (iterable body : AstNode)
  | NODE_BREAK (line : Z)
  | NODE_CONTINUE (line : Z)
  | NODE_VAR_DECL (line : Z) (name : list ascii) (initializer : AstNode)
  | NODE_ALLOW (line : Z) (permType : TokenType) (target : list ascii)
  | NODE_ON_FAILURE (line : Z) (body : AstNode)
  | NODE_EXEC (line : Z) (command : AstNode)
  | NODE_IMPORT (line : Z) (path : list ascii) (alias : option (list ascii))
  | NODE_PROGRAM (line : Z) (statements : list AstNode).

Record Local : Type := mkLocal {
  name : list ascii;
  depth : Z;
  isCaptured : bool
}.

(** [chunk] is the chunk of [compiler->function]; [locals] are the
    first [localCount] cells of the array of locals; [breakJumps] is the
    whole array, [breakCount] the number of its cells in use;
    [messages] is what the compiler prints. *)
Record Compiler : Type := mkCompiler {
  chunk : Chunk Value;
  locals : list Local;
  scopeDepth : Z;
  loopStart : Z;
  loopDepth : Z;
  breakJumps : array Z;
  breakCount : Z;
  hadError : bool;
  messages : list cstring
}.

Definition localCount (c : Compiler) : Z := Z.of_nat (length (locals c)).

Definition set_chunk (c : Compiler) (x : Chunk Value) : Compiler :=
  mkCompiler x (locals c) (scopeDepth c) (loopStart c) (loopDepth c)
    (breakJumps c) (breakCount c) (hadError c) (messages c).
Definition set_locals (c : Compiler) (x : list Local) : Compiler :=
  mkCompiler (chunk c) x (scopeDepth c) (loopStart c) (loopDepth c)
    (breakJumps c) (breakCount c) (hadError c) (messages c).
Definition set_scopeDepth (c : Compiler) (x : Z) : Compiler :=
  mkCompiler (chunk c) (locals c) x (loopStart c) (loopDepth c)
    (breakJumps c) (breakCount c) (hadError c) (messages c).
Definition set_loop (c : Compiler) (start depth_ : Z) (jumps : array Z) (n : Z) : Compiler :=
  mkCompiler (chunk c) (locals c) (scopeDepth c) start depth_ jumps n
    (hadError c) (messages c).
Definition report (c : Compiler) (fatal : bool) (message : cstring) : Compiler :=
  mkCompiler (chunk c) (locals c) (scopeDepth c) (loopStart c) (loopDepth c)
    (breakJumps c) (breakCount c) (hadError c || fatal) (messages c ++ [message]).

Definition initCompiler : Compiler :=
  mkCompiler (mkChunk [] [] [] initTable)
    [mkLocal [] 0 false]          (* slot 0 is reserved for the function itself *)
    0 (-1) 0 (fun _ => 0) 0 false [].

(** *** Chunk helpers *)

(** [currentChunk(compiler)->count] *)
Definition codeCount (c : Compiler) : Z := Z.of_nat (length (code (chunk c))).

Definition writeChunk (ch : Chunk Value) (byte line : Z) : Chunk Value :=
  mkChunk (code ch ++ [byte]) (lines ch ++ [line]) (constants ch) (constantIndex ch).

Definition emitByte (c : Compiler) (byte line : Z) : Compiler :=
  set_chunk c (writeChunk (chunk c) byte line).

Definition emitOp (c : Compiler) (op : OpCode) (line : Z) : Compiler :=
  emitByte c (byteOf op) line.

Definition emitBytes (c : Compiler) (byte1 byte2 line : Z) : Compiler :=
  emitByte (emitByte c byte1 line) byte2 line.

Definition emitJump (c : Compiler) (instruction : OpCode) (line : Z) : Compiler * Z :=
  let c := emitByte (emitByte (emitOp c instruction line) 0xff line) 0xff line in
  (c, codeCount c - 2).

(** [code[i] = byte] *)
Definition patchByte (ch : Chunk Value) (i byte : Z) : Chunk Value :=
  mkChunk (<[Z.to_nat i := byte]> (code ch)) (lines ch) (constants ch) (constantIndex ch).

Definition patchJump (c : Compiler) (offset : Z) : Compiler :=
  let jump := codeCount c - offset - 2 in
  if 65535 <? jump then report c false (lit "Too much code to jump over.")
  else
    set_chunk c
      (patchByte (patchByte (chunk c) offset (Z.land (Z.shiftr jump 8) 0xff))
         (offset + 1) (Z.land jump 0xff)).

Definition emitLoop (c : Compiler) (loopStart line : Z) : Compiler :=
  let c := emitOp c OP_LOOP line in
  let offset := codeCount c - loopStart + 2 in
  let c := if 65535 <? offset then report c false (lit "Loop body too large.") else c in
  emitByte (emitByte c (Z.land (Z.shiftr offset 8) 0xff) line) (Z.land offset 0xff) line.

(** chunk.c, [addConstant]: a string is looked up in the index of the
    chunk, any other value is searched for in the pool. *)
Fixpoint findConstant (pool : list Value) (v : Value) (i : Z) : option Z :=
  match pool with
  | [] => None
  | x :: pool' =>
      match valuesEqual x v with
      | Some true => Some i
      | _ => findConstant pool' v (i + 1)
      end
  end.

Definition addConstant (ch : Chunk Value) (v : Value) : Chunk Value * Z :=
  let append (index : Table) :=
    mkChunk (code ch) (lines ch) (constants ch ++ [v]) index in
  let fresh := Z.of_nat (length (constants ch)) in
  match v with
  | OBJ_VAL (OBJ_STRING s) =>
      match tableGet (constantIndex ch) s with
      | Some (NUMBER_VAL existing) => (ch, default 0 (double_to_int existing))
      | Some _ => (ch, 0)
      | None =>
          (append (tableSet (constantIndex ch) s (NUMBER_VAL (double_of_int fresh))), fresh)
      end
  | _ =>
      match findConstant (constants ch) v 0 with
      | Some i => (ch, i)
      | None => (append (constantIndex ch), fresh)
      end
  end.

Definition makeConstant (c : Compiler) (v : Value) : Compiler * Z :=
  let '(ch, constant) := addConstant (chunk c) v in
  let c := set_chunk c ch in
  if 255 <? constant then (report c true (lit "Too many constants in one chunk."), 0)
  else (c, constant).

Definition emitConstant (c : Compiler) (v : Value) (line : Z) : Compiler :=
  let '(c, constant) := makeConstant c v in
  emitBytes c (byteOf OP_CONSTANT) constant line.

Definition emitReturn (c : Compiler) (line : Z) : Compiler :=
  emitOp (emitOp c OP_NIL line) OP_RETURN line.

(** *** Scope management *)

Definition beginScope (c : Compiler) : Compiler := set_scopeDepth c (scopeDepth c + 1).

(** The loop of [endScope]: drop the locals of the scope that closed,
    last first, with one instruction for each. *)
Fixpoint popLocals (c : Compiler) (rlocals : list Local) (line : Z) : Compiler :=
  match rlocals with
  | [] => set_locals c []
  | l :: rest =>
      if scopeDepth c <? depth l then
        popLocals (emitOp c (if isCaptured l then OP_CLOSE_UPVALUE else OP_POP) line) rest line
      else set_locals c (rev rlocals)
  end.

Definition endScope (c : Compiler) (line : Z) : Compiler :=
  let c := set_scopeDepth c (scopeDepth c - 1) in
  popLocals c (rev (locals c)) line.

(** *** Variable resolution *)

Definition addLocal (c : Compiler) (name : list ascii) : Compiler :=
  if localCount c =? 256 then report c false (lit "Too many local variables in function.")
  else set_locals c (locals c ++ [mkLocal name (scopeDepth c) false]).

(** The innermost local of that name, or -1. *)
Fixpoint resolveIn (rlocals : list Local) (name : list ascii) : Z :=
  match rlocals with
  | [] => -1
  | l :: rest =>
      if bool_decide (Compiler.name l = name) then Z.of_nat (length rest)
      else resolveIn rest name
  end.

Definition resolveLocal (c : Compiler) (name : list ascii) : Z :=
  resolveIn (rev (locals c)) name.

Definition identifierConstant (c : Compiler) (name : list ascii) : Compiler * Z :=
  makeConstant c (OBJ_VAL (OBJ_STRING name)).

(** *** Compile AST nodes *)

Definition compileLiteral (c : Compiler) (line : Z) (lit_ : LiteralValue) : Compiler :=
  match lit_ with
  | LIT_NUMBER number => emitConstant c (NUMBER_VAL number) line
  | LIT_STRING chars => emitConstant c (OBJ_VAL (OBJ_STRING chars)) line
  | LIT_BOOL boolean => emitOp c (if boolean then OP_TRUE else OP_FALSE) line
  | LIT_NIL => emitOp c OP_NIL line
  end.

(** The access to a variable by name: a local, else a global. *)
Definition emitVariable (c : Compiler) (line : Z) (name : list ascii) (forGet : bool)
    : Compiler :=
  let local := resolveLocal c name in
  if negb (local =? -1) then
    emitBytes c (byteOf (if forGet then OP_GET_LOCAL else OP_SET_LOCAL)) (local mod 256) line
  else
    let '(c, arg) := identifierConstant c name in
    emitBytes c (byteOf (if forGet then OP_GET_GLOBAL else OP_SET_GLOBAL)) arg line.

Definition binaryOpcode (op : TokenType) : option OpCode :=
  match op with
  | TOKEN_PLUS => Some OP_ADD
  | TOKEN_MINUS => Some OP_SUBTRACT
  | TOKEN_STAR => Some OP_MULTIPLY
  | TOKEN_SLASH => Some OP_DIVIDE
  | TOKEN_PERCENT => Some OP_MODULO
  | TOKEN_EQUAL_EQUAL => Some OP_EQUAL
  | TOKEN_BANG_EQUAL => Some OP_NOT_EQUAL
  | TOKEN_GREATER => Some OP_GREATER
  | TOKEN_GREATER_EQUAL => Some OP_GREATER_EQUAL
  | TOKEN_LESS => Some OP_LESS
  | TOKEN_LESS_EQUAL => Some OP_LESS_EQUAL
  | _ => None
  end.

(** A run of nodes compiled one after the other with [compileNode]. *)
Definition compileNodes (compileNode : AstNode -> Compiler -> Compiler)
    (nodes : list AstNode) (c : Compiler) : Compiler :=
  fold_left (fun c node => compileNode node c) nodes c.

(** The patches of the pending breaks of a loop. *)
Definition patchBreaks (c : Compiler) : Compiler :=
  fold_left (fun c i => patchJump c (breakJumps c (Z.of_nat i)))
    (seq 0 (Z.to_nat (breakCount c))) c.

(** Compile a statement list.  When we hit [on failure], all remaining
    statements become the protected body, and the handler block gets
    the [error] local. *)
Fixpoint compileStatements (compileNode : AstNode -> Compiler -> Compiler)
    (stmts : list AstNode) (c : Compiler) : Compiler :=
  match stmts with
  | [] => c
  | NODE_ON_FAILURE line body :: rest =>
      let '(c, handlerJump) := emitJump c OP_PUSH_HANDLER line in
      let c := compileNodes compileNode rest c in
      let c := emitOp c OP_POP_HANDLER line in
      let '(c, endJump) := emitJump c OP_JUMP line in
      (* Handler entry: the error map is on the stack, bind it as 'error' *)
      let c := patchJump c handlerJump in
      let c := beginScope c in
      let c := addLocal c (lit "error") in
      let c :=
        match body with
        | NODE_BLOCK _ statements => compileNodes compileNode statements c
        | _ => compileNode body c
        end in
      let c := endScope c line in
      patchJump c endJump
  | stmt :: rest => compileStatements compileNode rest (compileNode stmt c)
  end.

Definition permTypeByte (permType : TokenType) : Z :=
  match permType with
  | TOKEN_EXEC => 0
  | TOKEN_NET => 1
  | TOKEN_READ => 2
  | TOKEN_WRITE => 3
  | TOKEN_ENV => 4
  | _ => 0
  end.

(** The default name of a module: the last segment of the path
    without the extension [.glipt]. *)
Definition moduleBaseName (path : list ascii) : list ascii :=
  let base :=
    match VM.lastSlash path 0 None with
    | Some j => drop (S j) path
    | None => path
    end in
  if (6 <? length base)%nat && bool_decide (drop (length base - 6) base = lit ".glipt")
  then take (length base - 6) base else base.

Fixpoint compileNode (node : AstNode) (c : Compiler) {struct node} : Compiler :=
  match node with
  | NODE_LITERAL line v => compileLiteral c line v
  | NODE_VARIABLE line name => emitVariable c line name true
  | NODE_UNARY line op operand =>
      let c := compileNode operand c in
      match op with
      | TOKEN_MINUS => emitOp c OP_NEGATE line
      | TOKEN_BANG | TOKEN_NOT => emitOp c OP_NOT line
      | _ => c
      end
  | NODE_BINARY line op left_ right_ =>
      match op with
      | TOKEN_AND | TOKEN_AMP_AMP =>
          let c := compileNode left_ c in
          let '(c, endJump) := emitJump c OP_JUMP_IF_FALSE line in
          let c := emitOp c OP_POP line in
          let c := compileNode right_ c in
          patchJump c endJump
      | TOKEN_OR | TOKEN_PIPE_PIPE =>
          let c := compileNode left_ c in
          let '(c, elseJump) := emitJump c OP_JUMP_IF_FALSE line in
          let '(c, endJump) := emitJump c OP_JUMP line in
          let c := patchJump c elseJump in
          let c := emitOp c OP_POP line in
          let c := compileNode right_ c in
          patchJump c endJump
      | _ =>
          let c := compileNode left_ c in
          let c := compileNode right_ c in
          match binaryOpcode op with
          | Some opcode => emitOp c opcode line
          | None => c
          end
      end
  | NODE_ASSIGN line name v =>
      let c := compileNode v c in
      emitVariable c line name false
  | NODE_CALL line callee args =>
      let c := compileNode callee c in
      let argCount := Z.of_nat (length args) in
      let c :=
        if 255 <? argCount
        then report c true (lit "Error: Can't have more than 255 arguments.") else c in
      let c := compileNodes compileNode args c in
      emitBytes c (byteOf OP_CALL) (if 255 <? argCount then 255 else argCount) line
  | NODE_INDEX line object index =>
      let c := compileNode object c in
      let c := compileNode index c in
      emitOp c OP_INDEX_GET line
  | NODE_DOT line object name =>
      let c := compileNode object c in
      let '(c, k) := identifierConstant c name in
      emitBytes c (byteOf OP_GET_PROPERTY) k line
  | NODE_LIST line elements =>
      let n := Z.of_nat (length elements) in
      let c :=
        if 255 <? n
        then report c true (lit "Error: Can't have more than 255 list elements.") else c in
      let c := compileNodes compileNode elements c in
      emitBytes c (byteOf OP_BUILD_LIST) (if 255 <? n then 255 else n) line
  | NODE_EXPRESSION_STMT line expression =>
      emitOp (compileNode expression c) OP_POP line
  | NODE_BLOCK line statements =>
      endScope (compileStatements compileNode statements (beginScope c)) line
  | NODE_VAR_DECL line name initializer =>
      let c := compileNode initializer c in
      if 0 <? scopeDepth c then
        (* Lua-style: assign to existing binding first *)
        let local := resolveLocal c name in
        if negb (local =? -1) then
          emitOp (emitBytes c (byteOf OP_SET_LOCAL) (local mod 256) line) OP_POP line
        else
          (* Inside a top-level block: set global *)
          let '(c, global) := identifierConstant c name in
          emitOp (emitBytes c (byteOf OP_SET_GLOBAL) global line) OP_POP line
      else
        let '(c, global) := identifierConstant c name in
        emitBytes c (byteOf OP_DEFINE_GLOBAL) global line
  | NODE_IF line condition thenBranch elseBranch =>
      let c := compileNode condition c in
      let '(c, thenJump) := emitJump c OP_JUMP_IF_FALSE line in
      let c := emitOp c OP_POP line in       (* pop condition *)
      let c := compileNode thenBranch c in
      let '(c, elseJump) := emitJump c OP_JUMP line in
      let c := patchJump c thenJump in
      let c := emitOp c OP_POP line in
      let c :=
        match elseBranch with
        | Some e => compileNode e c
        | None => c
        end in
      patchJump c elseJump
  | NODE_WHILE line condition body =>
      (* Save outer loop state so nested loops restore correctly *)
      let prevLoopStart := loopStart c in
      let prevLoopDepth := loopDepth c in
      let prevBreakCount := breakCount c in
      let start := codeCount c in
      let c := set_loop c start (scopeDepth c) (breakJumps c) 0 in
      let c := compileNode condition c in
      let '(c, exitJump) := emitJump c OP_JUMP_IF_FALSE line in
      let c := emitOp c OP_POP line in
      let c := compileNode body c in
      let c := emitLoop c start line in
      let c := patchJump c exitJump in
      let c := emitOp c OP_POP line in
      let c := patchBreaks c in
      set_loop c prevLoopStart prevLoopDepth (breakJumps c) prevBreakCount
  | NODE_FOR line varName iterable body =>
      let prevLoopStart := loopStart c in
      let prevLoopDepth := loopDepth c in
      let prevBreakCount := breakCount c in
      let c := beginScope c in
      (* Three hidden locals: iterable, index counter, loop variable *)
      let c := compileNode iterable c in
      let c := addLocal c (lit " iterable") in
      let iterSlot := localCount c - 1 in
      let c := emitConstant c (NUMBER_VAL (double_of_int 0)) line in
      let c := addLocal c (lit " index") in
      let idxSlot := localCount c - 1 in
      let c := emitOp c OP_NIL line in
      let c := addLocal c varName in
      let varSlot := localCount c - 1 in
      let start := codeCount c in
      let c := set_loop c start (scopeDepth c) (breakJumps c) 0 in
      (* Condition: index < iterable.length *)
      let c := emitBytes c (byteOf OP_GET_LOCAL) (idxSlot mod 256) line in
      let c := emitBytes c (byteOf OP_GET_LOCAL) (iterSlot mod 256) line in
      let '(c, lengthConst) := identifierConstant c (lit "length") in
      let c := emitBytes c (byteOf OP_GET_PROPERTY) lengthConst line in
      let c := emitOp c OP_LESS line in
      let '(c, exitJump) := emitJump c OP_JUMP_IF_FALSE line in
      let c := emitOp c OP_POP line in
      (* Set loop var = iterable[index] *)
      let c := emitBytes c (byteOf OP_GET_LOCAL) (iterSlot mod 256) line in
      let c := emitBytes c (byteOf OP_GET_LOCAL) (idxSlot mod 256) line in
      let c := emitOp c OP_INDEX_GET line in
      let c := emitBytes c (byteOf OP_SET_LOCAL) (varSlot mod 256) line in
      let c := emitOp c OP_POP line in
      let c :=
        match body with
        | NODE_BLOCK _ statements =>
            endScope (compileNodes compileNode statements (beginScope c)) line
        | _ => compileNode body c
        end in
      (* index++ *)
      let c := emitBytes c (byteOf OP_GET_LOCAL) (idxSlot mod 256) line in
      let c := emitConstant c (NUMBER_VAL (double_of_int 1)) line in
      let c := emitOp c OP_ADD line in
      let c := emitBytes c (byteOf OP_SET_LOCAL) (idxSlot mod 256) line in
      let c := emitOp c OP_POP line in
      let c := emitLoop c start line in
      let c := patchJump c exitJump in
      let c := emitOp c OP_POP line in
      let c := patchBreaks c in
      let c := endScope c line in
      set_loop c prevLoopStart prevLoopDepth (breakJumps c) prevBreakCount
  | NODE_BREAK line =>
      if loopStart c =? -1 then report c true (lit "Error: Can't use 'break' outside a loop.")
      else if 256 <=? breakCount c
      then report c true (lit "Error: Too many break statements in loop.")
      else
        let '(c, jump) := emitJump c OP_JUMP line in
        set_loop c (loopStart c) (loopDepth c)
          (aset (breakJumps c) (breakCount c) jump) (breakCount c + 1)
  | NODE_CONTINUE line =>
      if loopStart c =? -1
      then report c true (lit "Error: Can't use 'continue' outside a loop.")
      else emitLoop c (loopStart c) line
  | NODE_ALLOW line permType target =>
      let '(c, k) := makeConstant c (OBJ_VAL (OBJ_STRING target)) in
      emitByte (emitByte (emitOp c OP_ALLOW line) (permTypeByte permType) line) k line
  | NODE_ON_FAILURE _ _ =>
      (* Handled by compileStatements() at the block level *)
      c
  | NODE_EXEC line command =>
      let '(c, execGlobal) := identifierConstant c (lit "exec") in
      let c := emitBytes c (byteOf OP_GET_GLOBAL) execGlobal line in
      let c := compileNode command c in
      emitBytes c (byteOf OP_CALL) 1 line
  | NODE_IMPORT line path alias =>
      let '(c, pathConst) := makeConstant c (OBJ_VAL (OBJ_STRING path)) in
      let modName :=
        match alias with
        | Some a => a
        | None => moduleBaseName path
        end in
      let '(c, nameConst) := makeConstant c (OBJ_VAL (OBJ_STRING modName)) in
      emitByte (emitByte (emitOp c OP_IMPORT line) pathConst line) nameConst line
  | NODE_PROGRAM _ statements => compileStatements compileNode statements c
  end.

(** [compile], after the parser: the script function of a program, or
    NULL when the compiler reported an error. *)
Definition compileProgram (program : AstNode) : option ObjFunction :=
  let c := emitReturn (compileNode program initCompiler) 0 in
  if hadError c then None else Some (mkFunction 0 0 (chunk c) None).

(** *** Relations between two states of a compilation *)

(** [c'] has no less code than [c]. *)
Definition grows (c c' : Compiler) : Prop := codeCount c <= codeCount c'.

(** [c'] has no less code than [c], and the same enclosing loop. *)
Definition keeps (c c' : Compiler) : Prop :=
  loopStart c' = loopStart c /\ codeCount c <= codeCount c'.

(** The number of nodes of a tree. *)
Fixpoint nodeSize (node : AstNode) : nat :=
  S (match node with
     | NODE_LITERAL _ _ | NODE_VARIABLE _ _ | NODE_BREAK _ | NODE_CONTINUE _
     | NODE_ALLOW _ _ _ | NODE_IMPORT _ _ _ => 0
     | NODE_UNARY _ _ a | NODE_ASSIGN _ _ a | NODE_DOT _ a _ | NODE_EXPRESSION_STMT _ a
     | NODE_VAR_DECL _ _ a | NODE_ON_FAILURE _ a | NODE_EXEC _ a => nodeSize a
     | NODE_BINARY _ _ a b | NODE_INDEX _ a b | NODE_WHILE _ a b | NODE_FOR _ _ a b =>
         nodeSize a + nodeSize b
     | NODE_CALL _ a l => nodeSize a + list_sum (map nodeSize l)
     | NODE_LIST _ l | NODE_BLOCK _ l | NODE_PROGRAM _ l => list_sum (map nodeSize l)
     | NODE_IF _ a b e =>
         nodeSize a + nodeSize b + match e with Some e' => nodeSize e' | None => 0 end
     end)%nat.

End Compiler.

(* ================================================================= *)
(** ** vm.c: the natives on strings and lists *)

(** The natives that only read their arguments, on the values of
    [Object]: [args] are the [argCount] arguments.  The
    strings that the natives make go through [copyString]; here a
    string is its bytes.  [ObjString.chars] carries a NUL behind the
    [length] bytes, and the C library reads it as the string up to the
    first NUL. *)
Module Natives.
Import Object TableC.

(** [memcmp (text, prefix, length prefix) == 0], with [text] long
    enough. *)
Fixpoint startsWith (text prefix : list ascii) : bool :=
  match prefix, text with
  | [], _ => true
  | p :: prefix', t :: text' => Ascii.eqb p t && startsWith text' prefix'
  | _ :: _, [] => false
  end.

(** [strstr]: the offset of the first place where [needle] stands in
    [haystack], both C strings. *)
Fixpoint strstr (haystack needle : cstring) : option nat :=
  if startsWith haystack needle then Some O
  else
    match haystack with
    | [] => None
    | _ :: haystack' =>
        match strstr haystack' needle with
        | Some k => Some (S k)
        | None => None
        end
    end.

(** The loop of [splitNative] with a delimiter that is not empty:
    [start] is an offset into [chars], and [strstr] reads from it up to
    the first NUL.  [fuel] bounds the rounds.  An offset behind the end
    of [chars], which takes a NUL inside of a string, is outside of what
    C defines; here nothing is read there. *)
Fixpoint splitLoop (fuel : nat) (chars delim : list ascii) (start : nat)
    (items : list Value) : option (list Value) :=
  match fuel with
  | O => None
  | S fuel' =>
      match strstr (untilNul (drop start chars)) (untilNul delim) with
      | Some pos =>
          splitLoop fuel' chars delim (start + pos + length delim)
            (items ++ [OBJ_VAL (OBJ_STRING (take pos (drop start chars)))])
      | None => Some (items ++ [OBJ_VAL (OBJ_STRING (drop start chars))])
      end
  end.

(** [splitNative]; [None] is the bound of the loop reached.  The
    slot of the stack that holds the new list while it is filled is
    left out. *)
Definition splitNative (args : list Value) : option Value :=
  match args with
  | [OBJ_VAL (OBJ_STRING str); OBJ_VAL (OBJ_STRING delim)] =>
      match delim with
      | [] => Some (OBJ_VAL (OBJ_LIST (map (fun c => OBJ_VAL (OBJ_STRING [c])) str)))
      | _ :: _ =>
          match splitLoop (S (length str)) str delim 0 [] with
          | Some items => Some (OBJ_VAL (OBJ_LIST items))
          | None => None
          end
      end
  | _ => Some NIL_VAL
  end.

Section WithHost.
Variable host : Host.

(** The text of an item of a list that is no string, in [joinNative]:
    a number with [%d] or [%g], a boolean, and [nil] for everything
    else.  Where the cast to [int] is undefined the comparison is taken
    to fail. *)
Definition itemText (item : Value) : list ascii :=
  match item with
  | OBJ_VAL (OBJ_STRING s) => s
  | NUMBER_VAL num =>
      match double_to_int num with
      | Some i => if SFeqb num (double_of_int i) then snprintf_d i else snprintf_g host num
      | None => snprintf_g host num
      end
  | BOOL_VAL b => if b then lit "true" else lit "false"
  | _ => lit "nil"
  end.

(** The second loop of [joinNative]: the separator before every item
    but the first. *)
Fixpoint joinLoop (items : list Value) (sep : list ascii) (first : bool) : list ascii :=
  match items with
  | [] => []
  | item :: items' =>
      (if first then [] else sep) ++ itemText item ++ joinLoop items' sep false
  end.

Definition joinNative (args : list Value) : Value :=
  match args with
  | OBJ_VAL (OBJ_LIST items) :: rest =>
      let sep :=
        match rest with
        | OBJ_VAL (OBJ_STRING s) :: _ => s
        | _ => []
        end in
      OBJ_VAL (OBJ_STRING (joinLoop items sep true))
  | _ => OBJ_VAL (OBJ_STRING [])
  end.

End WithHost.

(** The second loop of [replaceNative]: the text from [src] on with
    every [old] replaced. *)
Fixpoint replaceLoop (fuel : nat) (chars old newStr : list ascii) (src : nat)
    : option (list ascii) :=
  match fuel with
  | O => None
  | S fuel' =>
      match strstr (untilNul (drop src chars)) (untilNul old) with
      | Some pos =>
          match replaceLoop fuel' chars old newStr (src + pos + length old) with
          | Some out => Some (take pos (drop src chars) ++ newStr ++ out)
          | None => None
          end
      | None => Some (drop src chars)
      end
  end.

(** The first loop of [replaceNative]: the number of places where
    [old] stands, [pos] an offset into [chars]. *)
Fixpoint countLoop (fuel : nat) (chars old : list ascii) (pos : nat) : option nat :=
  match fuel with
  | O => None
  | S fuel' =>
      match strstr (untilNul (drop pos chars)) (untilNul old) with
      | Some found =>
          match countLoop fuel' chars old (pos + found + length old) with
          | Some count => Some (S count)
          | None => None
          end
      | None => Some O
      end
  end.

(** [replaceNative]: the buffer holds [newLen] bytes and the NUL, and
    the string made of it is its first [newLen] bytes.  [None] is the
    bound of a loop reached, or a [newLen] that does not fit [int].
    [malloc] is taken to succeed. *)
Definition replaceNative (args : list Value) : option Value :=
  match args with
  | [OBJ_VAL (OBJ_STRING str); OBJ_VAL (OBJ_STRING old); OBJ_VAL (OBJ_STRING newStr)] =>
      match old with
      | [] => Some (OBJ_VAL (OBJ_STRING str))
      | _ :: _ =>
          match countLoop (S (length str)) str old 0 with
          | None => None
          | Some O => Some (OBJ_VAL (OBJ_STRING str))
          | Some count =>
              let newLen :=
                Z.of_nat (length str)
                + Z.of_nat count * (Z.of_nat (length newStr) - Z.of_nat (length old)) in
              if INT_MAX <? newLen then None
              else
                match replaceLoop (S (length str)) str old newStr 0 with
                | Some out =>
                    Some (OBJ_VAL (OBJ_STRING (take (Z.to_nat newLen) (out ++ [zero]))))
                | None => None
                end
          end
      end
  | _ => Some NIL_VAL
  end.

(** The bytes that [trimNative] drops. *)
Definition blank (c : ascii) : bool :=
  Ascii.eqb c " " || Ascii.eqb c "009" || Ascii.eqb c "010" || Ascii.eqb c "013".

(** The number of blank bytes at the start of a text. *)
Fixpoint leading (l : list ascii) : nat :=
  match l with
  | c :: l' => if blank c then S (leading l') else O
  | [] => O
  end.

(** [trimNative]: [start] goes up over the blanks at the front, then
    [end] comes down over those at the back, never below [start]. *)
Definition trimNative (args : list Value) : Value :=
  match args with
  | [OBJ_VAL (OBJ_STRING str)] =>
      let start := leading str in
      let rest := drop start str in
      let end_ := (length rest - leading (rev rest))%nat in
      OBJ_VAL (OBJ_STRING (take end_ rest))
  | _ => NIL_VAL
  end.

Definition startsWithNative (args : list Value) : Value :=
  match args with
  | [OBJ_VAL (OBJ_STRING str); OBJ_VAL (OBJ_STRING prefix)] =>
      if (length str <? length prefix)%nat then BOOL_VAL false
      else BOOL_VAL (startsWith str prefix)
  | _ => BOOL_VAL false
  end.

Definition endsWithNative (args : list Value) : Value :=
  match args with
  | [OBJ_VAL (OBJ_STRING str); OBJ_VAL (OBJ_STRING suffix)] =>
      if (length str <? length suffix)%nat then BOOL_VAL false
      else BOOL_VAL (startsWith (drop (length str - length suffix) str) suffix)
  | _ => BOOL_VAL false
  end.

(** One round of the inner loop of [sortNative] at the index [j]: two
    neighbours change places when both are numbers and the first is
    the greater. *)
Definition swapAt (items : list Value) (j : nat) : list Value :=
  match items !! j, items !! S j with
  | Some (NUMBER_VAL a), Some (NUMBER_VAL b) =>
      if SFltb b a then <[j := NUMBER_VAL b]> (<[S j := NUMBER_VAL a]> items) else items
  | _, _ => items
  end.

(** The inner loop, [j] from 0 below [n]. *)
Definition sortPass (items : list Value) (n : nat) : list Value :=
  fold_left swapAt (seq 0 n) items.

(** [sortNative]: the bubble sort of the list of the first argument,
    [i] from 0 below [count - 1], the inner loop below
    [count - i - 1].  The list is sorted in place and is the result;
    here the result is the list with the items of afterwards. *)
Definition sortNative (args : list Value) : Value :=
  match args with
  | [OBJ_VAL (OBJ_LIST items)] =>
      let count := length items in
      OBJ_VAL (OBJ_LIST
        (fold_left (fun items i => sortPass items (count - i - 1))
           (seq 0 (count - 1)) items))
  | _ => NIL_VAL
  end.

(** A text holds no NUL byte. *)
Definition noNul (s : list ascii) : Prop := zero ∉ s.

End Natives.

(* ================================================================= *)
(** ** vm.c: the public API *)

Module Interpret.
Import Object TableC Opcode VM Compiler.

Definition defineNative (vm : VM) (name : cstring) (function : NativeFn) (arity : Z) : VM :=
  (* Push both objects to protect from GC during tableSet *)
  let vm := pushRaw vm (OBJ_VAL (OBJ_STRING name)) in
  let vm := pushRaw vm (OBJ_VAL (OBJ_NATIVE function name arity)) in
  let vm :=
    match stack vm 0 with
    | OBJ_VAL (OBJ_STRING k) => set_globals vm (tableSet (globals vm) k (stack vm 1))
    | _ => vm
    end in
  set_stackTop vm (stackTop vm - 2).

(** [initVM], with the built-in functions that the embedding covers. *)
Definition initVM : VM :=
  let vm := VM.initVM in
  let vm := defineNative vm (lit "len") Object.lenNative 1 in
  let vm := defineNative vm (lit "exec") Object.execNative (-1) in
  let vm := defineNative vm (lit "parse_json") Object.parseJsonNative 1 in
  defineNative vm (lit "to_json") Object.toJsonNative 1.

(** The machine on entry to the run of a script: the closure of the
    script function is in slot 0 of the first frame. *)
Definition load (vm : VM) (function : ObjFunction) : VM :=
  let vm := fst (pop (push vm (OBJ_VAL (OBJ_FUNCTION function)))) in
  let vm := push vm (OBJ_VAL (OBJ_CLOSURE function)) in
  fst (callClosure vm function 0).

(** [interpret], after the parser.  [fuel] bounds the number of
    instructions of the run; [None] is the bound reached. *)
Definition interpret (host : Host) (fuel : nat) (vm : VM) (program : AstNode)
    : option (InterpretResult * VM) :=
  match compileProgram program with
  | None => Some (INTERPRET_COMPILE_ERROR, vm)
  | Some function => run host fuel (load vm function)
  end.

End Interpret.

(* ================================================================= *)
(** ** Programs and machine states used as examples *)

Module Examples.
Import Object TableC Opcode VM Compiler Interpret.

(** A host without files, whose processes print nothing and succeed. *)
Definition quietHost : Host :=
  mkHost (fun _ => S754_nan) (fun _ => lit "nan")
    (fun _ => mkProcessResult 0 [] []) (fun _ _ => S754_nan)
    (fun _ => None) (fun _ => None).

Definition number (line n : Z) : AstNode := NODE_LITERAL line (LIT_NUMBER (double_of_int n)).
Definition text (line : Z) (s : string) : AstNode := NODE_LITERAL line (LIT_STRING (lit s)).



(** [[
      on failure { 1 }
      if true {
        on failure { exec "b" }
        exec "a"
      }
    ]]
    Nothing allows [exec], so both commands raise. *)
Definition nestedHandlers : AstNode :=
  NODE_PROGRAM 0
    [ NODE_ON_FAILURE 1 (NODE_BLOCK 1 [NODE_EXPRESSION_STMT 1 (number 1 1)]);
      NODE_IF 2 (NODE_LITERAL 2 (LIT_BOOL true))
        (NODE_BLOCK 2
           [ NODE_ON_FAILURE 3
               (NODE_BLOCK 3 [NODE_EXPRESSION_STMT 4 (NODE_EXEC 4 (text 4 "b"))]);
             NODE_EXPRESSION_STMT 5 (NODE_EXEC 5 (text 5 "a")) ])
        None ].

(** The registers on entry to the run of a program. *)
Definition start (program : AstNode) : option Regs :=
  match compileProgram program with
  | Some function => Some (enter (load Interpret.initVM function))
  | None => None
  end.

(** The module [lib.glipt]:
    [[
      greet = 1
      greet
    ]]
    and the script that imports it and then reads [greet]:
    [[
      import "lib"
      greet
    ]] *)
Definition libModule : AstNode :=
  NODE_PROGRAM 0
    [ NODE_VAR_DECL 1 (lit "greet") (number 1 1);
      NODE_EXPRESSION_STMT 2 (NODE_VARIABLE 2 (lit "greet")) ].

Definition importThenRead : AstNode :=
  NODE_PROGRAM 0
    [ NODE_IMPORT 1 (lit "lib") None;
      NODE_EXPRESSION_STMT 2 (NODE_VARIABLE 2 (lit "greet")) ].

Definition libSource : list ascii := lit "greet = 1 greet".

(** The host whose only file is [lib.glipt]. *)
Definition libHost : Host :=
  mkHost (fun _ => S754_nan) (fun _ => lit "nan")
    (fun _ => mkProcessResult 0 [] []) (fun _ _ => S754_nan)
    (fun path => if bool_decide (path = lit "lib.glipt") then Some libSource else None)
    (fun source => if bool_decide (source = libSource) then compileProgram libModule else None).

(** The registers of the run of [program] after [n] instructions. *)
Definition after (host : Host) (program : AstNode) (n : nat) : option Regs :=
  match start program with
  | Some r => steps host 100 n r
  | None => None
  end.

(** The message of an error map. *)
Definition errorMessage (v : Value) : option cstring :=
  match v with
  | OBJ_VAL (OBJ_MAP errMap) =>
      match tableGet errMap (lit "message") with
      | Some (OBJ_VAL (OBJ_STRING msg)) => Some msg
      | _ => None
      end
  | _ => None
  end.

Definition denied (command : string) : cstring :=
  lit "Permission denied: exec " ++ [Dataformat.dquote] ++ lit command ++ [Dataformat.dquote].

(** Where the run of a program is: the offset of [ip], the number of
    handlers, [hasError], and the message of the value on top of the
    stack. *)
Definition position (o : option Regs) : option (Z * Z * bool * option cstring) :=
  match o with
  | Some r =>
      Some (offset (r_ip r), handlerCount (vm r), hasError (vm r),
            errorMessage (top (vm r) (-1)))
  | None => None
  end.

(** [[
      on failure { 1 }
      exec "a"
    ]]
    and the registers of its run when the operand of its
    [OP_PUSH_HANDLER] is about to be read. *)
Definition oneHandler : AstNode :=
  NODE_PROGRAM 0
    [ NODE_ON_FAILURE 1 (NODE_BLOCK 1 [NODE_EXPRESSION_STMT 1 (number 1 1)]);
      NODE_EXPRESSION_STMT 2 (NODE_EXEC 2 (text 2 "a")) ].

Definition atPushHandler : Regs :=
  match start oneHandler with
  | Some r =>
      match READ_BYTE r with
      | Some (_, r) => r
      | None => r
      end
  | None => enter VM.initVM
  end.




(** [[
      import "lib"
      { greet = 2 }
    ]] *)
Definition importThenWrite : AstNode :=
  NODE_PROGRAM 0
    [ NODE_IMPORT 1 (lit "lib") None;
      NODE_BLOCK 2 [NODE_VAR_DECL 2 (lit "greet") (number 2 2)] ].



(** [[
      for x in [1, 2] { continue }
    ]]
    and what the run shows of its loop: the offset of [ip], the hidden
    index local (slot 2) and the loop variable (slot 3). *)
Definition forContinue : AstNode :=
  NODE_PROGRAM 0
    [ NODE_FOR 1 (lit "x") (NODE_LIST 1 [number 1 1; number 1 2])
        (NODE_BLOCK 1 [NODE_CONTINUE 2]) ].

Definition loopView (o : option Regs) : option (Z * Value * Value) :=
  match o with
  | Some r => Some (offset (r_ip r), stack (vm r) 2, stack (vm r) 3)
  | None => None
  end.

End Examples.

(* ================================================================= *)
(** ** Canonical JSON texts *)

(** The texts that the claim on [to_json (parse_json s)] is stated for:
    a grammar of JSON values and the compact text of each. *)
Module Canonical.
Import Object TableC Dataformat.

#[local] Set Warnings "-register-all".











(** What the parser has yet to read. *)
Definition rest (p : JSONParser) : list ascii := drop (pos p) (source p).

(** What may follow a value in a canonical text. *)
Definition follows (post : list ascii) : Prop :=
  match post with
  | [] => True
  | c :: _ => c = ","%char \/ c = "]"%char \/ c = "}"%char
  end.


(** The first byte of the text of a value. *)
Definition valueStart (c : ascii) : Prop :=
  c = dquote \/ c = "-"%char \/ isdigit c = true \/ c = "["%char \/ c = "{"%char \/
  c = "t"%char \/ c = "f"%char \/ c = "n"%char.


(** [to_json (parse_json s)]: the two natives one after the other. *)
Definition roundTrip (host : Host) (s : list ascii) : option Value :=
  match parseJSON host s with
  | Some v => Some (toJSON host v)
  | None => None
  end.

(** The value of a run of decimal digits. *)
Definition readDigits (s : list ascii) : Z :=
  fold_left (fun acc c => 10 * acc + (Z.of_nat (nat_of_ascii c) - 48)) s 0.

(** A host whose [strtod] reads an integer in decimal digits. *)
Definition decimalHost : Host :=
  mkHost
    (fun s =>
       match s with
       | "-"%char :: ds => double_of_int (- readDigits ds)
       | _ => double_of_int (readDigits s)
       end)
    (snprintf_g Examples.quietHost) (processExec Examples.quietHost)
    (fmod Examples.quietHost) (readFile Examples.quietHost) (compile Examples.quietHost).

(** The text of a string whose one byte, the solidus, is escaped. *)
Definition escapedSolidus : list ascii := [dquote; backslash; "/"%char; dquote].


End Canonical.

(* ================================================================= *)
(** ** The bytes between the quotes of a JSON string *)

(** What [jsonParseString] reads between the quotes is a row of units:
    a byte that stands for itself, or a backslash and the byte after
    it. *)
Module JsonString.
Import Object Dataformat.

Inductive Unit : Type :=
  | Plain (c : ascii)
  | Escaped (d : ascii).

Definition unitText (u : Unit) : list ascii :=
  match u with
  | Plain c => [c]
  | Escaped d => [backslash; d]
  end.

(** A plain byte is neither the quote nor the backslash. *)
Definition wellFormed (u : Unit) : Prop :=
  match u with
  | Plain c => c <> dquote /\ c <> backslash
  | Escaped _ => True
  end.

(** The byte that a unit stands for: the five letters b, f, n, r, t
    name a control byte, every other escaped byte is itself. *)
Definition unitByte (u : Unit) : ascii :=
  match u with
  | Plain c => c
  | Escaped d =>
      if bool_decide (d = "b"%char) then char_b
      else if bool_decide (d = "f"%char) then char_f
      else if bool_decide (d = "n"%char) then char_n
      else if bool_decide (d = "r"%char) then char_r
      else if bool_decide (d = "t"%char) then char_t
      else d
  end.

Definition isEscaped (u : Unit) : bool :=
  match u with
  | Plain _ => false
  | Escaped _ => true
  end.

Definition textOf (units : list Unit) : list ascii := flat_map unitText units.

(** The first byte of what is left of a text after its leading
    whitespace. *)
Definition firstByte (s : list ascii) : option ascii := head (drop (span isspace s) s).

End JsonString.

(* ================================================================= *)
(** ** Invariants of the compiler's state *)

Module CompilerProps.
Import Object TableC Opcode Compiler.

(** The index of the string constants points into the pool: a string
    that the index knows stands in the pool at the place the index
    gives. *)
Definition indexed (ch : Chunk Value) : Prop :=
  table_wf (constantIndex ch) /\
  forall s v, tableGet (constantIndex ch) s = Some v ->
    exists i, v = NUMBER_VAL (double_of_int i) /\ 0 <= i <= INT_MAX /\
              constants ch !! Z.to_nat i = Some (OBJ_VAL (OBJ_STRING s)).

(** No local is deeper than the scope the compiler is in. *)
Definition scoped (c : Compiler) : Prop :=
  forall l, l ∈ locals c -> depth l <= scopeDepth c.

(** The declaration of a row of names, one [addLocal] each. *)
Definition addLocals (c : Compiler) (names : list (list ascii)) : Compiler :=
  fold_left addLocal names c.

End CompilerProps.

(* ================================================================= *)
(** ** vm.c: what the proofs about [sortNative] speak of *)

Module NativesProps.
Import Object Natives.

(** The test of the inner loop of [sortNative] on two neighbours. *)
Definition greater (a b : Value) : bool :=
  match a, b with
  | NUMBER_VAL x, NUMBER_VAL y => SFltb y x
  | _, _ => false
  end.

(** The inner loop over the first [n] pairs of neighbours, by
    recursion on the list: [sortPass_bubble] shows that [sortPass] is
    this function. *)
Fixpoint bubble (n : nat) (items : list Value) : list Value :=
  match n, items with
  | S n', a :: b :: rest =>
      if greater a b then b :: bubble n' (a :: rest) else a :: bubble n' (b :: rest)
  | _, _ => items
  end.

Definition isNumber (v : Value) : bool :=
  match v with
  | NUMBER_VAL _ => true
  | _ => false
  end.

(** A number that is not a NaN. *)
Definition ordered (v : Value) : Prop :=
  match v with
  | NUMBER_VAL x => x <> S754_nan
  | _ => False
  end.

End NativesProps.

(* ================================================================= *)
(** ** memory.c: what the proofs about the collector speak of *)

Module MemoryProps.
Import Memory.

(** The pointer that a value holds, [NULL] for a value that is no
    object. *)
Definition objectOf (v : Value) : Z :=
  match v with
  | OBJ_VAL object => object
  | _ => 0
  end.

Definition tableRefs (table : Table) : list Z :=
  flat_map (fun e => [key e; objectOf (value e)]) table.

(** The pointers that [blackenObject] follows from an object. *)
Definition refs (f : Fields) : list Z :=
  match f with
  | ObjClosure function upvalues => function :: upvalues
  | ObjFunction name constants _ => name :: map objectOf constants
  | ObjUpvalue closed _ => [objectOf closed]
  | ObjList items => map objectOf items
  | ObjMap table => tableRefs table
  | ObjNative | ObjString _ => []
  end.

(** [upvalue->next] of an open upvalue. *)
Definition upvalueNext (o : Obj) : option Z :=
  match fields o with
  | ObjUpvalue _ next => Some next
  | _ => None
  end.

Definition objNext (o : Obj) : option Z := Some (next o).

(** The objects [l] are the list that starts at [from] and goes on
    through the pointer [nextOf] up to [NULL]. *)
Fixpoint linked (vm : VM) (nextOf : Obj -> option Z) (from : Z) (l : list Z) : Prop :=
  match l with
  | [] => from = 0
  | object :: l' =>
      from = object /\ object <> 0 /\
      match memory vm object with
      | Some o =>
          match nextOf o with
          | Some next => linked vm nextOf next l'
          | None => False
          end
      | None => False
      end
  end.

(** The pointers that [markRoots] starts from; [ups] is the list of
    the open upvalues. *)
Definition roots (vm : VM) (ups : list Z) : list Z :=
  map objectOf (stack vm) ++ frames vm ++ ups
  ++ tableRefs (globals vm) ++ tableRefs (modules vm).

(** An object that the machine can get at: a root, or an object that
    one of those holds a pointer to. *)
Inductive reachable (vm : VM) (ups : list Z) : Z -> Prop :=
  | reach_root (object : Z) :
      object ∈ roots vm ups -> object <> 0 -> reachable vm ups object
  | reach_ref (holder : Z) (o : Obj) (object : Z) :
      reachable vm ups holder -> memory vm holder = Some o ->
      object ∈ refs (fields o) -> object <> 0 -> reachable vm ups object.

Definition isMarkedAt (vm : VM) (object : Z) : bool :=
  match memory vm object with
  | Some o => isMarked o
  | None => false
  end.

(** The heap between two collections: [chain] is the list of all
    objects, it holds every allocated object once, no object is marked,
    the gray stack is empty, and no pointer of a root, of an object or
    of the table of the interned strings dangles. *)
Record heap_wf (vm : VM) (chain ups : list Z) : Prop := mkWf {
  wf_chain : linked vm objNext (objects vm) chain;
  wf_nodup : NoDup chain;
  wf_all : forall object, memory vm object <> None -> object ∈ chain;
  wf_white : forall object, isMarkedAt vm object = false;
  wf_gray : grayStack vm = [];
  wf_refs : forall holder o object,
      memory vm holder = Some o -> object ∈ refs (fields o) -> object <> 0 ->
      memory vm object <> None;
  wf_roots : forall object, object ∈ roots vm ups -> object <> 0 -> memory vm object <> None;
  wf_ups : linked vm upvalueNext (openUpvalues vm) ups;
  wf_strings : forall e, e ∈ strings vm -> memory vm (key e) <> None
}.

(** [vm] is [vm0] in the middle of a mark phase: some objects more are
    marked and the gray stack has changed, nothing else. *)
Definition marking (vm0 vm : VM) : Prop :=
  vm = set_grayStack (set_memory vm0 (memory vm)) (grayStack vm) /\
  forall object,
    match memory vm0 object, memory vm object with
    | Some o0, Some o =>
        next o = next o0 /\ fields o = fields o0 /\ (isMarked o0 = true -> isMarked o = true)
    | None, None => True
    | _, _ => False
    end.

(** The number of the objects of a list that are not marked. *)
Definition white (vm : VM) (l : list Z) : nat :=
  length (filter (fun object => isMarkedAt vm object = false) l).

(** What holds all through a mark phase that has started from [vm0]:
    a marked object is reachable and is gray, or [pending], or holds
    pointers to marked objects only; [n] is the number of the gray
    objects and of the objects that are not marked. *)
Definition tricolour (vm0 : VM) (chain ups : list Z) (pending : Z -> Prop) (n : nat)
    (vm : VM) : Prop :=
  marking vm0 vm /\
  (forall object, isMarkedAt vm object = true -> reachable vm0 ups object) /\
  (forall object, object ∈ grayStack vm -> isMarkedAt vm object = true) /\
  (forall holder o,
     isMarkedAt vm holder = true -> memory vm0 holder = Some o ->
     holder ∈ grayStack vm \/ pending holder \/
     forall object, object ∈ refs (fields o) -> object <> 0 -> isMarkedAt vm object = true) /\
  (length (grayStack vm) + white vm chain)%nat = n.

(** A heap with a closure on the stack that holds a function with a
    string constant, and a list that nothing holds. *)
Definition heap4 : VM :=
  mkVM [OBJ_VAL 4] [] 0 [] [] [mkEntry 1 NIL_VAL] 4 [] 200 (1024 * 1024)
    (aset (aset (aset (aset (fun _ => None)
       1 (Some (mkObj false 0 (ObjString (lit "s")))))
       2 (Some (mkObj false 1 (ObjFunction 0 [OBJ_VAL 1] 8))))
       3 (Some (mkObj false 2 (ObjList [OBJ_VAL 1]))))
       4 (Some (mkObj false 3 (ObjClosure 2 []))))
    5.

End MemoryProps.
Module PermissionProofs.
Import Permission.

Lemma globSpec_star_inv pattern text :
  globSpec ("*"%char :: pattern) text ->
  exists run rest, text = run ++ rest /\ globSpec pattern rest.
Proof. intros H. inversion H; subst; [eauto | congruence]. Qed.

Lemma globSpec_byte_inv c pattern text :
  c <> "*"%char ->
  globSpec (c :: pattern) text ->
  exists text', text = c :: text' /\ globSpec pattern text'.
Proof. intros Hc H. inversion H; subst; [congruence | eauto]. Qed.

Lemma skipStars_nil_globSpec pattern :
  skipStars pattern = [] <-> globSpec pattern [].
Proof.
  induction pattern as [|c pattern IH]; simpl.
  - split; [constructor | reflexivity].
  - destruct (Ascii.eqb_spec c "*") as [->|Hc].
    + rewrite IH. split; intros H.
      * apply (globSpec_star pattern [] []). exact H.
      * apply globSpec_star_inv in H as (run & rest & Happ & H).
        symmetry in Happ. apply app_eq_nil in Happ as [_ ->]. exact H.
    + split; [discriminate|]. intros H.
      apply globSpec_byte_inv in H as (? & ? & _); [discriminate | exact Hc].
Qed.

Lemma globTail_globSpec pattern text :
  pattern = [] \/ text = [] ->
  globTail pattern text = true <-> globSpec pattern text.
Proof.
  intros Hcase. unfold globTail. destruct text as [|t text].
  - rewrite <- skipStars_nil_globSpec. destruct (skipStars pattern); intuition congruence.
  - destruct Hcase as [->|]; [|discriminate]. simpl.
    split; [discriminate|]. intros H; inversion H.
Qed.

Lemma globSpec_stars_any pattern text :
  globSpec pattern [] -> pattern <> [] -> globSpec pattern text.
Proof.
  intros H Hne. destruct pattern as [|c pattern]; [congruence|].
  destruct (Ascii.eqb_spec c "*") as [->|Hc].
  - apply globSpec_star_inv in H as (run & rest & Happ & H).
    symmetry in Happ. apply app_eq_nil in Happ as [_ ->].
    rewrite <- (app_nil_r text). constructor. exact H.
  - apply globSpec_byte_inv in H as (? & ? & _); [discriminate | exact Hc].
Qed.

Lemma scanText_suffix (f : cstring -> bool) text :
  scanText f text = true <->
  exists run rest, text = run ++ rest /\ rest <> [] /\ f rest = true.
Proof.
  induction text as [|t text IH].
  - split; [discriminate|]. intros (run & rest & H & Hne & _).
    symmetry in H. apply app_eq_nil in H as [_ ->]. congruence.
  - simpl. destruct (f (t :: text)) eqn:Hf.
    + split; [|reflexivity]. intros _. exists [], (t :: text). by rewrite Hf.
    + rewrite IH. split.
      * intros (run & rest & -> & Hne & H). exists (t :: run), rest. auto.
      * intros (run & rest & H & Hne & Hr). destruct run as [|r run]; simpl in H.
        -- subst rest. congruence.
        -- injection H as -> ->. eauto.
Qed.

Lemma globMatch_globSpec pattern : forall text,
  globMatch pattern text = true <-> globSpec pattern text.
Proof.
  induction pattern as [|p pattern IH]; intros text.
  - destruct text; apply globTail_globSpec; auto.
  - destruct text as [|t text]; [apply globTail_globSpec; auto|].
    cbn [globMatch]. destruct (Ascii.eqb_spec p "*") as [->|Hp].
    + destruct pattern as [|q pattern].
      * split; [|reflexivity]. intros _.
        rewrite <- (app_nil_r (t :: text)). constructor. constructor.
      * rewrite scanText_suffix. split.
        -- intros (run & rest & -> & _ & H). constructor. by apply IH.
        -- intros H. apply globSpec_star_inv in H as (run & rest & Happ & H).
           destruct rest as [|r rest].
           ++ exists [], (t :: text). split; [done|]. split; [done|].
              apply IH. apply globSpec_stars_any; done.
           ++ exists run, (r :: rest). split; [done|]. split; [done|]. by apply IH.
    + destruct (Ascii.eqb_spec p t) as [->|Hpt]; simpl.
      * rewrite IH. split; intros H.
        -- by constructor.
        -- apply globSpec_byte_inv in H as (text' & Heq & H); [|exact Hp].
           by injection Heq as ->.
      * split; [discriminate|]. intros H.
        apply globSpec_byte_inv in H as (text' & Heq & H); [|exact Hp]. congruence.
Qed.

Lemma PermissionType_eqb_eq a b : PermissionType_eqb a b = true <-> a = b.
Proof. destruct a, b; simpl; split; intros; congruence. Qed.

(** C5. [hasPermission] answers true exactly when the allow-all flag is
    set or some recorded entry has the queried kind and a glob pattern
    that matches the target, with [*] matching any run of bytes and every
    other byte matching itself; on a set without entries and with the
    flag clear every query is refused. *)
Theorem hasPermission_iff_allowAll_or_glob :
  (forall set ty tgt,
     hasPermission set ty tgt = true <->
     allowAll set = true \/
     exists p, In p (permissions set) /\ type p = ty /\ globSpec (target p) tgt) /\
  (forall cap ty tgt,
     hasPermission {| permissions := []; capacity := cap; allowAll := false |}
       ty tgt = false).
Proof.
  split; [|reflexivity].
  intros set ty tgt. unfold hasPermission. destruct (allowAll set); [tauto|].
  transitivity (exists p, In p (permissions set) /\ type p = ty /\
                          globSpec (target p) tgt);
    [|split; [auto | intros [H|H]; [discriminate | exact H]]].
  induction (permissions set) as [|q ps IH].
  - split; [discriminate | intros (p & [] & _)].
  - destruct (PermissionType_eqb (type q) ty) eqn:Hty.
    + destruct (globMatch (target q) tgt) eqn:Hg.
      * split; [|reflexivity]. intros _. exists q. split; [left; reflexivity|].
        split; [by apply PermissionType_eqb_eq | by apply globMatch_globSpec].
      * rewrite IH. split.
        -- intros (p & Hin & H). exists p. split; [by right | exact H].
        -- intros (p & [->|Hin] & Hp & Hs); [|eauto].
           apply globMatch_globSpec in Hs. congruence.
    + rewrite IH. split.
      * intros (p & Hin & H). exists p. split; [by right | exact H].
      * intros (p & [->|Hin] & Hp & Hs); [|eauto].
        apply PermissionType_eqb_eq in Hp. congruence.
Qed.

End PermissionProofs.

Module ValueProofs.
Import ValueH.

Lemma double_is_zero_inv d :
  double_is_zero d = true -> exists s, d = S754_zero s.
Proof.
  unfold double_is_zero, SFeqb. destruct d as [s|s| |s m e]; simpl.
  - eauto.
  - destruct s; discriminate.
  - discriminate.
  - destruct s; discriminate.
Qed.

Lemma valueToNum_zero_inv v s :
  uint64_range v -> valueToNum v = S754_zero s -> v = 0 \/ v = SIGN_BIT.
Proof.
  unfold uint64_range, valueToNum. intros Hv.
  change 0x7FF with (Z.ones 11).
  rewrite !Z.land_ones, Z.shiftr_div_pow2 by lia.
  destruct (Z.eqb_spec ((v / 2 ^ 52) mod 2 ^ 11) 0) as [He|He].
  - destruct (Z.eqb_spec (v mod 2 ^ 52) 0) as [Hm|Hm]; [|discriminate].
    intros _. unfold SIGN_BIT.
    pose proof (Z.div_mod v (2 ^ 52) ltac:(lia)) as H1.
    pose proof (Z.div_mod (v / 2 ^ 52) (2 ^ 11) ltac:(lia)) as H2.
    assert (0 <= v / 2 ^ 52 < 2 ^ 12) as H3
      by (split; [apply Z.div_pos; lia | apply Z.div_lt_upper_bound; lia]).
    assert (0 <= v / 2 ^ 52 / 2 ^ 11 < 2) as H4
      by (split; [apply Z.div_pos; lia | apply Z.div_lt_upper_bound; lia]).
    lia.
  - destruct (_ =? Z.ones 11); [destruct (_ =? 0)|]; discriminate.
Qed.

Lemma isFalsey_bits v :
  uint64_range v ->
  isFalsey v = true <->
  v = NIL_VAL \/ v = FALSE_VAL \/
  v = NUMBER_VAL (S754_zero false) \/ v = NUMBER_VAL (S754_zero true).
Proof.
  intros Hv. split.
  - unfold isFalsey, IS_NIL, IS_BOOL.
    destruct (Z.eqb_spec v NIL_VAL) as [|Hnil]; [auto|].
    destruct (Z.eqb_spec v TRUE_VAL) as [->|Htrue]; [discriminate|].
    destruct (Z.eqb_spec v FALSE_VAL) as [|Hfalse]; [auto|]. simpl.
    destruct (IS_NUMBER v); [|discriminate].
    intros H. apply double_is_zero_inv in H as [s H].
    apply valueToNum_zero_inv in H as [->| ->]; auto.
  - intros [->|[->|[->| ->]]]; reflexivity.
Qed.

Lemma OBJ_VAL_bit63 obj : Z.testbit (OBJ_VAL obj) 63 = true.
Proof. unfold OBJ_VAL. rewrite !Z.lor_spec. reflexivity. Qed.

Lemma OBJ_VAL_qnan obj : Z.land (OBJ_VAL obj) QNAN = QNAN.
Proof.
  unfold OBJ_VAL. apply Z.bits_inj'. intros n Hn.
  rewrite Z.land_spec, !Z.lor_spec.
  destruct (Z.testbit QNAN n); [|apply andb_false_r].
  rewrite orb_true_r. reflexivity.
Qed.

Lemma isFalsey_OBJ_VAL obj : isFalsey (OBJ_VAL obj) = false.
Proof.
  pose proof (OBJ_VAL_bit63 obj) as Hbit.
  unfold isFalsey, IS_NIL, IS_BOOL, IS_NUMBER.
  rewrite OBJ_VAL_qnan, Z.eqb_refl. simpl.
  destruct (Z.eqb_spec (OBJ_VAL obj) NIL_VAL) as [H|_];
    [rewrite H in Hbit; discriminate|].
  destruct (Z.eqb_spec (OBJ_VAL obj) TRUE_VAL) as [H|_];
    [rewrite H in Hbit; discriminate|].
  destruct (Z.eqb_spec (OBJ_VAL obj) FALSE_VAL) as [H|_];
    [rewrite H in Hbit; discriminate|].
  reflexivity.
Qed.

Lemma isFalsey_untag deref v :
  Object.isFalsey (Object.tagged_value deref (Object.untag v)) = isFalsey v.
Proof.
  unfold Object.untag, isFalsey, IS_BOOL, AS_BOOL.
  destruct (IS_NIL v); [reflexivity|].
  destruct (Z.eqb_spec v TRUE_VAL) as [->|Htrue]; [reflexivity|].
  destruct (Z.eqb_spec v FALSE_VAL) as [->|Hfalse]; [reflexivity|]. simpl.
  destruct (IS_NUMBER v); reflexivity.
Qed.

Lemma isFalsey_tagged (w : Object.Value) :
  Object.isFalsey w = true <->
  w = Object.NIL_VAL \/ w = Object.BOOL_VAL false \/
  exists s, w = Object.NUMBER_VAL (S754_zero s).
Proof.
  split.
  - destruct w as [|b|num|o]; simpl.
    + auto.
    + destruct b; [discriminate|auto].
    + intros H. apply double_is_zero_inv in H as [s ->]. eauto.
    + discriminate.
  - intros [->|[->|[s ->]]]; reflexivity.
Qed.

(** C7.  [isFalsey] holds of a 64-bit word exactly when the word is
    nil, false, or one of the two zeros of the doubles; it fails on
    every object word.  On the tagged view of the values, which the
    instructions [OP_NOT] and [OP_JUMP_IF_FALSE] are written over, it is
    the same predicate: true exactly of nil, false and a zero, false of
    every object, the empty string, the empty list and the empty map
    among them.  [OP_NOT] replaces the top of the stack by the result
    of the test and [OP_JUMP_IF_FALSE] jumps exactly when the test
    holds of the top of the stack; the short-circuit operators are
    compiled to [OP_JUMP_IF_FALSE]. *)
Theorem isFalsey_exactly_nil_false_zero (v : Value) (deref : Z -> Object.Obj) :
  uint64_range v ->
  (isFalsey v = true <->
     v = NIL_VAL \/ v = FALSE_VAL \/
     v = NUMBER_VAL (S754_zero false) \/ v = NUMBER_VAL (S754_zero true)) /\
  (forall obj, isFalsey (OBJ_VAL obj) = false) /\
  Object.isFalsey (Object.tagged_value deref (Object.untag v)) = isFalsey v /\
  (forall w, Object.isFalsey w = true <->
     w = Object.NIL_VAL \/ w = Object.BOOL_VAL false \/
     exists s, w = Object.NUMBER_VAL (S754_zero s)) /\
  (forall o, Object.isFalsey (Object.OBJ_VAL o) = false) /\
  Object.isFalsey (Object.OBJ_VAL (Object.OBJ_STRING [])) = false /\
  Object.isFalsey (Object.OBJ_VAL (Object.OBJ_LIST [])) = false /\
  Object.isFalsey (Object.OBJ_VAL (Object.OBJ_MAP TableC.initTable)) = false /\
  (forall r, VM.op_NOT r =
     VM.Next (VM.set_vm r (VM.set_top (VM.vm r) (-1)
                (Object.BOOL_VAL (Object.isFalsey (VM.top (VM.vm r) (-1))))))) /\
  (forall r off r1, VM.READ_SHORT r = Some (off, r1) ->
     VM.op_JUMP_IF_FALSE r =
     VM.Next (if Object.isFalsey (VM.top (VM.vm r1) (-1)) then VM.jumpBy r1 off else r1)) /\
  (forall line a b c,
     Compiler.compileNode (Compiler.NODE_BINARY line Compiler.TOKEN_AND a b) c =
     let '(c1, endJump) :=
       Compiler.emitJump (Compiler.compileNode a c) Opcode.OP_JUMP_IF_FALSE line in
     Compiler.patchJump
       (Compiler.compileNode b (Compiler.emitOp c1 Opcode.OP_POP line)) endJump) /\
  (forall line a b c,
     Compiler.compileNode (Compiler.NODE_BINARY line Compiler.TOKEN_OR a b) c =
     let '(c1, elseJump) :=
       Compiler.emitJump (Compiler.compileNode a c) Opcode.OP_JUMP_IF_FALSE line in
     let '(c2, endJump) := Compiler.emitJump c1 Opcode.OP_JUMP line in
     Compiler.patchJump
       (Compiler.compileNode b
          (Compiler.emitOp (Compiler.patchJump c2 elseJump) Opcode.OP_POP line))
       endJump).
Proof.
  intros Hv.
  split; [exact (isFalsey_bits v Hv)|].
  split; [exact isFalsey_OBJ_VAL|].
  split; [exact (isFalsey_untag deref v)|].
  split; [exact isFalsey_tagged|].
  split; [reflexivity|].
  do 3 (split; [reflexivity|]).
  split; [reflexivity|].
  split.
  - intros r off r1 Hread. unfold VM.op_JUMP_IF_FALSE. by rewrite Hread.
  - split; reflexivity.
Qed.

Lemma isFalsey_exactly_nil_false_zero_witness :
  isFalsey (NUMBER_VAL (S754_zero true)) = true /\
  isFalsey (OBJ_VAL 4096) = false.
Proof.
  assert (uint64_range (NUMBER_VAL (S754_zero true))) as Hv by (vm_compute; split; congruence).
  destruct (isFalsey_exactly_nil_false_zero (NUMBER_VAL (S754_zero true))
              (fun _ => Object.OBJ_STRING []) Hv) as (Hiff & Hobj & _).
  split.
  - apply Hiff. right. right. right. reflexivity.
  - apply Hobj.
Defined.

End ValueProofs.

Module TableProofs.
Import Object TableC.
Local Open Scope nat_scope.

Lemma homeSlot_lt cap k : 0 < cap -> homeSlot cap k < cap.
Proof.
  intros H. unfold homeSlot.
  pose proof (Z.mod_pos_bound (hashString k) (Z.of_nat cap) ltac:(lia)). lia.
Qed.

Lemma probeSlot_lt cap k j : 0 < cap -> probeSlot cap k j < cap.
Proof. intros H. apply Nat.mod_upper_bound. lia. Qed.

Lemma probeSlot_0 cap k : 0 < cap -> probeSlot cap k 0 = homeSlot cap k.
Proof.
  intros H. unfold probeSlot. rewrite Nat.add_0_r.
  apply Nat.mod_small, homeSlot_lt, H.
Qed.

Lemma probeSlot_S cap k j :
  (probeSlot cap k j + 1) mod cap = probeSlot cap k (S j).
Proof.
  unfold probeSlot. rewrite Nat.Div0.add_mod_idemp_l. f_equal. lia.
Qed.

Lemma probeSlot_inj cap k j1 j2 :
  j1 < cap -> j2 < cap ->
  probeSlot cap k j1 = probeSlot cap k j2 -> j1 = j2.
Proof.
  intros H1 H2. unfold probeSlot.
  assert (0 < cap) as Hc by lia.
  pose proof (homeSlot_lt cap k Hc) as Hh.
  set (h := homeSlot cap k) in *. clearbody h.
  pose proof (Nat.div_mod (h + j1) cap ltac:(lia)) as E1.
  pose proof (Nat.div_mod (h + j2) cap ltac:(lia)) as E2.
  assert ((h + j1) / cap < 2) by (apply Nat.Div0.div_lt_upper_bound; lia).
  assert ((h + j2) / cap < 2) by (apply Nat.Div0.div_lt_upper_bound; lia).
  intros E. rewrite E in E1.
  set (q1 := (h + j1) / cap) in *. set (q2 := (h + j2) / cap) in *.
  clearbody q1 q2.
  assert (q1 = 0 \/ q1 = 1) as [-> | ->] by lia;
    assert (q2 = 0 \/ q2 = 1) as [-> | ->] by lia; lia.
Qed.

Lemma probeSlot_surj cap k i :
  i < cap -> exists j, j < cap /\ probeSlot cap k j = i.
Proof.
  intros Hi. assert (0 < cap) as Hc by lia.
  pose proof (homeSlot_lt cap k Hc) as Hh. unfold probeSlot.
  destruct (le_lt_dec (homeSlot cap k) i) as [Hle|Hlt].
  - exists (i - homeSlot cap k). split; [lia|].
    replace (homeSlot cap k + (i - homeSlot cap k)) with i by lia.
    apply Nat.mod_small, Hi.
  - exists (i + cap - homeSlot cap k). split; [lia|].
    replace (homeSlot cap k + (i + cap - homeSlot cap k)) with (i + 1 * cap) by lia.
    rewrite Nat.Div0.mod_add. apply Nat.mod_small, Hi.
Qed.

Lemma least_witness (P : nat -> Prop) :
  (forall n, {P n} + {~ P n}) ->
  forall n, P n -> exists m, m <= n /\ P m /\ forall j, j < m -> ~ P j.
Proof.
  intros Hdec n. induction n as [n IH] using lt_wf_ind. intros Hn.
  assert ({j | j < n /\ P j} + {forall j, j < n -> ~ P j}) as [(j & Hj & HPj)|Hnone].
  { clear IH Hn. induction n as [|n [(j & Hj & HPj)|IHn]].
    - right. intros j Hj. lia.
    - left. exists j. split; [lia | exact HPj].
    - destruct (Hdec n) as [Hn|Hn].
      + left. exists n. split; [lia | exact Hn].
      + right. intros j Hj. destruct (decide (j = n)) as [->|]; [exact Hn|].
        apply IHn. lia. }
  - destruct (IH j Hj HPj) as (m & Hm & HPm & Hmin).
    exists m. split; [lia|]. auto.
  - exists n. split; [lia|]. split; [exact Hn|].
    exact Hnone.
Qed.

Lemma pathUsed_le l cap k d d' : d' <= d -> pathUsed l cap k d -> pathUsed l cap k d'.
Proof. intros Hle H j Hj. apply H. lia. Qed.

Lemma probe_found l cap k d v :
  pathUsed l cap k d ->
  l !! probeSlot cap k d = Some (mkEntry (Some k) v) ->
  forall fuel j tomb, j <= d -> d - j < fuel ->
    probe fuel l cap k (probeSlot cap k j) tomb = probeSlot cap k d.
Proof.
  intros Hpath Hd. induction fuel as [|fuel IH]; intros j tomb Hj Hfuel; [lia|].
  cbn [probe]. destruct (decide (j = d)) as [->|Hne].
  - rewrite Hd. cbn. by rewrite bool_decide_eq_true_2.
  - destruct (Hpath j ltac:(lia)) as (e & He & Hused & Hkey). rewrite He.
    unfold usedSlot in Hused. destruct (Object.key e) as [k'|] eqn:Hk.
    + rewrite bool_decide_eq_false_2 by congruence.
      rewrite probeSlot_S. apply IH; lia.
    + apply negb_true_iff in Hused. rewrite Hused.
      rewrite probeSlot_S. apply IH; lia.
Qed.

Lemma probe_absent l cap k e_ ent :
  pathUsed l cap k e_ ->
  l !! probeSlot cap k e_ = Some ent ->
  usedSlot ent = false ->
  forall fuel j tomb, j <= e_ -> e_ - j < fuel ->
    match tomb with
    | Some t => probe fuel l cap k (probeSlot cap k j) tomb = t
    | None =>
        exists d ent',
          j <= d <= e_ /\
          probe fuel l cap k (probeSlot cap k j) tomb = probeSlot cap k d /\
          l !! probeSlot cap k d = Some ent' /\ Object.key ent' = None
    end.
Proof.
  intros Hpath He Hempty.
  assert (Object.key ent = None /\ IS_NIL (value ent) = true) as [Hk Hnil].
  { unfold usedSlot in Hempty. destruct (Object.key ent); [discriminate|].
    split; [done|]. by apply negb_false_iff. }
  induction fuel as [|fuel IH]; intros j tomb Hj Hfuel; [lia|].
  cbn [probe]. destruct (decide (j = e_)) as [->|Hne].
  - rewrite He, Hk, Hnil. destruct tomb as [t|]; simpl; [done|].
    exists e_, ent. auto with lia.
  - destruct (Hpath j ltac:(lia)) as (e & Hej & Hused & Hkey). rewrite Hej.
    unfold usedSlot in Hused. destruct (Object.key e) as [k'|] eqn:Hk'.
    + rewrite bool_decide_eq_false_2 by congruence. rewrite probeSlot_S.
      specialize (IH (S j) tomb ltac:(lia) ltac:(lia)).
      destruct tomb as [t|]; [done|].
      destruct IH as (d & ent' & Hd & Hp & Hl & Hkd). exists d, ent'. auto with lia.
    + apply negb_true_iff in Hused. rewrite Hused. rewrite probeSlot_S.
      specialize (IH (S j) (Some (default (probeSlot cap k j) tomb)) ltac:(lia) ltac:(lia)).
      simpl in IH. rewrite IH. destruct tomb as [t|]; simpl; [done|].
      exists j, e. auto with lia.
Qed.

Lemma usedCount_length l : usedCount l <= length l.
Proof. induction l as [|e l IH]; simpl; [lia|]. destruct (usedSlot e); lia. Qed.

Lemma usedCount_lt_exists l :
  usedCount l < length l -> exists i e, l !! i = Some e /\ usedSlot e = false.
Proof.
  induction l as [|e l IH]; simpl; [lia|]. intros H.
  destruct (usedSlot e) eqn:He.
  - destruct IH as (i & e' & Hi & He'); [lia|]. by exists (S i), e'.
  - by exists 0, e.
Qed.

Lemma findEntry_present l cap k i v :
  slots_wf cap l ->
  l !! i = Some (mkEntry (Some k) v) ->
  findEntry l cap k = i.
Proof.
  intros [Hlen Hreach] Hi. destruct (Hreach i k v Hi) as (d & Hd & -> & Hpath).
  unfold findEntry. rewrite <- (probeSlot_0 cap k) by lia.
  eapply probe_found; eauto; lia.
Qed.

Lemma findEntry_absent l cap k :
  slots_wf cap l -> usedCount l < cap -> absent l k ->
  exists d ent,
    d < cap /\ findEntry l cap k = probeSlot cap k d /\
    l !! probeSlot cap k d = Some ent /\ Object.key ent = None /\
    pathUsed l cap k d.
Proof.
  intros [Hlen Hreach] Hcount Habs.
  destruct (usedCount_lt_exists l) as (i & e & Hi & He); [lia|].
  assert (i < cap) as Hicap by (rewrite <- Hlen; eapply lookup_lt_Some; eauto).
  destruct (probeSlot_surj cap k i Hicap) as (j0 & Hj0 & Hj0i).
  set (P := fun j => exists e, l !! probeSlot cap k j = Some e /\ usedSlot e = false).
  assert (forall n, {P n} + {~ P n}) as Pdec.
  { intros n. unfold P. destruct (l !! probeSlot cap k n) as [e'|] eqn:Hn.
    - destruct (usedSlot e') eqn:He'.
      + right. intros (e'' & [= <-] & H). congruence.
      + left. eauto.
    - right. intros (e'' & [=] & _). }
  destruct (least_witness P Pdec j0) as (m & Hm & (em & Hlm & Hem) & Hmin).
  { exists e. by rewrite Hj0i. }
  assert (pathUsed l cap k m) as Hpath.
  { intros j Hj.
    destruct (l !! probeSlot cap k j) as [e'|] eqn:Hlj.
    - exists e'. split; [done|]. destruct (usedSlot e') eqn:He'.
      + split; [done|]. intros Hk. destruct e' as [? v']. simpl in Hk. subst.
        by apply (Habs _ _ Hlj).
      + exfalso. apply (Hmin j Hj). exists e'. auto.
    - apply lookup_ge_None in Hlj. pose proof (probeSlot_lt cap k j). lia. }
  unfold findEntry. rewrite <- (probeSlot_0 cap k) by lia.
  pose proof (probe_absent l cap k m em Hpath Hlm Hem cap 0 None ltac:(lia) ltac:(lia))
    as (d & ent' & Hd & Hp & Hl & Hk).
  exists d, ent'. repeat split; try done; [lia|].
  eapply pathUsed_le; [|exact Hpath]. lia.
Qed.

Lemma key_slot_unique l cap k i i' v v' :
  slots_wf cap l ->
  l !! i = Some (mkEntry (Some k) v) ->
  l !! i' = Some (mkEntry (Some k) v') ->
  i = i'.
Proof.
  intros Hwf H1 H2.
  rewrite <- (findEntry_present l cap k i v Hwf H1).
  apply (findEntry_present l cap k i' v' Hwf H2).
Qed.

Lemma present_dec (l : list Entry) k :
  {i & {v | l !! i = Some (mkEntry (Some k) v)}} + {absent l k}.
Proof.
  induction l as [|[ke ve] l [(i & v & Hi)|Habs]].
  - right. intros i v. by rewrite lookup_nil.
  - left. by exists (S i), v.
  - destruct (decide (ke = Some k)) as [->|Hne].
    + left. by exists 0, ve.
    + right. intros [|i] v; simpl; [congruence | apply Habs].
Qed.

Lemma usedCount_pos l i e : l !! i = Some e -> usedSlot e = true -> 0 < usedCount l.
Proof.
  revert i. induction l as [|e' l IH]; intros [|i]; simpl; try done.
  - intros [= ->] ->. lia.
  - intros Hi He. specialize (IH i Hi He). lia.
Qed.

Lemma usedCount_insert l i e e' :
  l !! i = Some e ->
  usedCount (<[i := e']> l) + (if usedSlot e then 1 else 0) =
  usedCount l + (if usedSlot e' then 1 else 0).
Proof.
  revert i. induction l as [|x l IH]; intros [|i]; simpl; try done.
  - intros [= ->]. lia.
  - intros Hi. specialize (IH i Hi). lia.
Qed.

Lemma usedCount_app l1 l2 : usedCount (l1 ++ l2) = usedCount l1 + usedCount l2.
Proof. induction l1 as [|e l1 IH]; simpl; [done|]. rewrite IH. lia. Qed.

Lemma tableGetEntry_present t k i v :
  table_wf t ->
  entries t !! i = Some (mkEntry (Some k) v) ->
  tableGetEntry t k = Some i.
Proof.
  intros [Hs Hc Hl] Hi. unfold tableGetEntry.
  pose proof (usedCount_pos _ _ _ Hi eq_refl) as Hpos.
  destruct (Nat.eqb_spec (count t) 0) as [H0|_]; [lia|].
  rewrite (findEntry_present _ _ _ _ _ Hs Hi), Hi. done.
Qed.

Lemma tableGetEntry_absent t k :
  table_wf t -> absent (entries t) k -> tableGetEntry t k = None.
Proof.
  intros [Hs Hc Hl] Habs. unfold tableGetEntry.
  destruct (Nat.eqb_spec (count t) 0) as [|Hn]; [done|].
  destruct (findEntry_absent (entries t) (capacity t) k Hs ltac:(lia) Habs)
    as (d & ent & Hd & -> & Hent & Hk & _).
  by rewrite Hent, Hk.
Qed.

Lemma tableGet_slot t k v :
  table_wf t ->
  tableGet t k = Some v <-> exists i, entries t !! i = Some (mkEntry (Some k) v).
Proof.
  intros Hwf. unfold tableGet.
  destruct (present_dec (entries t) k) as [(i & v0 & Hi)|Habs].
  - rewrite (tableGetEntry_present t k i v0 Hwf Hi), Hi. simpl. split.
    + intros [= ->]. eauto.
    + intros (i' & Hi'). destruct Hwf as [Hs _ _].
      pose proof (key_slot_unique _ _ _ _ _ _ _ Hs Hi Hi') as <-. congruence.
  - rewrite (tableGetEntry_absent t k Hwf Habs). split; [done|].
    intros (i & Hi). by destruct (Habs i v).
Qed.

Lemma option_ext {A} (a b : option A) : (forall v, a = Some v <-> b = Some v) -> a = b.
Proof.
  intros H. destruct a as [x|], b as [y|]; try done.
  - symmetry. by apply H.
  - pose proof (proj1 (H x) eq_refl). done.
  - pose proof (proj2 (H y) eq_refl). done.
Qed.

Lemma tableGet_None t k :
  table_wf t -> tableGet t k = None <-> absent (entries t) k.
Proof.
  intros Hwf. split.
  - intros Hn i v Hi. assert (tableGet t k = Some v) by (apply tableGet_slot; eauto).
    congruence.
  - intros Habs. destruct (tableGet t k) as [v|] eqn:Hg; [|done].
    apply tableGet_slot in Hg as (i & Hi); [|done]. by destruct (Habs i v).
Qed.

Lemma slots_wf_insert_live l cap k v r d :
  slots_wf cap l ->
  d < cap -> r = probeSlot cap k d -> pathUsed l cap k d ->
  (forall i' v', l !! i' = Some (mkEntry (Some k) v') -> i' = r) ->
  slots_wf cap (<[r := mkEntry (Some k) v]> l).
Proof.
  intros [Hlen Hreach] Hd -> Hpath Honly. split.
  - by rewrite length_insert.
  - intros i k' v' Hi.
    destruct (decide (i = probeSlot cap k d)) as [->|Hne].
    + rewrite list_lookup_insert_eq in Hi
        by (rewrite Hlen; apply probeSlot_lt; lia).
      injection Hi as <- <-. exists d. split; [done|]. split; [done|].
      intros j Hj. destruct (Hpath j Hj) as (e & He & Hu & Hk).
      exists e. split; [|done]. rewrite list_lookup_insert_ne; [done|].
      intros Heq. apply probeSlot_inj in Heq; lia.
    + rewrite list_lookup_insert_ne in Hi by done.
      assert (k' <> k) as Hkk by (intros ->; apply Hne; eauto).
      destruct (Hreach i k' v' Hi) as (d' & Hd' & -> & Hpath').
      exists d'. split; [done|]. split; [done|].
      intros j Hj. destruct (Hpath' j Hj) as (e & He & Hu & Hk).
      destruct (decide (probeSlot cap k' j = probeSlot cap k d)) as [Heq|Hneq].
      * rewrite Heq. rewrite list_lookup_insert_eq
          by (rewrite Hlen; apply probeSlot_lt; lia).
        eexists. split; [done|]. split; [done|]. simpl. congruence.
      * exists e. by rewrite list_lookup_insert_ne.
Qed.

Lemma slots_wf_tombstone l cap i k v :
  slots_wf cap l ->
  l !! i = Some (mkEntry (Some k) v) ->
  slots_wf cap (<[i := tombstoneEntry]> l).
Proof.
  intros [Hlen Hreach] Hi. split.
  - by rewrite length_insert.
  - intros i' k' v' Hi'.
    destruct (decide (i' = i)) as [->|Hne].
    + rewrite list_lookup_insert_eq in Hi' by (eapply lookup_lt_Some; eauto).
      discriminate.
    + rewrite list_lookup_insert_ne in Hi' by done.
      destruct (Hreach i' k' v' Hi') as (d' & Hd' & -> & Hpath').
      exists d'. split; [done|]. split; [done|].
      intros j Hj. destruct (Hpath' j Hj) as (e & He & Hu & Hk).
      destruct (decide (probeSlot cap k' j = i)) as [Heq|Hneq].
      * rewrite Heq. rewrite list_lookup_insert_eq by (eapply lookup_lt_Some; eauto).
        eexists. split; [done|]. split; done.
      * exists e. by rewrite list_lookup_insert_ne.
Qed.

Lemma tableSet_store t k v :
  tableSet t k v =
  store (if 3 * capacity t <? 4 * (count t + 1)
         then adjustCapacity t (GROW_CAPACITY (capacity t)) else t) k v.
Proof. reflexivity. Qed.

(** What [store] does to the slots. *)
Lemma store_slots t k v :
  table_wf t -> 4 * (count t + 1) <= 3 * capacity t ->
  exists r e,
    entries t !! r = Some e /\
    (Object.key e = None \/ Object.key e = Some k) /\
    (forall i' v', entries t !! i' = Some (mkEntry (Some k) v') -> i' = r) /\
    entries (store t k v) = <[r := mkEntry (Some k) v]> (entries t) /\
    capacity (store t k v) = capacity t /\
    table_wf (store t k v).
Proof.
  intros [Hs Hc Hl] Hroom. unfold store.
  destruct (present_dec (entries t) k) as [(i & v0 & Hi)|Habs].
  - rewrite (findEntry_present _ _ _ _ _ Hs Hi), Hi. simpl.
    exists i, (mkEntry (Some k) v0). split; [done|]. split; [by right|].
    split; [intros i' v' Hi'; eapply key_slot_unique; eauto|].
    split; [done|]. split; [done|].
    destruct (wf_reach _ _ Hs i k v0 Hi) as (d & Hd & Hid & Hpath).
    split; simpl.
    + eapply slots_wf_insert_live; eauto.
      intros i' v' Hi'. eapply key_slot_unique; eauto.
    + pose proof (usedCount_insert (entries t) i _ (mkEntry (Some k) v) Hi) as E.
      simpl in E. lia.
    + lia.
  - destruct (findEntry_absent (entries t) (capacity t) k Hs ltac:(lia) Habs)
      as (d & ent & Hd & Hf & Hent & Hk & Hpath).
    rewrite Hf, Hent. exists (probeSlot (capacity t) k d), ent.
    split; [done|]. split; [by left|].
    split; [intros i' v' Hi'; by destruct (Habs i' v')|].
    split; [done|]. split; [done|].
    pose proof (usedCount_insert (entries t) _ _ (mkEntry (Some k) v) Hent) as E.
    unfold usedSlot in E at 1. rewrite Hk in E. simpl in E.
    rewrite Hk. simpl. split; simpl.
    + eapply slots_wf_insert_live; eauto.
      intros i' v' Hi'. by destruct (Habs i' v').
    + destruct (IS_NIL (value ent)); simpl in *; lia.
    + destruct (IS_NIL (value ent)); simpl in *; lia.
Qed.

Lemma insert_slot_other (l : list Entry) r e k v k' v' :
  l !! r = Some e -> (Object.key e = None \/ Object.key e = Some k) -> k <> k' ->
  (exists i, <[r := mkEntry (Some k) v]> l !! i = Some (mkEntry (Some k') v')) <->
  (exists i, l !! i = Some (mkEntry (Some k') v')).
Proof.
  intros Hr He Hkk. split; intros (i & Hi); exists i.
  - destruct (decide (i = r)) as [->|Hne].
    + rewrite list_lookup_insert_eq in Hi by (eapply lookup_lt_Some; eauto). congruence.
    + by rewrite list_lookup_insert_ne in Hi.
  - destruct (decide (i = r)) as [->|Hne].
    + rewrite Hr in Hi. injection Hi as ->. simpl in He. destruct He; congruence.
    + by rewrite list_lookup_insert_ne.
Qed.

Lemma store_get t k v :
  table_wf t -> 4 * (count t + 1) <= 3 * capacity t ->
  forall k', tableGet (store t k v) k' = if decide (k = k') then Some v else tableGet t k'.
Proof.
  intros Hwf Hroom k'.
  destruct (store_slots t k v Hwf Hroom) as (r & e & Hr & He & Honly & Hent & Hcap & Hwf').
  destruct (decide (k = k')) as [<-|Hne].
  - apply tableGet_slot; [done|]. exists r. rewrite Hent.
    apply list_lookup_insert_eq. eapply lookup_lt_Some; eauto.
  - apply option_ext. intros v'. rewrite !tableGet_slot by done. rewrite Hent.
    by apply insert_slot_other with e.
Qed.

Lemma usedCount_replicate n : usedCount (replicate n emptyEntry) = 0.
Proof. induction n as [|n IH]; simpl; [done|]. exact IH. Qed.

Lemma adjInv_init cap' : adjInv cap' [] (replicate cap' emptyEntry, 0).
Proof.
  split; simpl.
  - split; [apply length_replicate|].
    intros i k v Hi. apply lookup_replicate in Hi as [Hi _]. discriminate.
  - by rewrite usedCount_replicate.
  - lia.
  - intros i e Hi _. apply lookup_replicate in Hi as [-> _]. done.
  - intros k v. split.
    + intros (i & Hi). apply lookup_replicate in Hi as [Hi _]. discriminate.
    + intros Hin. by apply elem_of_nil in Hin.
Qed.

Lemma adjInv_step t cap' done e rest acc :
  table_wf t -> count t < cap' ->
  done ++ e :: rest = entries t ->
  adjInv cap' done acc ->
  adjInv cap' (done ++ [e]) (reinsert cap' acc e).
Proof.
  intros [Hs Hc Hl] Hcap Hsplit [Hwf Hcount Hle Hnt Hcontent].
  destruct acc as [fresh n]. simpl in *. unfold reinsert. simpl.
  destruct e as [[k|] v]; simpl.
  - assert (entries t !! length done = Some (mkEntry (Some k) v)) as Hke.
    { rewrite <- Hsplit. by rewrite list_lookup_middle. }
    assert (absent fresh k) as Habs.
    { intros i v' Hi.
      assert (mkEntry (Some k) v' ∈ done) as Hin by (apply Hcontent; eauto).
      apply list_elem_of_lookup in Hin as (i1 & Hi1).
      pose proof (lookup_lt_Some _ _ _ Hi1) as Hlt.
      assert (entries t !! i1 = Some (mkEntry (Some k) v')) as Hi1'.
      { rewrite <- Hsplit. by rewrite lookup_app_l. }
      pose proof (key_slot_unique _ _ _ _ _ _ _ Hs Hi1' Hke). lia. }
    assert (usedCount done + 1 <= usedCount (entries t)) as Hdone.
    { rewrite <- Hsplit, usedCount_app. simpl. lia. }
    destruct (findEntry_absent fresh cap' k Hwf ltac:(lia) Habs)
      as (d & ent & Hd & Hf & Hent & Hk & Hpath).
    rewrite Hf.
    pose proof (Hnt _ _ Hent Hk) as Hempty.
    pose proof (usedCount_insert fresh _ _ (mkEntry (Some k) v) Hent) as E.
    rewrite Hempty in E. simpl in E.
    split; simpl.
    + eapply slots_wf_insert_live; eauto.
      intros i' v' Hi'. by destruct (Habs i' v').
    + lia.
    + rewrite usedCount_app. simpl. lia.
    + intros i e Hi He.
      destruct (decide (i = probeSlot cap' k d)) as [->|Hne].
      * rewrite list_lookup_insert_eq in Hi by (eapply lookup_lt_Some; eauto).
        injection Hi as <-. discriminate.
      * rewrite list_lookup_insert_ne in Hi by done. eauto.
    + intros k' v'. rewrite elem_of_app, list_elem_of_singleton.
      destruct (decide (k = k')) as [<-|Hne].
      * split.
        -- intros (i & Hi).
           destruct (decide (i = probeSlot cap' k d)) as [->|Hni].
           ++ rewrite list_lookup_insert_eq in Hi by (eapply lookup_lt_Some; eauto).
              right. congruence.
           ++ rewrite list_lookup_insert_ne in Hi by done. by destruct (Habs i v').
        -- intros [Hin|Heq].
           ++ apply Hcontent in Hin as (i & Hi). by destruct (Habs i v').
           ++ exists (probeSlot cap' k d). rewrite Heq.
              apply list_lookup_insert_eq. eapply lookup_lt_Some; eauto.
      * rewrite (insert_slot_other fresh _ ent k v k' v') by (auto).
        rewrite Hcontent. split; [auto|]. intros [H|H]; [done|congruence].
  - split; simpl; try done.
    + rewrite usedCount_app. lia.
    + intros k v'. rewrite Hcontent, elem_of_app, list_elem_of_singleton.
      split; [auto|]. intros [H|H]; [done|discriminate].
Qed.

Lemma adjInv_fold t cap' :
  table_wf t -> count t < cap' ->
  forall rest done acc,
    done ++ rest = entries t ->
    adjInv cap' done acc ->
    adjInv cap' (entries t) (fold_left (reinsert cap') rest acc).
Proof.
  intros Hwf Hcap. induction rest as [|e rest IH]; intros done acc Hsplit Hinv.
  - rewrite app_nil_r in Hsplit. by subst.
  - simpl. apply (IH (done ++ [e])).
    + by rewrite <- app_assoc.
    + eapply adjInv_step; eauto.
Qed.

Lemma adjustCapacity_spec t cap' :
  table_wf t -> count t < cap' ->
  let t' := adjustCapacity t cap' in
  slots_wf cap' (entries t') /\
  count t' = usedCount (entries t') /\
  count t' <= count t /\
  capacity t' = cap' /\
  forall k v,
    (exists i, entries t' !! i = Some (mkEntry (Some k) v)) <->
    (exists i, entries t !! i = Some (mkEntry (Some k) v)).
Proof.
  intros Hwf Hcap. unfold adjustCapacity.
  pose proof (adjInv_fold t cap' Hwf Hcap (entries t) [] _ eq_refl (adjInv_init cap'))
    as [H1 H2 H3 H4 H5].
  destruct (fold_left _ _ _) as [fresh n]. simpl in *.
  split; [done|]. split; [done|].
  split; [destruct Hwf as [_ Hc _]; lia|]. split; [done|].
  intros k v. rewrite H5. apply list_elem_of_lookup.
Qed.

Lemma GROW_CAPACITY_bounds cap n :
  4 * n <= 3 * cap ->
  n < GROW_CAPACITY cap /\ 4 * (n + 1) <= 3 * GROW_CAPACITY cap.
Proof.
  unfold GROW_CAPACITY. intros H. destruct (Nat.ltb_spec cap 8); lia.
Qed.

(** [tableSet] keeps the invariant, and a lookup afterwards sees the
    stored value under the key and the old binding elsewhere. *)
Lemma tableSet_wf t k v : table_wf t -> table_wf (tableSet t k v).
Proof.
  intros Hwf. rewrite tableSet_store.
  destruct (Nat.ltb_spec (3 * capacity t) (4 * (count t + 1))) as [Hgrow|Hroom].
  - destruct (GROW_CAPACITY_bounds (capacity t) (count t) (wf_load _ Hwf)) as [Hlt Hroom].
    destruct (adjustCapacity_spec t _ Hwf Hlt) as (H1 & H2 & H3 & H4 & H5).
    set (t1 := adjustCapacity t (GROW_CAPACITY (capacity t))) in *.
    assert (table_wf t1) as Hwf1 by (split; [by rewrite H4 | done | lia]).
    by destruct (store_slots t1 k v Hwf1 ltac:(lia)) as (? & ? & ? & ? & ? & ? & ? & ?).
  - by destruct (store_slots t k v Hwf ltac:(lia)) as (? & ? & ? & ? & ? & ? & ? & ?).
Qed.

Lemma tableGet_tableSet t k v k' :
  table_wf t ->
  tableGet (tableSet t k v) k' = if decide (k = k') then Some v else tableGet t k'.
Proof.
  intros Hwf. rewrite tableSet_store.
  destruct (Nat.ltb_spec (3 * capacity t) (4 * (count t + 1))) as [Hgrow|Hroom].
  - destruct (GROW_CAPACITY_bounds (capacity t) (count t) (wf_load _ Hwf)) as [Hlt Hroom].
    destruct (adjustCapacity_spec t _ Hwf Hlt) as (H1 & H2 & H3 & H4 & H5).
    set (t1 := adjustCapacity t (GROW_CAPACITY (capacity t))) in *.
    assert (table_wf t1) as Hwf1 by (split; [by rewrite H4 | done | lia]).
    rewrite store_get by (done || lia).
    destruct (decide (k = k')); [done|].
    apply option_ext. intros v'. rewrite !tableGet_slot by done. apply H5.
  - by rewrite store_get by (done || lia).
Qed.

Lemma initTable_wf : table_wf initTable.
Proof.
  split; simpl; [|done|lia]. split; [done|]. intros i k v Hi.
  by rewrite lookup_nil in Hi.
Qed.


(** Deleting the key stored in slot [i] leaves a tombstone there and
    touches nothing else. *)
Lemma tableDelete_slot t k i v :
  table_wf t ->
  entries t !! i = Some (mkEntry (Some k) v) ->
  tableDelete t k = mkTable (count t) (capacity t) (<[i := tombstoneEntry]> (entries t)).
Proof.
  intros Hwf Hi. unfold tableDelete.
  by rewrite (tableGetEntry_present t k i v Hwf Hi).
Qed.

Lemma tableDelete_absent t k :
  table_wf t -> tableGet t k = None -> tableDelete t k = t.
Proof.
  intros Hwf Hn. unfold tableDelete.
  apply tableGet_None in Hn; [|done]. by rewrite tableGetEntry_absent.
Qed.

Lemma tableDelete_wf t k : table_wf t -> table_wf (tableDelete t k).
Proof.
  intros Hwf. destruct (present_dec (entries t) k) as [(i & v & Hi)|Habs].
  - rewrite (tableDelete_slot t k i v Hwf Hi). destruct Hwf as [Hs Hc Hl].
    split; simpl; [by eapply slots_wf_tombstone | | done].
    pose proof (usedCount_insert (entries t) i _ tombstoneEntry Hi) as E.
    simpl in E. lia.
  - apply tableGet_None in Habs; [|done]. by rewrite tableDelete_absent.
Qed.

Lemma tableGet_tableDelete t k k' :
  table_wf t ->
  tableGet (tableDelete t k) k' = if decide (k = k') then None else tableGet t k'.
Proof.
  intros Hwf. pose proof (tableDelete_wf t k Hwf) as Hwf'.
  destruct (present_dec (entries t) k) as [(i & v & Hi)|Habs].
  - rewrite (tableDelete_slot t k i v Hwf Hi) in *.
    destruct (decide (k = k')) as [<-|Hne].
    + apply tableGet_None; [done|]. simpl. intros i' v' Hi'.
      destruct (decide (i' = i)) as [->|Hni].
      * rewrite list_lookup_insert_eq in Hi' by (eapply lookup_lt_Some; eauto).
        discriminate.
      * rewrite list_lookup_insert_ne in Hi' by done.
        destruct Hwf as [Hs _ _].
        by pose proof (key_slot_unique _ _ _ _ _ _ _ Hs Hi Hi').
    + apply option_ext. intros v'. rewrite !tableGet_slot by done. simpl.
      split; intros (i' & Hi'); exists i'.
      * destruct (decide (i' = i)) as [->|Hni].
        -- rewrite list_lookup_insert_eq in Hi' by (eapply lookup_lt_Some; eauto).
           discriminate.
        -- by rewrite list_lookup_insert_ne in Hi'.
      * destruct (decide (i' = i)) as [->|Hni]; [congruence|].
        by rewrite list_lookup_insert_ne.
  - apply tableGet_None in Habs; [|done]. rewrite tableDelete_absent by done.
    by destruct (decide (k = k')) as [<-|].
Qed.

Lemma tableDelete_capacity t k : capacity (tableDelete t k) = capacity t.
Proof. unfold tableDelete. by destruct (tableGetEntry t k). Qed.

(** [tableAddAll] over a list of slots with pairwise distinct keys. *)
Lemma tableAddAll_fold (l : list Entry) :
  (forall i i' k v v', l !! i = Some (mkEntry (Some k) v) ->
                       l !! i' = Some (mkEntry (Some k) v') -> i = i') ->
  forall to, table_wf to ->
    let to' := fold_left
      (fun to entry =>
         match Object.key entry with
         | Some k => tableSet to k (value entry)
         | None => to
         end) l to in
    table_wf to' /\
    forall k, tableGet to' k =
      match list_find (fun e => Object.key e = Some k) l with
      | Some (_, e) => Some (value e)
      | None => tableGet to k
      end.
Proof.
  induction l as [|e l IH]; intros Huniq to Hwf; simpl; [done|].
  assert (forall i i' k v v', l !! i = Some (mkEntry (Some k) v) ->
            l !! i' = Some (mkEntry (Some k) v') -> i = i') as Huniq'.
  { intros i i' k v v' H1 H2.
    pose proof (Huniq (S i) (S i') k v v' H1 H2). lia. }
  destruct e as [[k0|] v0]; simpl.
  - destruct (IH Huniq' (tableSet to k0 v0) (tableSet_wf _ _ _ Hwf)) as [Hwf' Hget].
    split; [done|]. intros k. rewrite Hget.
    destruct (decide (Some k0 = Some k)) as [[= <-]|Hne]; simpl.
    + destruct (list_find _ l) as [[i e]|] eqn:Hfind.
      * apply list_find_Some in Hfind as (Hi & Hk & _).
        destruct e as [ke ve]. simpl in Hk. subst ke.
        pose proof (Huniq 0 (S i) k0 v0 ve eq_refl Hi). lia.
      * simpl. rewrite tableGet_tableSet by done. by rewrite decide_True.
    + destruct (list_find _ l) as [[i e]|]; simpl; [done|].
      rewrite tableGet_tableSet by done. rewrite decide_False by congruence. done.
  - destruct (IH Huniq' to Hwf) as [Hwf' Hget].
    split; [done|]. intros k. rewrite Hget.
    by destruct (list_find _ l) as [[i e]|].
Qed.

Lemma tableAddAll_wf from to : table_wf from -> table_wf to -> table_wf (tableAddAll from to).
Proof.
  intros Hf Ht. apply (tableAddAll_fold (entries from)); [|done].
  intros i i' k v v'. destruct Hf as [Hs _ _]. by eapply key_slot_unique.
Qed.


End TableProofs.

(* ================================================================= *)
(** ** The dispatch loop: errors, handlers, globals *)

Module VMProofs.
Import Object TableC Opcode VM Interpret Examples.
Local Open Scope Z_scope.

Lemma aset_eq {A} (a : array A) i x : aset a i x i = x.
Proof. unfold aset. by rewrite Z.eqb_refl. Qed.

Lemma aset_ne {A} (a : array A) i j x : j <> i -> aset a i x j = a j.
Proof. unfold aset. intros H. destruct (Z.eqb_spec j i); [done|reflexivity]. Qed.

(** *** Division by zero *)




(** *** Handlers *)

Lemma push_in_bounds vm v :
  stackTop vm < STACK_MAX -> push vm v = pushRaw vm v.
Proof. unfold push. intros H. destruct (Z.leb_spec STACK_MAX (stackTop vm)); [lia|done]. Qed.

Lemma READ_BYTE_vm r b r1 : READ_BYTE r = Some (b, r1) -> vm r1 = vm r.
Proof.
  unfold READ_BYTE. destruct (offset (r_ip r) <? 0); [discriminate|].
  destruct (base (r_ip r) !! Z.to_nat (offset (r_ip r))); [|discriminate].
  by intros [= _ <-].
Qed.

Lemma READ_SHORT_vm r off r1 : READ_SHORT r = Some (off, r1) -> vm r1 = vm r.
Proof.
  unfold READ_SHORT. destruct (READ_BYTE r) as [[hi ra]|] eqn:Ha; [|discriminate].
  destruct (READ_BYTE ra) as [[lo rb]|] eqn:Hb; [|discriminate].
  intros [= _ <-]. rewrite (READ_BYTE_vm _ _ _ Hb). exact (READ_BYTE_vm _ _ _ Ha).
Qed.





(** C2 at the program [nestedHandlers].  After 8 instructions the
    first command has raised and the inner handler (target 22) has
    fired; both handlers stay registered.  After 3 more the command of
    the handler's body has raised: the error is dispatched to the
    inner handler again -- [ip] is back at 22, not at the target 38 of
    the outer handler -- and so again 3 instructions later. *)
Theorem handler_body_raise_reenters_inner_handler :
  (exists r, after quietHost nestedHandlers 7 = Some r /\
     handlerCount (vm r) = 2 /\
     offset (handlerIP (handlers (vm r) 0)) = 38 /\
     offset (handlerIP (handlers (vm r) 1)) = 22) /\
  position (after quietHost nestedHandlers 8) = Some (22, 2, false, Some (denied "a")) /\
  position (after quietHost nestedHandlers 11) = Some (22, 2, false, Some (denied "b")) /\
  position (after quietHost nestedHandlers 14) = Some (22, 2, false, Some (denied "b")).
Proof.
  split.
  - eexists. split; [vm_compute; reflexivity|]. repeat split; vm_compute; reflexivity.
  - repeat split; vm_compute; reflexivity.
Qed.

(** *** Globals *)

Lemma tableGetEntry_None (t : Table) (k : ObjString) :
  TableC.table_wf t -> tableGet t k = None -> tableGetEntry t k = None.
Proof.
  intros Hwf Hget. apply TableProofs.tableGetEntry_absent; [done|].
  by apply TableProofs.tableGet_None.
Qed.

(** On a miss of the inline cache, [OP_GET_GLOBAL] of a name that is
    not in the table of globals is the runtime error. *)
Lemma op_GET_GLOBAL_miss (r r1 : Regs) (name : ObjString) :
  READ_STRING r = Some (name, r1) ->
  icHit (vm r1) name = false ->
  TableC.table_wf (globals (vm r1)) ->
  tableGet (globals (vm r1)) name = None ->
  op_GET_GLOBAL r = fail r1 (lit "Undefined variable '" ++ untilNul name ++ lit "'.").
Proof.
  intros Hread Hmiss Hwf Hget. unfold op_GET_GLOBAL. rewrite Hread, Hmiss.
  by rewrite (tableGetEntry_None _ _ Hwf Hget).
Qed.

(** On a miss of the inline cache, [OP_SET_GLOBAL] inserts the name. *)
Lemma op_SET_GLOBAL_miss (r r1 : Regs) (name : ObjString) :
  READ_STRING r = Some (name, r1) ->
  icHit (vm r1) name = false ->
  TableC.table_wf (globals (vm r1)) ->
  exists r',
    op_SET_GLOBAL r = Next r' /\
    tableGet (globals (vm r')) name = Some (top (vm r1) (-1)) /\
    stderr (vm r') = stderr (vm r1).
Proof.
  intros Hread Hmiss Hwf. unfold op_SET_GLOBAL. rewrite Hread, Hmiss. cbn zeta.
  set (g' := tableSet (globals (vm r1)) name (top (vm r1) (-1))).
  assert (tableGet g' name = Some (top (vm r1) (-1))) as Hget.
  { unfold g'. rewrite TableProofs.tableGet_tableSet by done. by rewrite decide_True. }
  assert (TableC.table_wf g') as Hwf' by by apply TableProofs.tableSet_wf.
  apply (TableProofs.tableGet_slot _ _ _ Hwf') in Hget as Hslot. destruct Hslot as [i Hi].
  cbn [globals set_globals]. fold g'.
  rewrite (TableProofs.tableGetEntry_present _ _ _ _ Hwf' Hi).
  eexists. split; [reflexivity|]. split; [exact Hget|reflexivity].
Qed.

(** C9 at the programs [importThenRead] and [importThenWrite], with
    [lib.glipt] as the only file.  The module has read its global
    [greet], so the inline cache holds the slot of [greet]; the import
    has then deleted [greet] from the globals.  The read of the missing
    name that follows hits the cache: it pushes the value left in the
    dead slot and the script ends without an error.  The write hits
    the cache too: the value goes into the dead slot and [greet] is
    still missing from the table. *)
Theorem stale_cache_after_import :
  (exists r r1 r',
     after libHost importThenRead 1 = Some r /\
     tableGet (globals (vm r)) (lit "greet") = None /\
     READ_BYTE r = Some (byteOf OP_GET_GLOBAL, r1) /\
     READ_STRING r1 = Some (lit "greet", r') /\
     icHit (vm r') (lit "greet") = true /\
     exists r2, op_GET_GLOBAL r1 = Next r2 /\
                top (vm r2) (-1) = BOOL_VAL true /\ stderr (vm r2) = []) /\
  (exists vm', interpret libHost 100 Interpret.initVM importThenRead = Some (INTERPRET_OK, vm') /\
               stderr vm' = []) /\
  (exists r r1 r2,
     after libHost importThenWrite 2 = Some r /\
     tableGet (globals (vm r)) (lit "greet") = None /\
     READ_BYTE r = Some (byteOf OP_SET_GLOBAL, r1) /\
     op_SET_GLOBAL r1 = Next r2 /\
     tableGet (globals (vm r2)) (lit "greet") = None).
Proof.
  split; [|split].
  - do 3 eexists. split; [vm_compute; reflexivity|].
    split; [vm_compute; reflexivity|].
    split; [vm_compute; reflexivity|].
    split; [vm_compute; reflexivity|].
    split; [vm_compute; reflexivity|].
    eexists. split; [vm_compute; reflexivity|]. split; vm_compute; reflexivity.
  - eexists. split; vm_compute; reflexivity.
  - do 3 eexists. split; [vm_compute; reflexivity|].
    split; [vm_compute; reflexivity|].
    split; [vm_compute; reflexivity|].
    split; vm_compute; reflexivity.
Qed.

End VMProofs.

(* ================================================================= *)
(** ** [OP_IMPORT]: the diff of the globals *)

Module ImportProofs.
Import Object TableC VM.
Local Open Scope nat_scope.




Section Diff.
Variables existingGlobals g3 : Table.
Hypothesis g3_wf : table_wf g3.






End Diff.

Lemma READ_STRING_vm r name r1 : READ_STRING r = Some (name, r1) -> vm r1 = vm r.
Proof.
  unfold READ_STRING, READ_CONSTANT.
  destruct (READ_BYTE r) as [[i ra]|] eqn:Ha; [|discriminate].
  destruct (r_constants ra !! Z.to_nat i) as [[| | |[]]|]; try discriminate.
  intros [= _ <-]. exact (VMProofs.READ_BYTE_vm _ _ _ Ha).
Qed.





End ImportProofs.

(* ================================================================= *)
(** ** The compiler: loops and [continue] *)

Module CompilerProofs.
Import Object TableC Opcode Compiler.
Local Open Scope Z_scope.

Lemma keeps_refl c : keeps c c.
Proof. split; [done|lia]. Qed.

Lemma keeps_trans c1 c2 c3 : keeps c1 c2 -> keeps c2 c3 -> keeps c1 c3.
Proof. unfold keeps. intros [? ?] [? ?]. split; [congruence|lia]. Qed.

Lemma grows_refl c : grows c c.
Proof. unfold grows. lia. Qed.

Lemma grows_trans c1 c2 c3 : grows c1 c2 -> grows c2 c3 -> grows c1 c3.
Proof. unfold grows. lia. Qed.

Lemma keeps_grows c c' : keeps c c' -> grows c c'.
Proof. by intros [_ ?]. Qed.

Lemma codeCount_emitByte c b line : codeCount (emitByte c b line) = codeCount c + 1.
Proof. unfold codeCount. cbn. rewrite length_app. cbn. lia. Qed.

Lemma keeps_emitByte c b line : keeps c (emitByte c b line).
Proof. split; [done|]. rewrite codeCount_emitByte. lia. Qed.

Lemma keeps_emitOp c op line : keeps c (emitOp c op line).
Proof. apply keeps_emitByte. Qed.

Lemma keeps_emitBytes c b1 b2 line : keeps c (emitBytes c b1 b2 line).
Proof. unfold emitBytes. eapply keeps_trans; apply keeps_emitByte. Qed.

Lemma keeps_report c fatal message : keeps c (report c fatal message).
Proof. split; [done|]. unfold codeCount. cbn. lia. Qed.

Lemma keeps_emitJump c op line : keeps c (fst (emitJump c op line)).
Proof.
  unfold emitJump. cbn [fst].
  eapply keeps_trans; [eapply keeps_trans; [apply keeps_emitOp|]|]; apply keeps_emitByte.
Qed.

Lemma keeps_patchJump c off : keeps c (patchJump c off).
Proof.
  unfold patchJump. destruct (65535 <? _); [apply keeps_report|].
  split; [done|]. unfold codeCount. cbn. rewrite !length_insert. lia.
Qed.

Lemma keeps_emitLoop c start line : keeps c (emitLoop c start line).
Proof.
  unfold emitLoop.
  eapply keeps_trans; [eapply keeps_trans; [eapply keeps_trans; [apply keeps_emitOp|]|]|];
    [|apply keeps_emitByte|apply keeps_emitByte].
  destruct (65535 <? _); [apply keeps_report|apply keeps_refl].
Qed.

Lemma keeps_makeConstant c v : keeps c (fst (makeConstant c v)).
Proof.
  unfold makeConstant. destruct (addConstant (chunk c) v) as [ch k] eqn:E.
  assert (code ch = code (chunk c)) as Hcode.
  { unfold addConstant in E.
    repeat match type of E with
           | context [match ?x with _ => _ end] => destruct x
           end; by injection E as <- _. }
  destruct (255 <? k); cbn [fst]; (split; [done|]); unfold codeCount; cbn; rewrite Hcode; lia.
Qed.

Lemma keeps_identifierConstant c name : keeps c (fst (identifierConstant c name)).
Proof. apply keeps_makeConstant. Qed.

Lemma keeps_pair c (p : Compiler * Z) c1 k : keeps c (fst p) -> p = (c1, k) -> keeps c c1.
Proof. by intros H ->. Qed.

Lemma keeps_emitConstant c v line : keeps c (emitConstant c v line).
Proof.
  unfold emitConstant. pose proof (keeps_makeConstant c v) as H.
  destruct (makeConstant c v) as [c1 k]. eapply keeps_trans; [exact H|apply keeps_emitBytes].
Qed.

Lemma keeps_beginScope c : keeps c (beginScope c).
Proof. split; [done|]. unfold codeCount. cbn. lia. Qed.

Lemma keeps_popLocals rlocals line : forall c, keeps c (popLocals c rlocals line).
Proof.
  induction rlocals as [|l rest IH]; intros c; cbn [popLocals].
  - split; [done|]. unfold codeCount. cbn. lia.
  - destruct (scopeDepth c <? depth l).
    + eapply keeps_trans; [apply keeps_emitOp|apply IH].
    + split; [done|]. unfold codeCount. cbn. lia.
Qed.

Lemma keeps_endScope c line : keeps c (endScope c line).
Proof.
  unfold endScope. eapply keeps_trans; [|apply keeps_popLocals].
  split; [done|]. unfold codeCount. cbn. lia.
Qed.

Lemma keeps_addLocal c name : keeps c (addLocal c name).
Proof.
  unfold addLocal. destruct (localCount c =? 256); [apply keeps_report|].
  split; [done|]. unfold codeCount. cbn. lia.
Qed.

Lemma keeps_patchBreaks c : keeps c (patchBreaks c).
Proof.
  unfold patchBreaks. generalize (seq 0 (Z.to_nat (breakCount c))). intros l.
  assert (forall c0, keeps c0 (fold_left (fun c i => patchJump c (breakJumps c (Z.of_nat i))) l c0))
    as H; [|apply H].
  induction l as [|i l IH]; intros c0; cbn [fold_left]; [apply keeps_refl|].
  eapply keeps_trans; [apply keeps_patchJump|apply IH].
Qed.

Lemma keeps_compileLiteral c line v : keeps c (compileLiteral c line v).
Proof. destruct v; cbn [compileLiteral]; first [apply keeps_emitConstant|apply keeps_emitOp]. Qed.

Lemma keeps_emitVariable c line name forGet : keeps c (emitVariable c line name forGet).
Proof.
  unfold emitVariable. destruct (negb _); [apply keeps_emitBytes|].
  unfold identifierConstant. pose proof (keeps_makeConstant c (OBJ_VAL (OBJ_STRING name))) as H.
  destruct (makeConstant c _) as [c1 k]. eapply keeps_trans; [exact H|apply keeps_emitBytes].
Qed.

Lemma keeps_set_loop c jumps n : keeps c (set_loop c (loopStart c) (loopDepth c) jumps n).
Proof. split; [done|]. unfold codeCount. cbn. lia. Qed.

Lemma grows_set_loop c start depth_ jumps n : grows c (set_loop c start depth_ jumps n).
Proof. unfold grows, codeCount. cbn. lia. Qed.

(** The end of a loop: the fields of the enclosing loop are put back. *)
Lemma keeps_restore c x depth_ jumps n :
  grows c x -> keeps c (set_loop x (loopStart c) depth_ jumps n).
Proof. intros H. split; [done|exact H]. Qed.

Lemma keeps_compileNodes (f : AstNode -> Compiler -> Compiler) (nodes : list AstNode) :
  Forall (fun node => forall c, keeps c (f node c)) nodes ->
  forall c, keeps c (compileNodes f nodes c).
Proof.
  unfold compileNodes. induction 1 as [|node nodes Hnode _ IH]; intros c; cbn [fold_left].
  - apply keeps_refl.
  - eapply keeps_trans; [apply Hnode|apply IH].
Qed.

(** One step of a proof that a state reached through the helpers of
    the compiler has no less code than [c]. *)
Ltac grows_step :=
  match goal with
  | |- grows ?c ?c => apply grows_refl
  | E : makeConstant ?x ?v = (?c1, _) |- grows ?c ?c1 =>
      apply (grows_trans c x);
      [|apply keeps_grows; exact (keeps_pair _ _ _ _ (keeps_makeConstant x v) E)]
  | E : identifierConstant ?x ?v = (?c1, _) |- grows ?c ?c1 =>
      apply (grows_trans c x);
      [|apply keeps_grows; exact (keeps_pair _ _ _ _ (keeps_identifierConstant x v) E)]
  | |- grows ?c (emitOp ?x _ _) => apply (grows_trans c x); [|apply keeps_grows, keeps_emitOp]
  | |- grows ?c (emitByte ?x _ _) => apply (grows_trans c x); [|apply keeps_grows, keeps_emitByte]
  | |- grows ?c (emitBytes ?x _ _ _) =>
      apply (grows_trans c x); [|apply keeps_grows, keeps_emitBytes]
  | |- grows ?c (emitLoop ?x _ _) => apply (grows_trans c x); [|apply keeps_grows, keeps_emitLoop]
  | |- grows ?c (emitConstant ?x _ _) =>
      apply (grows_trans c x); [|apply keeps_grows, keeps_emitConstant]
  | |- grows ?c (emitVariable ?x _ _ _) =>
      apply (grows_trans c x); [|apply keeps_grows, keeps_emitVariable]
  | |- grows ?c (compileLiteral ?x _ _) =>
      apply (grows_trans c x); [|apply keeps_grows, keeps_compileLiteral]
  | |- grows ?c (patchJump ?x _) => apply (grows_trans c x); [|apply keeps_grows, keeps_patchJump]
  | |- grows ?c (patchBreaks ?x) => apply (grows_trans c x); [|apply keeps_grows, keeps_patchBreaks]
  | |- grows ?c (beginScope ?x) => apply (grows_trans c x); [|apply keeps_grows, keeps_beginScope]
  | |- grows ?c (endScope ?x _) => apply (grows_trans c x); [|apply keeps_grows, keeps_endScope]
  | |- grows ?c (addLocal ?x _) => apply (grows_trans c x); [|apply keeps_grows, keeps_addLocal]
  | |- grows ?c (report ?x _ _) => apply (grows_trans c x); [|apply keeps_grows, keeps_report]
  | |- grows ?c (set_loop ?x _ _ _ _) => apply (grows_trans c x); [|apply grows_set_loop]
  | H : forall c, keeps c (compileNode ?n c) |- grows ?c (compileNode ?n ?x) =>
      apply (grows_trans c x); [|apply keeps_grows, H]
  | |- grows ?c (if ?b then _ else _) => destruct b
  | |- grows ?c (match ?o with _ => _ end) => destruct o
  end.

(** The same for [keeps], through the helpers that leave the loop
    fields alone. *)
Ltac keeps_step :=
  match goal with
  | |- keeps ?c ?c => apply keeps_refl
  | E : makeConstant ?x ?v = (?c1, _) |- keeps ?c ?c1 =>
      apply (keeps_trans c x);
      [|exact (keeps_pair _ _ _ _ (keeps_makeConstant x v) E)]
  | E : identifierConstant ?x ?v = (?c1, _) |- keeps ?c ?c1 =>
      apply (keeps_trans c x);
      [|exact (keeps_pair _ _ _ _ (keeps_identifierConstant x v) E)]
  | |- keeps ?c (emitOp ?x _ _) => apply (keeps_trans c x); [|apply keeps_emitOp]
  | |- keeps ?c (emitByte ?x _ _) => apply (keeps_trans c x); [|apply keeps_emitByte]
  | |- keeps ?c (emitBytes ?x _ _ _) => apply (keeps_trans c x); [|apply keeps_emitBytes]
  | |- keeps ?c (emitLoop ?x _ _) => apply (keeps_trans c x); [|apply keeps_emitLoop]
  | |- keeps ?c (emitConstant ?x _ _) => apply (keeps_trans c x); [|apply keeps_emitConstant]
  | |- keeps ?c (emitVariable ?x _ _ _) => apply (keeps_trans c x); [|apply keeps_emitVariable]
  | |- keeps ?c (compileLiteral ?x _ _) => apply (keeps_trans c x); [|apply keeps_compileLiteral]
  | |- keeps ?c (patchJump ?x _) => apply (keeps_trans c x); [|apply keeps_patchJump]
  | |- keeps ?c (beginScope ?x) => apply (keeps_trans c x); [|apply keeps_beginScope]
  | |- keeps ?c (endScope ?x _) => apply (keeps_trans c x); [|apply keeps_endScope]
  | |- keeps ?c (addLocal ?x _) => apply (keeps_trans c x); [|apply keeps_addLocal]
  | |- keeps ?c (report ?x _ _) => apply (keeps_trans c x); [|apply keeps_report]
  | H : forall c, keeps c (compileNode ?n c) |- keeps ?c (compileNode ?n ?x) =>
      apply (keeps_trans c x); [|apply H]
  | |- keeps ?c (if ?b then _ else _) => destruct b
  | |- keeps ?c (match ?o with _ => _ end) => destruct o
  end.

(** The pairs that the helpers return, named. *)
Ltac name_pairs :=
  unfold emitJump; cbn beta iota zeta;
  repeat (match goal with
          | |- context [let '(_, _) := ?p in _] =>
              let E := fresh "E" in destruct p eqn:E
          end; cbn beta iota zeta).

(** A list of statements, when each of them keeps the loop, and so
    do the bodies of the handlers among them. *)
Lemma keeps_compileStatements (f : AstNode -> Compiler -> Compiler) (nodes : list AstNode) :
  Forall (fun node => forall c, keeps c (f node c)) nodes ->
  Forall (fun node =>
            match node with
            | NODE_ON_FAILURE _ body =>
                (forall c, keeps c (f body c)) /\
                match body with
                | NODE_BLOCK _ statements =>
                    Forall (fun node => forall c, keeps c (f node c)) statements
                | _ => True
                end
            | _ => True
            end) nodes ->
  forall c, keeps c (compileStatements f nodes c).
Proof.
  induction 1 as [|n nodes Hn Hnodes IH]; intros Hh c; [apply keeps_refl|].
  apply Forall_cons in Hh as [Hbody Hh].
  pose proof (keeps_compileNodes f nodes Hnodes) as Hrest.
  destruct n; try (cbn [compileStatements]; eapply keeps_trans; [apply Hn|by apply IH]).
  cbn [compileStatements].
  change (emitJump c OP_PUSH_HANDLER line)
    with (fst (emitJump c OP_PUSH_HANDLER line), codeCount (fst (emitJump c OP_PUSH_HANDLER line)) - 2).
  cbn beta iota zeta.
  match goal with |- context [emitJump ?x OP_JUMP line] =>
    change (emitJump x OP_JUMP line)
      with (fst (emitJump x OP_JUMP line), codeCount (fst (emitJump x OP_JUMP line)) - 2)
  end.
  cbn beta iota zeta.
  eapply keeps_trans; [apply keeps_emitJump|].
  eapply keeps_trans; [apply Hrest|].
  eapply keeps_trans; [apply keeps_emitOp|].
  eapply keeps_trans; [apply keeps_emitJump|].
  eapply keeps_trans; [apply keeps_patchJump|].
  eapply keeps_trans; [apply keeps_beginScope|].
  eapply keeps_trans; [apply keeps_addLocal|].
  eapply keeps_trans; [|eapply keeps_trans; [apply keeps_endScope|apply keeps_patchJump]].
  destruct Hbody as [Hb Hl]. destruct n; try apply Hb. by apply keeps_compileNodes.
Qed.

Lemma nodeSize_elem (x : AstNode) (l : list AstNode) :
  x ∈ l -> (nodeSize x <= list_sum (map nodeSize l))%nat.
Proof. induction 1; simpl; lia. Qed.

(** What an induction on the size of the tree gives for the children
    of a node, and for the bodies of the handlers among them. *)
Ltac smaller IH := intros; apply IH; cbn [nodeSize] in *; lia.

Ltac children IH :=
  repeat match goal with
         | n : AstNode |- _ =>
             lazymatch goal with
             | _ : forall c, keeps c (compileNode n c) |- _ => fail
             | _ => assert (forall c, keeps c (compileNode n c)) by smaller IH
             end
         | l : list AstNode |- _ =>
             lazymatch goal with
             | _ : Forall (fun node => forall c, keeps c (compileNode node c)) l |- _ => fail
             | _ =>
                 assert (Forall (fun node => forall c, keeps c (compileNode node c)) l)
                   by (apply Forall_forall; intros x Hx; apply nodeSize_elem in Hx;
                       smaller IH);
                 assert (Forall (fun node =>
                           match node with
                           | NODE_ON_FAILURE _ body =>
                               (forall c, keeps c (compileNode body c)) /\
                               match body with
                               | NODE_BLOCK _ statements =>
                                   Forall (fun node => forall c, keeps c (compileNode node c))
                                     statements
                               | _ => True
                               end
                           | _ => True
                           end) l)
                   by (apply Forall_forall; intros x Hx; apply nodeSize_elem in Hx;
                       destruct x; try exact I;
                       split; [smaller IH|];
                       match goal with |- match ?b with _ => _ end => destruct b end;
                       try exact I;
                       apply Forall_forall; intros y Hy; apply nodeSize_elem in Hy;
                       smaller IH)
             end
         end.

Ltac lists_step :=
  match goal with
  | H : Forall _ ?l |- keeps ?c (compileNodes compileNode ?l ?x) =>
      apply (keeps_trans c x); [|apply (keeps_compileNodes _ _ H)]
  | |- keeps ?c (compileStatements compileNode ?l ?x) =>
      apply (keeps_trans c x); [|apply keeps_compileStatements; assumption]
  | H : Forall _ ?l |- grows ?c (compileNodes compileNode ?l ?x) =>
      apply (grows_trans c x); [|apply keeps_grows, (keeps_compileNodes _ _ H)]
  | |- grows ?c (compileStatements compileNode ?l ?x) =>
      apply (grows_trans c x); [|apply keeps_grows, keeps_compileStatements; assumption]
  end.

Lemma keeps_compileNode_sized (k : nat) :
  forall node, (nodeSize node < k)%nat -> forall c, keeps c (compileNode node c).
Proof.
  induction k as [|k IH]; intros node Hk c; [lia|].
  destruct node; cbn [compileNode]; name_pairs; children IH.
  all: try (repeat first [lists_step | keeps_step | progress children IH]; fail).
  all: try (apply keeps_restore;
            repeat first [lists_step | grows_step | progress children IH]; fail).
  repeat keeps_step.
  apply (keeps_restore c). repeat grows_step.
Qed.

(** Every node leaves the enclosing loop of the compiler as it found
    it, and removes no code. *)
Lemma keeps_compileNode (node : AstNode) (c : Compiler) : keeps c (compileNode node c).
Proof. exact (keeps_compileNode_sized (S (nodeSize node)) node (Nat.lt_succ_diag_r _) c). Qed.

(** *** [continue] *)

Lemma code_emitByte c b line : code (chunk (emitByte c b line)) = code (chunk c) ++ [b].
Proof. reflexivity. Qed.


(** The two bytes of a jump operand give the operand back. *)
Lemma operand_bytes (o : Z) :
  0 <= o <= 65535 ->
  Z.lor (Z.shiftl (Z.land (Z.shiftr o 8) 255) 8) (Z.land o 255) = o.
Proof.
  intros Ho. apply Z.bits_inj'. intros n Hn.
  rewrite Z.lor_spec, !Z.land_spec.
  change 255 with (Z.ones 8).
  destruct (Z.lt_ge_cases n 8) as [Hlow|Hhigh].
  - rewrite Z.shiftl_spec_low by lia. rewrite Z.ones_spec_low by lia.
    by rewrite andb_true_r.
  - rewrite Z.shiftl_spec by lia. rewrite Z.land_spec, Z.shiftr_spec by lia.
    replace (n - 8 + 8) with n by lia.
    rewrite (Z.ones_spec_high 8 n) by lia. rewrite andb_false_r, orb_false_r.
    destruct (Z.lt_ge_cases n 16) as [Hmid|Htop].
    + rewrite Z.ones_spec_low by lia. by rewrite andb_true_r.
    + rewrite Z.ones_spec_high by lia. rewrite andb_false_r.
      symmetry. destruct (Z.eq_dec o 0) as [->|Hne]; [apply Z.bits_0|].
      apply Z.bits_above_log2; [lia|].
      assert (Z.log2 o < 16); [|lia]. apply Z.log2_lt_pow2; lia.
Qed.






(** The run of [for x in [1, 2] { continue }]: the loop starts at
    offset 9 and the [continue] is the [OP_LOOP] at offset 28.  Every
    twelve instructions the run is back at the start of the loop with
    the index local 0 and [x] the first element: the increment is
    never reached. *)
Lemma continue_example :
  let view n := Examples.loopView (Examples.after Examples.quietHost Examples.forContinue n) in
  let one := NUMBER_VAL (double_of_int 1) in
  let zero := NUMBER_VAL (double_of_int 0) in
  view 5%nat = Some (9, zero, NIL_VAL) /\
  view 16%nat = Some (28, zero, one) /\
  view 17%nat = Some (9, zero, one) /\
  view 29%nat = Some (9, zero, one) /\
  view 41%nat = Some (9, zero, one).
Proof. cbv zeta. repeat split; vm_compute; reflexivity. Qed.

End CompilerProofs.

(* ================================================================= *)
(** ** dataformat.c: the round trip of canonical texts *)

Module JsonProofs.
Import Object TableC Dataformat Canonical.
Local Open Scope Z_scope.

(** *** Integers as doubles *)

Lemma int_bits (n : Z) :
  INT_MIN <= n <= INT_MAX -> n <> 0 -> 1 <= Z.log2 (Z.abs n) + 1 <= 32.
Proof.
  unfold INT_MIN, INT_MAX. intros Hn H0.
  pose proof (Z.log2_nonneg (Z.abs n)).
  assert (Z.log2 (Z.abs n) < 32); [|lia].
  apply Z.log2_lt_pow2; lia.
Qed.

Lemma double_to_int_of_int (n : Z) :
  INT_MIN <= n <= INT_MAX -> double_to_int (double_of_int n) = Some n.
Proof.
  intros Hn. unfold double_of_int.
  destruct (Z.eqb_spec n 0) as [->|H0]; [done|].
  pose proof (int_bits n Hn H0) as Hd.
  set (d := Z.log2 (Z.abs n) + 1) in *.
  unfold double_to_int.
  destruct (Z.leb_spec 0 (d - 53)) as [|_]; [lia|].
  replace (- (d - 53)) with (53 - d) by lia.
  assert (0 < Z.abs n * 2 ^ (53 - d)) as Hpos by (apply Z.mul_pos_pos; lia).
  rewrite Z2Pos.id by done.
  rewrite Z.div_mul by lia.
  assert ((if n <? 0 then - Z.abs n else Z.abs n) = n) as ->
    by (destruct (Z.ltb_spec n 0); lia).
  destruct (Z.leb_spec INT_MIN n); [|lia].
  destruct (Z.leb_spec n INT_MAX); [done|lia].
Qed.




(** *** The decimal digits of an integer *)




Lemma span_all (f : ascii -> bool) (l post : list ascii) :
  forallb f l = true ->
  match post with [] => True | c :: _ => f c = false end ->
  span f (l ++ post) = length l.
Proof.
  intros Hl Hpost. induction l as [|c l IH].
  - destruct post as [|c post]; [done|]. cbn. by rewrite Hpost.
  - cbn in Hl. apply andb_prop in Hl as [Hc Hl]. cbn. by rewrite Hc, IH.
Qed.

(** *** The parser at a position *)


Lemma rest_lookup (p : JSONParser) (k : nat) : source p !! (pos p + k)%nat = rest p !! k.
Proof. unfold rest. by rewrite lookup_drop. Qed.

Lemma rest_drop (p : JSONParser) (k : nat) : drop (pos p + k) (source p) = drop k (rest p).
Proof. unfold rest. rewrite drop_drop. done. Qed.

Lemma rest_head (p : JSONParser) : source p !! pos p = head (rest p).
Proof.
  rewrite <- (Nat.add_0_r (pos p)) at 1. rewrite rest_lookup. by destruct (rest p).
Qed.

Lemma follows_not_digit (post : list ascii) :
  follows post -> match post with [] => True | c :: _ => isdigit c = false end.
Proof. destruct post as [|c post]; [done|]. by intros [->|[->| ->]]. Qed.


(** *** Strings *)







Lemma jsonMatch_head (p : JSONParser) (c : ascii) (tl : list ascii) :
  rest p = c :: tl -> jsonMatch p c = (setPos p (S (pos p)), true).
Proof.
  intros H. unfold jsonMatch. rewrite rest_head, H. cbn.
  by rewrite bool_decide_eq_true_2.
Qed.



(** *** The parts of a canonical text *)







(** *** The serializer *)

Section Writer.
Variable host : Host.






End Writer.

(** *** The parser on the texts of values *)


Lemma valueStart_not (c x : ascii) :
  valueStart c -> valueStart x = valueStart x -> isdigit x = false ->
  x <> dquote -> x <> "-"%char -> x <> "["%char -> x <> "{"%char ->
  x <> "t"%char -> x <> "f"%char -> x <> "n"%char -> c <> x.
Proof.
  intros Hc _ Hd H1 H2 H3 H4 H5 H6 H7 ->.
  destruct Hc as [?|[?|[?|[?|[?|[?|[?|?]]]]]]]; congruence.
Qed.

Lemma valueStart_nonspace (c : ascii) : valueStart c -> isspace c = false.
Proof.
  intros Hc. unfold isspace.
  rewrite !bool_decide_eq_false_2; [done| | | |];
    by apply (valueStart_not c _ Hc eq_refl).
Qed.

Lemma span_nonspace (l : list ascii) :
  match l with [] => True | c :: _ => isspace c = false end -> span isspace l = O.
Proof. destruct l as [|c l]; [done|]. cbn. by intros ->. Qed.

Lemma skip_none (p : JSONParser) :
  match rest p with [] => True | c :: _ => isspace c = false end ->
  jsonSkipWhitespace p = setPos p (pos p).
Proof.
  intros H. unfold jsonSkipWhitespace. fold (rest p).
  by rewrite (span_nonspace _ H), Nat.add_0_r.
Qed.












Section Loops.
Variable parseValue : JSONParser -> option (JSONParser * Value).




End Loops.

Section Parser.
Variable host : Host.

Lemma jsonPeek_rest (p : JSONParser) : jsonPeek p = default zero (head (rest p)).
Proof. unfold jsonPeek. by rewrite rest_head. Qed.


End Parser.



(** The serializer writes the solidus as itself, so a text that escapes
    it is not reproduced. *)
Lemma escaped_solidus_is_not_reproduced :
  roundTrip Examples.quietHost escapedSolidus =
    Some (OBJ_VAL (OBJ_STRING [dquote; "/"%char; dquote])) /\
  roundTrip Examples.quietHost escapedSolidus <> Some (OBJ_VAL (OBJ_STRING escapedSolidus)).
Proof. split; [vm_compute; reflexivity|]. vm_compute. discriminate. Qed.



End JsonProofs.

(* ================================================================= *)
(** ** permission.c: more on the glob matcher and the permission set *)

Module PermissionExtras.
Import Permission PermissionProofs.

Local Abbreviation starFree pattern := (forall c, In c pattern -> c <> "*"%char).

Lemma starFree_cons c pattern : starFree (c :: pattern) -> c <> "*"%char /\ starFree pattern.
Proof. intros H. split; [apply H; by left | intros x Hx; apply H; by right]. Qed.

Lemma globSpec_literal pattern : forall text,
  starFree pattern -> (globSpec pattern text <-> text = pattern).
Proof.
  induction pattern as [|c pattern IH]; intros text Hfree.
  - split; [intros H; by inversion H | intros ->; constructor].
  - apply starFree_cons in Hfree as [Hc Hfree]. split.
    + intros H. apply globSpec_byte_inv in H as (text' & -> & H); [|exact Hc].
      f_equal. by apply IH.
    + intros ->. constructor; [exact Hc|]. by apply IH.
Qed.

(** X1.  A pattern without a star matches one text only, the pattern
    itself: [globMatch] has no other wildcard and does no prefix
    matching. *)
Theorem globMatch_without_star_is_equality (pattern text : cstring) :
  starFree pattern -> (globMatch pattern text = true <-> text = pattern).
Proof. intros Hfree. rewrite globMatch_globSpec. by apply globSpec_literal. Qed.

Lemma globMatch_without_star_is_equality_witness :
  starFree (lit "git") /\
  (globMatch (lit "git") (lit "git") = true <-> lit "git" = lit "git").
Proof.
  assert (starFree (lit "git")) as Hfree.
  { intros c [<-|[<-|[<-|[]]]]; discriminate. }
  split; [exact Hfree|].
  apply (globMatch_without_star_is_equality (lit "git") (lit "git") Hfree).
Defined.

Lemma globSpec_prefix_star pattern : forall text,
  starFree pattern ->
  (globSpec (pattern ++ ["*"%char]) text <-> exists suffix, text = pattern ++ suffix).
Proof.
  induction pattern as [|c pattern IH]; intros text Hfree; cbn [app].
  - split; [intros _; by exists text|]. intros _.
    rewrite <- (app_nil_r text). constructor. constructor.
  - apply starFree_cons in Hfree as [Hc Hfree]. split.
    + intros H. apply globSpec_byte_inv in H as (text' & -> & H); [|exact Hc].
      apply IH in H as [suffix ->]; [|exact Hfree]. by exists suffix.
    + intros [suffix ->]. cbn [app]. constructor; [exact Hc|].
      apply IH; [exact Hfree|]. by exists suffix.
Qed.

(** X2.  A pattern made of a text without a star and one star at its
    end matches exactly the texts that start with that text; the text
    itself is one of them. *)
Theorem globMatch_trailing_star_is_prefix (pattern text : cstring) :
  starFree pattern ->
  (globMatch (pattern ++ ["*"%char]) text = true <-> exists suffix, text = pattern ++ suffix).
Proof. intros Hfree. rewrite globMatch_globSpec. by apply globSpec_prefix_star. Qed.

Lemma globMatch_trailing_star_is_prefix_witness :
  starFree (lit "git ") /\
  (globMatch (lit "git " ++ ["*"%char]) (lit "git status") = true <->
   exists suffix, lit "git status" = lit "git " ++ suffix).
Proof.
  assert (starFree (lit "git ")) as Hfree.
  { intros c [<-|[<-|[<-|[<-|[]]]]]; discriminate. }
  split; [exact Hfree|].
  apply (globMatch_trailing_star_is_prefix (lit "git ") (lit "git status") Hfree).
Defined.

(** The loop of [hasPermission] over the entries. *)
Lemma hasPermission_app (ps qs : list Permission) (cap cap' cap'' : Z) ty text :
  hasPermission (mkPermissionSet (ps ++ qs) cap false) ty text =
  hasPermission (mkPermissionSet ps cap' false) ty text ||
  hasPermission (mkPermissionSet qs cap'' false) ty text.
Proof.
  unfold hasPermission. cbn [allowAll permissions].
  induction ps as [|p ps IH]; [done|]. cbn [app].
  destruct (PermissionType_eqb (type p) ty); [|exact IH].
  destruct (globMatch (target p) text); [done | exact IH].
Qed.

Lemma hasPermission_grant (set : PermissionSet) (ty ty' : PermissionType)
    (tgt : list ascii) (len : Z) (text : cstring) :
  0 <= len <= Z.of_nat (length tgt) ->
  hasPermission (addPermission set ty tgt len) ty' text =
  hasPermission set ty' text ||
  (PermissionType_eqb ty ty' && globMatch (untilNul (take (Z.to_nat len) tgt)) text).
Proof.
  intros _. destruct set as [ps cap all]. unfold addPermission. cbn [allowAll permissions].
  destruct all; [done|].
  rewrite (hasPermission_app ps _ _ cap 0). f_equal.
  unfold hasPermission. cbn.
  destruct (PermissionType_eqb ty ty'); [|done].
  by destruct (globMatch _ text).
Qed.

(** X3.  What a grant changes.  After [addPermission] a query is
    answered as before, or with yes when it has the type of the new
    entry and its target matches the new pattern, which is the bytes of
    the given target up to its length or its first NUL.  So a grant
    never takes a permission away and never widens another type. *)
Theorem addPermission_adds_one_pattern (set : PermissionSet) (ty ty' : PermissionType)
    (tgt : list ascii) (len : Z) (text : cstring) :
  0 <= len <= Z.of_nat (length tgt) ->
  (hasPermission (addPermission set ty tgt len) ty' text =
   hasPermission set ty' text ||
   (PermissionType_eqb ty ty' && globMatch (untilNul (take (Z.to_nat len) tgt)) text)) /\
  (hasPermission set ty' text = true ->
   hasPermission (addPermission set ty tgt len) ty' text = true) /\
  (ty <> ty' ->
   hasPermission (addPermission set ty tgt len) ty' text = hasPermission set ty' text).
Proof.
  intros Hlen. pose proof (hasPermission_grant set ty ty' tgt len text Hlen) as Hgrant.
  split; [exact Hgrant|]. split.
  - intros Hbefore. by rewrite Hgrant, Hbefore.
  - intros Hne. rewrite Hgrant.
    destruct (PermissionType_eqb ty ty') eqn:Heq.
    + apply PermissionType_eqb_eq in Heq. contradiction.
    + by rewrite orb_false_r.
Qed.

Lemma addPermission_adds_one_pattern_witness :
  0 <= 4 <= Z.of_nat (length (lit "git*")) /\
  hasPermission (addPermission initPermissions PERM_EXEC (lit "git*") 4) PERM_EXEC
    (lit "git status") = true.
Proof.
  assert (0 <= 4 <= Z.of_nat (length (lit "git*"))) as Hlen by (cbn; lia).
  split; [exact Hlen|].
  destruct (addPermission_adds_one_pattern initPermissions PERM_EXEC PERM_EXEC
              (lit "git*") 4 (lit "git status") Hlen) as [Hgrant _].
  rewrite Hgrant. reflexivity.
Defined.

(** The array of the entries is never written past its end: the
    set of [initPermissions] has its count within its capacity, and
    [addPermission], which grows the array before it writes when the
    count has reached the capacity, keeps it so. *)
Theorem addPermission_count_within_capacity :
  count initPermissions <= capacity initPermissions /\
  forall set ty tgt len,
    count set <= capacity set ->
    count set < capacity (addPermission set ty tgt len) /\
    count (addPermission set ty tgt len) = count set + 1 /\
    count (addPermission set ty tgt len) <= capacity (addPermission set ty tgt len).
Proof.
  split; [done|]. intros set ty tgt len Hle.
  unfold addPermission, count in *. cbn [permissions capacity].
  rewrite length_app. cbn [length].
  destruct (Z.geb_spec (Z.of_nat (length (permissions set))) (capacity set));
    [destruct (Z.ltb_spec (capacity set) 8)|]; lia.
Qed.

End PermissionExtras.

(* ================================================================= *)
(** ** value.h: the type tests and the boxing of references *)

Module ValueExtras.
Import ValueH ValueProofs.

Local Abbreviation BOXED := (Z.lor SIGN_BIT QNAN).

Lemma BOXED_QNAN : Z.land BOXED QNAN = QNAN.
Proof. reflexivity. Qed.

Lemma IS_OBJ_qnan (v : Value) : IS_OBJ v = true -> Z.land v QNAN = QNAN.
Proof.
  unfold IS_OBJ. intros H. apply Z.eqb_eq in H.
  rewrite <- BOXED_QNAN at 1. rewrite Z.land_assoc, H. reflexivity.
Qed.

Lemma exclusive (v : Value) :
  Z.b2z (IS_NIL v) + Z.b2z (IS_BOOL v) + Z.b2z (IS_NUMBER v) + Z.b2z (IS_OBJ v) <= 1.
Proof.
  destruct (IS_NIL v) eqn:Hnil.
  { apply Z.eqb_eq in Hnil. subst v. vm_compute. discriminate. }
  destruct (IS_BOOL v) eqn:Hbool.
  { unfold IS_BOOL in Hbool. apply orb_true_iff in Hbool as [H|H];
      apply Z.eqb_eq in H; subst v; vm_compute; discriminate. }
  destruct (IS_OBJ v) eqn:Hobj; [|destruct (IS_NUMBER v); cbn; lia].
  unfold IS_NUMBER. rewrite (IS_OBJ_qnan v Hobj), Z.eqb_refl. cbn. lia.
Qed.

(** X4.  On every word at most one of the four type tests answers yes:
    nil, a boolean, a number and a reference to an object are told
    apart by the bits alone. *)
Theorem type_tests_are_exclusive (v : Value) :
  Z.b2z (IS_NIL v) + Z.b2z (IS_BOOL v) + Z.b2z (IS_NUMBER v) + Z.b2z (IS_OBJ v) <= 1.
Proof.
  destruct (IS_NIL v) eqn:Hnil.
  { apply Z.eqb_eq in Hnil. subst v. vm_compute. discriminate. }
  destruct (IS_BOOL v) eqn:Hbool.
  { unfold IS_BOOL in Hbool. apply orb_true_iff in Hbool as [H|H];
      apply Z.eqb_eq in H; subst v; vm_compute; discriminate. }
  destruct (IS_OBJ v) eqn:Hobj; [|destruct (IS_NUMBER v); cbn; lia].
  unfold IS_NUMBER. rewrite (IS_OBJ_qnan v Hobj), Z.eqb_refl. cbn. lia.
Qed.

Lemma mask_disjoint : Z.land (Z.ones 64 - BOXED) BOXED = 0.
Proof. reflexivity. Qed.

Lemma mask_cover : Z.lor (Z.ones 64 - BOXED) BOXED = Z.ones 64.
Proof. reflexivity. Qed.

Lemma land_ones_64 (obj : Z) : 0 <= obj < 2 ^ 64 -> Z.land obj (Z.ones 64) = obj.
Proof. intros H. rewrite Z.land_ones by lia. apply Z.mod_small. exact H. Qed.

Ltac bitwise :=
  apply Z.bits_inj'; intros n Hn;
  rewrite ?Z.land_spec, ?Z.lor_spec, ?Z.bits_0;
  repeat match goal with |- context [Z.testbit ?a n] => destruct (Z.testbit a n) end;
  reflexivity.

Lemma IS_OBJ_OBJ_VAL (obj : Z) : IS_OBJ (OBJ_VAL obj) = true.
Proof. unfold IS_OBJ, OBJ_VAL. apply Z.eqb_eq. bitwise. Qed.

Lemma AS_OBJ_OBJ_VAL (obj : Z) : AS_OBJ (OBJ_VAL obj) = Z.land obj (Z.ones 64 - BOXED).
Proof.
  unfold AS_OBJ, OBJ_VAL.
  rewrite Z.land_lor_distr_l, (Z.land_comm BOXED), mask_disjoint. apply Z.lor_0_l.
Qed.

Lemma BOXED_shift : BOXED = Z.shiftl (Z.ones 14) 50.
Proof. reflexivity. Qed.

Lemma small_address (obj : Z) : 0 <= obj < 2 ^ 50 -> Z.land obj BOXED = 0.
Proof.
  intros H. apply Z.bits_inj'. intros n Hn. rewrite Z.land_spec, Z.bits_0.
  destruct (Z.lt_ge_cases n 50) as [Hlt|Hge].
  - rewrite BOXED_shift, Z.shiftl_spec_low by exact Hlt. apply andb_false_r.
  - destruct (Z.eq_dec obj 0) as [->|Hne]; [by rewrite Z.bits_0|].
    rewrite Z.bits_above_log2; [done|lia|].
    assert (Z.log2 obj < 50) by (apply Z.log2_lt_pow2; lia). lia.
Qed.

(** X5.  The boxing of a reference.  [OBJ_VAL] of any address is an
    object and none of the other types.  [AS_OBJ] gives the address
    back exactly when the address has none of the bits of the sign and
    of the quiet NaN, bits 50 to 63; an address below 2^50 has none. *)
Theorem OBJ_VAL_round_trip (obj : Z) :
  0 <= obj < 2 ^ 64 ->
  IS_OBJ (OBJ_VAL obj) = true /\
  IS_NUMBER (OBJ_VAL obj) = false /\ IS_NIL (OBJ_VAL obj) = false /\
  IS_BOOL (OBJ_VAL obj) = false /\
  (AS_OBJ (OBJ_VAL obj) = obj <-> Z.land obj (Z.lor SIGN_BIT QNAN) = 0) /\
  (obj < 2 ^ 50 -> AS_OBJ (OBJ_VAL obj) = obj).
Proof.
  intros Hrange.
  pose proof (IS_OBJ_OBJ_VAL obj) as Hobj.
  pose proof (exclusive (OBJ_VAL obj)) as Hex. rewrite Hobj in Hex.
  assert (AS_OBJ (OBJ_VAL obj) = obj <-> Z.land obj BOXED = 0) as Hiff.
  { rewrite AS_OBJ_OBJ_VAL. split; intros H.
    - rewrite <- H, <- Z.land_assoc, mask_disjoint. apply Z.land_0_r.
    - rewrite <- (land_ones_64 obj Hrange) at 2.
      rewrite <- mask_cover, Z.land_lor_distr_r, H. symmetry. apply Z.lor_0_r. }
  split; [exact Hobj|].
  destruct (IS_NUMBER (OBJ_VAL obj)), (IS_NIL (OBJ_VAL obj)), (IS_BOOL (OBJ_VAL obj));
    cbn in Hex; try lia.
  split; [done|]. split; [done|]. split; [done|]. split; [exact Hiff|].
  intros Hsmall. apply Hiff. apply small_address. lia.
Qed.

Lemma OBJ_VAL_round_trip_witness :
  0 <= 0x7f0000001000 < 2 ^ 64 /\ AS_OBJ (OBJ_VAL 0x7f0000001000) = 0x7f0000001000.
Proof.
  assert (0 <= 0x7f0000001000 < 2 ^ 64) as Hrange by lia.
  split; [exact Hrange|].
  apply (OBJ_VAL_round_trip 0x7f0000001000 Hrange). lia.
Defined.

End ValueExtras.

(* ================================================================= *)
(** ** dataformat.c: more on the parser *)

Module JsonExtras.
Import Object TableC Dataformat Canonical JsonString JsonProofs.

(** *** Strings with any escapes *)

Lemma unescape_units (units : list Unit) :
  Forall wellFormed units -> unescape (textOf units) = map unitByte units.
Proof.
  induction 1 as [|u units Hu _ IH]; [done|].
  destruct u as [c|d]; cbn [textOf flat_map unitText app map unitByte].
  - destruct Hu as [_ Hb]. cbn [unescape]. rewrite bool_decide_eq_false_2 by done.
    f_equal. exact IH.
  - cbn [unescape]. rewrite bool_decide_eq_true_2 by done. fold (textOf units).
    rewrite IH. f_equal.
    repeat match goal with
           | |- context [bool_decide (d = ?x)] =>
               destruct (decide (d = x)) as [->|?];
               [rewrite ?bool_decide_eq_true_2 by done; try reflexivity
               |rewrite (bool_decide_eq_false_2 (d = x)) by done]
           end.
    reflexivity.
Qed.

Lemma plain_units (units : list Unit) :
  existsb isEscaped units = false -> textOf units = map unitByte units.
Proof.
  induction units as [|u units IH]; [done|]. destruct u as [c|d]; [|done].
  cbn. intros H. f_equal. by apply IH.
Qed.

Lemma scanString_units (units : list Unit) (tl : list ascii) :
  Forall wellFormed units ->
  scanString (textOf units ++ dquote :: tl) = (length (textOf units), existsb isEscaped units).
Proof.
  induction 1 as [|u units Hu _ IH].
  - cbn. by rewrite bool_decide_eq_true_2.
  - destruct u as [c|d]; cbn [textOf flat_map unitText app scanString].
    + destruct Hu as [Hq Hb]. rewrite !bool_decide_eq_false_2 by done.
      fold (textOf units). rewrite IH. done.
    + rewrite (bool_decide_eq_false_2 (backslash = dquote)) by done.
      rewrite bool_decide_eq_true_2 by done. fold (textOf units). rewrite IH. done.
Qed.

Lemma jsonParseString_units (p : JSONParser) (units : list Unit) (post : list ascii) :
  Forall wellFormed units ->
  rest p = dquote :: textOf units ++ dquote :: post ->
  jsonParseString p =
  (setPos p (pos p + (length (textOf units) + 2)), OBJ_VAL (OBJ_STRING (map unitByte units))).
Proof.
  intros Hu Hrest. unfold jsonParseString.
  rewrite (jsonMatch_head p dquote _ Hrest). cbn [negb]. cbn [pos setPos source].
  assert (drop (S (pos p)) (source p) = textOf units ++ dquote :: post) as Hdrop.
  { replace (S (pos p)) with (pos p + 1)%nat by lia. by rewrite rest_drop, Hrest. }
  rewrite Hdrop, (scanString_units units post Hu).
  assert (source p !! (S (pos p) + length (textOf units))%nat = Some dquote) as Hq.
  { rewrite <- lookup_drop, Hdrop. rewrite lookup_app_r by lia. by rewrite Nat.sub_diag. }
  apply lookup_lt_Some in Hq.
  destruct (Nat.leb_spec (length (source p)) (S (pos p) + length (textOf units))) as [|_]; [lia|].
  replace (S (pos p) + length (textOf units) - S (pos p))%nat
    with (length (textOf units)) by lia.
  rewrite take_app_length.
  replace (S (S (pos p) + length (textOf units))) with (pos p + (length (textOf units) + 2))%nat
    by lia.
  destruct (existsb isEscaped units) eqn:He; cbn [negb].
  - by rewrite (unescape_units units Hu).
  - by rewrite (plain_units units He).
Qed.


(** X7.  What [parse_json] makes of a string.  Between the quotes a
    backslash takes the byte after it along, whatever it is; the
    letters b, f, n, r and t then stand for their control bytes and
    every other byte, the quote, the backslash, the solidus but also
    the u of a Unicode escape, stands for itself.  The text after the
    closing quote is not looked at. *)
Theorem parseJSON_string_with_any_escapes (host : Host) (units : list Unit)
    (post : list ascii) :
  Forall wellFormed units ->
  parseJSON host (dquote :: textOf units ++ dquote :: post) =
  Some (OBJ_VAL (OBJ_STRING (map unitByte units))).
Proof.
  intros Hu. unfold parseJSON. cbn [jsonParseValue].
  set (p := mkJSONParser (dquote :: textOf units ++ dquote :: post) 0 false []).
  assert (rest p = dquote :: textOf units ++ dquote :: post) as Hrest by done.
  rewrite (skip_none p) by (rewrite Hrest; done).
  rewrite jsonPeek_rest. change (rest (setPos p (pos p))) with (rest p). rewrite Hrest.
  cbn [head default from_option id]. rewrite bool_decide_eq_true_2 by done.
  rewrite (jsonParseString_units (setPos p (pos p)) units post Hu Hrest). done.
Qed.

Lemma parseJSON_string_with_any_escapes_witness :
  Forall wellFormed [Plain "a"%char; Escaped "n"%char; Escaped "u"%char; Escaped "/"%char] /\
  parseJSON Examples.quietHost
    (dquote :: textOf [Plain "a"%char; Escaped "n"%char; Escaped "u"%char; Escaped "/"%char]
       ++ dquote :: lit " trailing") =
  Some (OBJ_VAL (OBJ_STRING [ "a"%char; char_n; "u"%char; "/"%char ])).
Proof.
  assert (Forall wellFormed
            [Plain "a"%char; Escaped "n"%char; Escaped "u"%char; Escaped "/"%char]) as Hu.
  { repeat constructor; discriminate. }
  split; [exact Hu|].
  apply (parseJSON_string_with_any_escapes Examples.quietHost _ (lit " trailing") Hu).
Defined.

(** *** A string that is not closed *)

Lemma scanString_no_quote (l : list ascii) :
  dquote ∉ l -> (length l <= fst (scanString l))%nat.
Proof.
  revert l. fix IH 1. intros [|c l] Hq; [cbn; lia|]. cbn [scanString].
  rewrite bool_decide_eq_false_2 by (intros ->; apply Hq; left).
  assert (dquote ∉ l) as Hl by (intros H; apply Hq; by right).
  destruct (bool_decide (c = backslash)).
  - destruct l as [|d l]; [cbn; lia|].
    assert (dquote ∉ l) as Hl' by (intros H; apply Hl; by right).
    specialize (IH l Hl'). destruct (scanString l) as [n e]. cbn in *. lia.
  - specialize (IH l Hl). destruct (scanString l) as [n e]. cbn in *. lia.
Qed.

(** X8.  A string without its closing quote.  When no quote follows
    the opening one, [jsonParseString] reports an unterminated string
    at a position at or past the end of the text, and [parse_json]
    gives nil, whatever escapes the text holds. *)
Theorem parseJSON_unterminated_string (host : Host) (body : list ascii) :
  dquote ∉ body ->
  parseJSON host (dquote :: body) = Some NIL_VAL /\
  exists at_,
    (S (length body) <= at_)%nat /\
    jsonParseString (mkJSONParser (dquote :: body) 0 false []) =
    (mkJSONParser (dquote :: body) at_ true [(at_, lit "Unterminated string")], NIL_VAL).
Proof.
  intros Hq. set (p := mkJSONParser (dquote :: body) 0 false []).
  assert (rest p = dquote :: body) as Hrest by done.
  assert (exists at_, (S (length body) <= at_)%nat /\
            jsonParseString p =
            (mkJSONParser (dquote :: body) at_ true [(at_, lit "Unterminated string")], NIL_VAL))
    as (at_ & Hat & Hparse).
  { unfold jsonParseString. rewrite (jsonMatch_head p dquote _ Hrest). cbn [negb].
    unfold p. cbn [pos setPos source drop]. rewrite drop_0.
    pose proof (scanString_no_quote body Hq) as Hn.
    destruct (scanString body) as [n e]. cbn [fst] in Hn. cbn [pos setPos source length].
    destruct (Nat.leb_spec (S (length body)) (1 + n)) as [_|]; [|lia].
    exists (1 + n)%nat. split; [lia|]. reflexivity. }
  split; [|by exists at_].
  unfold parseJSON. cbn [jsonParseValue]. fold p.
  rewrite (skip_none p) by (rewrite Hrest; done).
  rewrite jsonPeek_rest. change (rest (setPos p (pos p))) with (rest p). rewrite Hrest.
  cbn [head default from_option id]. rewrite bool_decide_eq_true_2 by done.
  change (setPos p (pos p)) with p. rewrite Hparse. done.
Qed.

Lemma parseJSON_unterminated_string_witness :
  (dquote ∉ lit "abc" ++ [backslash]) /\
  parseJSON Examples.quietHost (dquote :: lit "abc" ++ [backslash]) = Some NIL_VAL.
Proof.
  assert (dquote ∉ lit "abc" ++ [backslash]) as Hq.
  { intros H. cbn in H. repeat (apply elem_of_cons in H as [H|H]; [discriminate H|]).
    by apply elem_of_nil in H. }
  split; [exact Hq|].
  apply (parseJSON_unterminated_string Examples.quietHost (lit "abc" ++ [backslash]) Hq).
Defined.

(** *** Whitespace before a value and text after it *)




(** *** A text that starts no value *)

Lemma lookup_head_drop (s : list ascii) (k : nat) : s !! k = head (drop k s).
Proof.
  rewrite <- (Nat.add_0_r k) at 1. rewrite <- lookup_drop. by destruct (drop k s).
Qed.

(** A text that is empty, or all whitespace, or whose first byte
    after the whitespace starts no value, makes the parser report an
    unexpected character at that byte, and [parse_json] gives nil. *)
Theorem parseJSON_unexpected_character (host : Host) (s : list ascii) :
  (forall c, firstByte s = Some c -> ~ valueStart c) ->
  parseJSON host s = Some NIL_VAL /\
  jsonParseValue host (S (length s)) (mkJSONParser s 0 false []) =
  Some (mkJSONParser s (span isspace s) true
          [(span isspace s, lit "Unexpected character")], NIL_VAL).
Proof.
  intros Hfirst. unfold firstByte in Hfirst.
  assert (jsonParseValue host (S (length s)) (mkJSONParser s 0 false []) =
          Some (mkJSONParser s (span isspace s) true
                  [(span isspace s, lit "Unexpected character")], NIL_VAL)) as Hparse.
  { cbn [jsonParseValue]. unfold jsonSkipWhitespace, jsonPeek.
    cbn [pos source setPos]. rewrite drop_0. cbn [Nat.add].
    rewrite (lookup_head_drop s (span isspace s)).
    destruct (drop (span isspace s) s) as [|c r] eqn:Hr.
    - cbn. done.
    - specialize (Hfirst c eq_refl). unfold valueStart in Hfirst.
      cbn [default from_option id head].
      rewrite !bool_decide_eq_false_2.
      + destruct (isdigit c) eqn:Hd; [tauto|]. done.
      + intros H. destruct r as [|? [|? [|? r]]]; try discriminate H.
        injection H as -> _. tauto.
      + intros H. destruct r as [|? [|? [|? [|? r]]]]; try discriminate H.
        injection H as -> _. tauto.
      + intros H. destruct r as [|? [|? [|? r]]]; try discriminate H.
        injection H as -> _. tauto.
      + tauto.
      + tauto.
      + tauto.
      + tauto. }
  split; [|exact Hparse]. unfold parseJSON. by rewrite Hparse.
Qed.

Lemma parseJSON_unexpected_character_witness :
  (forall c, firstByte (lit "  x") = Some c -> ~ valueStart c) /\
  parseJSON Examples.quietHost (lit "  x") = Some NIL_VAL.
Proof.
  assert (forall c, firstByte (lit "  x") = Some c -> ~ valueStart c) as H.
  { intros c [= <-]. unfold valueStart. intros [H|[H|[H|[H|[H|[H|[H|H]]]]]]]; discriminate H. }
  split; [exact H|].
  apply (parseJSON_unexpected_character Examples.quietHost (lit "  x") H).
Defined.

(** *** A long number *)

Lemma head_not (post : list ascii) (c : ascii) :
  follows post -> c <> ","%char -> c <> "]"%char -> c <> "}"%char ->
  bool_decide (head post = Some c) = false.
Proof.
  intros Hpost H1 H2 H3. apply bool_decide_eq_false_2.
  destruct post as [|d post]; [done|]. cbn. intros [= ->]. by destruct Hpost as [|[|]].
Qed.

Lemma jsonParseNumber_digits (host : Host) (p : JSONParser) (ds post : list ascii) :
  forallb isdigit ds = true -> ds <> [] -> follows post -> rest p = ds ++ post ->
  jsonParseNumber host p =
  (setPos p (pos p + length ds),
   NUMBER_VAL (strtod host (take (if (64 <=? length ds)%nat then 63 else length ds) ds))).
Proof.
  intros Hds Hne Hpost Hrest.
  pose proof (follows_not_digit post Hpost) as Hnd.
  unfold jsonParseNumber, jsonPeek. rewrite rest_head, Hrest.
  destruct ds as [|d ds'] eqn:Eds; [done|]. rewrite <- Eds in *.
  assert (isdigit d = true) as Hd.
  { rewrite Eds in Hds. cbn in Hds. by apply andb_prop in Hds as [? _]. }
  assert (bool_decide (default zero (head (ds ++ post)) = "-"%char) = false) as ->.
  { rewrite Eds. cbn. apply bool_decide_eq_false_2. intros ->. discriminate Hd. }
  fold (rest p). rewrite Hrest, (span_all isdigit ds post Hds Hnd).
  assert ((ds ++ post) !! length ds = head post) as Hnext.
  { rewrite lookup_app_r by lia. rewrite Nat.sub_diag. by destruct post. }
  rewrite !rest_lookup, Hrest, Hnext.
  rewrite (head_not post "."%char Hpost) by done.
  rewrite !rest_lookup, Hrest, Hnext.
  rewrite (head_not post "e"%char Hpost), (head_not post "E"%char Hpost) by done.
  cbn [orb].
  replace (pos p + length ds - pos p)%nat with (length ds) by lia.
  destruct (Nat.leb_spec 64 (length ds)) as [Hlong|Hshort]; cbv iota.
  - rewrite take_app_le by lia. done.
  - rewrite take_app_length, take_ge by lia. done.
Qed.

(** X10.  A number of 64 digits or more.  The parser steps over all
    the digits, but its buffer has 64 bytes: the value is what the
    host's [strtod] makes of the first 63 digits alone. *)
Theorem parseJSON_number_keeps_63_bytes (host : Host) (ds post : list ascii) :
  forallb isdigit ds = true -> (64 <= length ds)%nat -> follows post ->
  parseJSON host (ds ++ post) = Some (NUMBER_VAL (strtod host (take 63 ds))) /\
  jsonParseNumber host (mkJSONParser (ds ++ post) 0 false []) =
  (mkJSONParser (ds ++ post) (length ds) false [], NUMBER_VAL (strtod host (take 63 ds))).
Proof.
  intros Hds Hlong Hpost.
  set (p := mkJSONParser (ds ++ post) 0 false []).
  assert (rest p = ds ++ post) as Hrest by done.
  assert (ds <> []) as Hne by (intros ->; cbn in Hlong; lia).
  pose proof (jsonParseNumber_digits host p ds post Hds Hne Hpost Hrest) as Hnum.
  apply Nat.leb_le in Hlong. rewrite Hlong in Hnum.
  split; [|exact Hnum].
  unfold parseJSON. cbn [jsonParseValue]. fold p.
  destruct ds as [|d ds'] eqn:Eds; [done|]. rewrite <- Eds in *.
  assert (isdigit d = true) as Hd.
  { rewrite Eds in Hds. cbn in Hds. by apply andb_prop in Hds as [? _]. }
  assert (isspace d = false) as Hsp.
  { apply valueStart_nonspace. unfold valueStart. tauto. }
  rewrite (skip_none p) by (rewrite Hrest, Eds; exact Hsp).
  rewrite jsonPeek_rest. change (rest (setPos p (pos p))) with (rest p).
  rewrite Hrest. change (setPos p (pos p)) with p.
  assert (head (ds ++ post) = Some d) as -> by (by rewrite Eds).
  cbn [default from_option id].
  rewrite bool_decide_eq_false_2 by (intros ->; discriminate Hd).
  rewrite Hd, orb_true_r, Hnum. done.
Qed.

Lemma parseJSON_number_keeps_63_bytes_witness :
  (forallb isdigit (repeat "7"%char 70) = true /\ (64 <= length (repeat "7"%char 70))%nat /\
   follows []) /\
  parseJSON decimalHost (repeat "7"%char 70 ++ []) =
  Some (NUMBER_VAL (strtod decimalHost (repeat "7"%char 63))).
Proof.
  assert (forallb isdigit (repeat "7"%char 70) = true) as Hds by reflexivity.
  assert (64 <= length (repeat "7"%char 70))%nat as Hlong by (cbn; lia).
  split; [done|].
  apply (parseJSON_number_keeps_63_bytes decimalHost (repeat "7"%char 70) [] Hds Hlong I).
Defined.

End JsonExtras.

(* ================================================================= *)
(** ** compiler.c and chunk.c: jumps, constants, locals and scopes *)

Module CompilerExtras.
Import Object TableC Opcode Compiler CompilerProps CompilerProofs.
Local Open Scope Z_scope.

(** *** Forward jumps *)

Lemma code_emitJump c op line :
  code (chunk (fst (emitJump c op line))) = code (chunk c) ++ [byteOf op; 255; 255] /\
  snd (emitJump c op line) = codeCount c + 1.
Proof.
  unfold emitJump, emitOp. cbn [fst snd]. rewrite !codeCount_emitByte, !code_emitByte.
  rewrite <- !app_assoc. split; [done|lia].
Qed.

(** The machine at an [OP_JUMP] whose operand is [o], [len] bytes into
    the code: the next instruction is the one at [len + 3 + o]. *)
Lemma step_JUMP (host : Host) (run : VM.VM -> option (VM.InterpretResult * VM.VM))
    (r : VM.Regs) (before rest : list Z) (o : Z) :
  0 <= o <= 65535 ->
  VM.base (VM.r_ip r) =
    before ++ [byteOf OP_JUMP; Z.land (Z.shiftr o 8) 255; Z.land o 255] ++ rest ->
  VM.offset (VM.r_ip r) = Z.of_nat (length before) ->
  VM.step host run r =
  VM.Next (VM.set_ip r (VM.mkCodePtr (VM.base (VM.r_ip r)) (Z.of_nat (length before) + 3 + o))).
Proof.
  intros Ho Hbase Hoff.
  assert (forall k b, [byteOf OP_JUMP; Z.land (Z.shiftr o 8) 255; Z.land o 255] !! k = Some b ->
          VM.base (VM.r_ip r) !! Z.to_nat (Z.of_nat (length before) + Z.of_nat k) = Some b)
    as Hbyte.
  { intros k b Hk. rewrite Hbase. replace (Z.to_nat _) with (length before + k)%nat by lia.
    rewrite lookup_app_r by lia. replace (length before + k - length before)%nat with k by lia.
    by apply lookup_app_l_Some. }
  unfold VM.step, VM.READ_BYTE. rewrite Hoff.
  destruct (Z.ltb_spec (Z.of_nat (length before)) 0) as [|_]; [lia|].
  pose proof (Hbyte 0%nat _ eq_refl) as H0. rewrite Z.add_0_r in H0. rewrite H0.
  change (decode (byteOf OP_JUMP)) with (Some OP_JUMP). cbn match.
  unfold VM.op_JUMP, VM.READ_SHORT, VM.READ_BYTE. cbn [VM.r_ip VM.set_ip VM.offset VM.base].
  destruct (Z.ltb_spec (Z.of_nat (length before) + 1) 0) as [|_]; [lia|].
  pose proof (Hbyte 1%nat _ eq_refl) as H1. change (Z.of_nat 1) with 1 in H1.
  rewrite H1. cbn [VM.r_ip VM.set_ip VM.offset VM.base].
  destruct (Z.ltb_spec (Z.of_nat (length before) + 1 + 1) 0) as [|_]; [lia|].
  pose proof (Hbyte 2%nat _ eq_refl) as H2. change (Z.of_nat 2) with 2 in H2.
  replace (Z.of_nat (length before) + 1 + 1) with (Z.of_nat (length before) + 2) by lia.
  rewrite H2. rewrite (operand_bytes o Ho).
  unfold VM.jumpBy, VM.set_ip. cbn. do 3 f_equal. lia.
Qed.

Lemma patchJump_code (c2 : Compiler) (before body : list Z) (op : Z) :
  code (chunk c2) = before ++ [op; 255; 255] ++ body ->
  Z.of_nat (length body) <= 65535 ->
  code (chunk (patchJump c2 (Z.of_nat (length before) + 1))) =
  before ++ [op; Z.land (Z.shiftr (Z.of_nat (length body)) 8) 255;
             Z.land (Z.of_nat (length body)) 255] ++ body /\
  hadError (patchJump c2 (Z.of_nat (length before) + 1)) = hadError c2 /\
  messages (patchJump c2 (Z.of_nat (length before) + 1)) = messages c2.
Proof.
  intros Hcode Hlen. unfold patchJump.
  assert (codeCount c2 - (Z.of_nat (length before) + 1) - 2 = Z.of_nat (length body)) as ->.
  { unfold codeCount. rewrite Hcode, !length_app. cbn [length]. lia. }
  destruct (Z.ltb_spec 65535 (Z.of_nat (length body))) as [|_]; [lia|].
  split; [|done]. cbn [chunk set_chunk patchByte code]. rewrite Hcode.
  replace (Z.to_nat (Z.of_nat (length before) + 1)) with (length before + 1)%nat by lia.
  replace (Z.to_nat (Z.of_nat (length before) + 1 + 1)) with (length before + 2)%nat by lia.
  rewrite !insert_app_r. done.
Qed.

(** X11.  A forward jump, from the compiler to the machine.  After
    [emitJump] the compiler knows where the operand of the jump is;
    when it has emitted the code to jump over, at most 65535 bytes,
    [patchJump] writes the length of that code into the two bytes of
    the operand and reports nothing.  The machine that runs the patched
    jump goes on right behind the code jumped over, where the compiler
    stood when it patched. *)
Theorem patched_jump_lands_behind_the_code (host : Host)
    (run : VM.VM -> option (VM.InterpretResult * VM.VM))
    (c c2 : Compiler) (line : Z) (body rest : list Z) (r : VM.Regs) :
  code (chunk c2) = code (chunk (fst (emitJump c OP_JUMP line))) ++ body ->
  Z.of_nat (length body) <= 65535 ->
  let c3 := patchJump c2 (snd (emitJump c OP_JUMP line)) in
  codeCount c3 = codeCount c2 /\
  hadError c3 = hadError c2 /\ messages c3 = messages c2 /\
  (VM.base (VM.r_ip r) = code (chunk c3) ++ rest ->
   VM.offset (VM.r_ip r) = codeCount c ->
   VM.step host run r =
   VM.Next (VM.set_ip r (VM.mkCodePtr (VM.base (VM.r_ip r)) (codeCount c3)))).
Proof.
  intros Hcode Hlen c3.
  destruct (code_emitJump c OP_JUMP line) as [Hc1 Hoff].
  rewrite Hc1, <- app_assoc in Hcode.
  destruct (patchJump_code c2 (code (chunk c)) body (byteOf OP_JUMP) Hcode Hlen)
    as (Hc3 & Herr & Hmsg).
  change (Z.of_nat (length (code (chunk c)))) with (codeCount c) in Hc3, Herr, Hmsg.
  rewrite <- Hoff in Hc3, Herr, Hmsg. fold c3 in Hc3, Herr, Hmsg.
  assert (codeCount c3 = codeCount c2) as Hcount.
  { unfold codeCount. rewrite Hc3, Hcode, !length_app. cbn [length]. lia. }
  split; [exact Hcount|]. split; [exact Herr|]. split; [exact Hmsg|].
  intros Hbase Hip. rewrite Hc3, <- !app_assoc in Hbase.
  rewrite (step_JUMP host run r (code (chunk c)) (body ++ rest) (Z.of_nat (length body)));
    [|lia|exact Hbase|exact Hip].
  do 3 f_equal. rewrite Hcount. unfold codeCount. rewrite Hcode, !length_app.
  cbn [length]. lia.
Qed.

Lemma patched_jump_lands_behind_the_code_witness :
  let c := initCompiler in
  let c2 := emitOp (fst (emitJump c OP_JUMP 1)) OP_NIL 1 in
  let r := VM.mkRegs VM.initVM 0
             (VM.mkCodePtr (code (chunk (patchJump c2 (snd (emitJump c OP_JUMP 1)))) ++ []) 0)
             [] in
  VM.step Examples.quietHost (fun _ => None) r =
  VM.Next (VM.set_ip r (VM.mkCodePtr (VM.base (VM.r_ip r)) 4)).
Proof.
  intros c c2 r.
  assert (code (chunk c2) = code (chunk (fst (emitJump c OP_JUMP 1))) ++ [byteOf OP_NIL])
    as Hcode by reflexivity.
  assert (Z.of_nat (length [byteOf OP_NIL]) <= 65535) as Hlen by (cbn; lia).
  destruct (patched_jump_lands_behind_the_code Examples.quietHost (fun _ => None)
              c c2 1 [byteOf OP_NIL] [] r Hcode Hlen) as (_ & _ & _ & Hstep).
  apply Hstep; reflexivity.
Defined.

(** X12.  Too much code to jump over.  When the code behind the jump
    is longer than 65535 bytes, [patchJump] prints its message and
    leaves the code as it is, the operand still the two bytes 0xff of
    [emitJump]; it does not set [hadError], so the compilation does not
    fail for it. *)
Theorem patchJump_too_far_leaves_placeholder (c c2 : Compiler) (op : OpCode) (line : Z)
    (body : list Z) :
  code (chunk c2) = code (chunk (fst (emitJump c op line))) ++ body ->
  65535 < Z.of_nat (length body) ->
  let c3 := patchJump c2 (snd (emitJump c op line)) in
  code (chunk c3) = code (chunk c) ++ [byteOf op; 255; 255] ++ body /\
  hadError c3 = hadError c2 /\
  messages c3 = messages c2 ++ [lit "Too much code to jump over."].
Proof.
  intros Hcode Hlen c3. destruct (code_emitJump c op line) as [Hc1 Hoff].
  rewrite Hc1, <- app_assoc in Hcode. unfold c3, patchJump. rewrite Hoff.
  assert (codeCount c2 - (codeCount c + 1) - 2 = Z.of_nat (length body)) as ->.
  { unfold codeCount. rewrite Hcode, !length_app. cbn [length]. lia. }
  destruct (Z.ltb_spec 65535 (Z.of_nat (length body))) as [_|]; [|lia].
  cbn [report chunk hadError messages]. rewrite orb_false_r. by rewrite Hcode.
Qed.

Lemma patchJump_too_far_leaves_placeholder_witness :
  let c := initCompiler in
  let body := replicate (Z.to_nat 65536) 0 in
  let c2 := set_chunk c (mkChunk (code (chunk (fst (emitJump c OP_JUMP 1))) ++ body) [] []
                           initTable) in
  hadError (patchJump c2 (snd (emitJump c OP_JUMP 1))) = false.
Proof.
  intros c body c2.
  assert (code (chunk c2) = code (chunk (fst (emitJump c OP_JUMP 1))) ++ body) as Hcode
    by reflexivity.
  assert (65535 < Z.of_nat (length body)) as Hlen.
  { unfold body. rewrite length_replicate. lia. }
  destruct (patchJump_too_far_leaves_placeholder c c2 OP_JUMP 1 body Hcode Hlen)
    as (_ & Herr & _).
  rewrite Herr. reflexivity.
Defined.

(** *** Constants *)






Lemma indexed_empty : indexed (mkChunk [] [] [] initTable).
Proof. split; [apply TableProofs.initTable_wf|]. intros s v H. discriminate H. Qed.

(** X14.  The pool of constants and strings.  When the index of the
    string constants points into the pool, as it does in an empty
    chunk, [addConstant] of a string keeps it so, keeps the constants
    that are there, and gives the place where the string stands in the
    pool; adding the string once more gives the same place and changes
    nothing. *)
Theorem addConstant_string_is_reused (ch : Chunk Value) (s : ObjString) :
  indexed ch -> Z.of_nat (length (constants ch)) <= INT_MAX ->
  let r := addConstant ch (OBJ_VAL (OBJ_STRING s)) in
  indexed (fst r) /\
  0 <= snd r /\ constants (fst r) !! Z.to_nat (snd r) = Some (OBJ_VAL (OBJ_STRING s)) /\
  addConstant (fst r) (OBJ_VAL (OBJ_STRING s)) = r /\
  exists more, constants (fst r) = constants ch ++ more.
Proof.
  intros [Hwf Hidx] Hlen r. unfold r. clear r.
  destruct (tableGet (constantIndex ch) s) as [v|] eqn:Hget.
  - destruct (Hidx s v Hget) as (i & -> & Hi & Hplace).
    assert (addConstant ch (OBJ_VAL (OBJ_STRING s)) = (ch, i)) as Hadd.
    { unfold addConstant. rewrite Hget.
      by rewrite (JsonProofs.double_to_int_of_int i) by (unfold INT_MIN; lia). }
    rewrite Hadd. cbn [fst snd]. split; [by split|]. split; [lia|].
    split; [exact Hplace|]. split; [exact Hadd|]. exists []. by rewrite app_nil_r.
  - set (fresh := Z.of_nat (length (constants ch))).
    set (idx := tableSet (constantIndex ch) s (NUMBER_VAL (double_of_int fresh))).
    set (ch1 := mkChunk (code ch) (lines ch) (constants ch ++ [OBJ_VAL (OBJ_STRING s)]) idx).
    assert (addConstant ch (OBJ_VAL (OBJ_STRING s)) = (ch1, fresh)) as Hadd
      by (unfold addConstant; by rewrite Hget).
    rewrite Hadd. cbn [fst snd].
    assert (tableGet idx s = Some (NUMBER_VAL (double_of_int fresh))) as Hnew.
    { unfold idx. rewrite TableProofs.tableGet_tableSet by done. by rewrite decide_True. }
    assert (constants ch1 !! Z.to_nat fresh = Some (OBJ_VAL (OBJ_STRING s))) as Hplace.
    { unfold fresh. cbn [constants ch1].
      rewrite Nat2Z.id, lookup_app_r by lia. by rewrite Nat.sub_diag. }
    split; [split|].
    + cbn [constantIndex ch1]. by apply TableProofs.tableSet_wf.
    + intros s' v. cbn [constantIndex constants ch1]. unfold idx.
      rewrite TableProofs.tableGet_tableSet by done.
      destruct (decide (s = s')) as [<-|Hne].
      * intros [= <-]. exists fresh. split; [done|]. split; [unfold fresh; lia|]. exact Hplace.
      * intros Hs'. destruct (Hidx s' v Hs') as (i & -> & Hi & Hi').
        exists i. split; [done|]. split; [done|]. by apply lookup_app_l_Some.
    + split; [unfold fresh; lia|]. split; [exact Hplace|]. split.
      * unfold addConstant. cbn [constantIndex constants ch1]. rewrite Hnew.
        rewrite (JsonProofs.double_to_int_of_int fresh) by (unfold INT_MIN, fresh; lia).
        done.
      * by eexists.
Qed.

Lemma addConstant_string_is_reused_witness :
  (indexed (chunk initCompiler) /\ Z.of_nat (length (constants (chunk initCompiler))) <= INT_MAX) /\
  constants (fst (addConstant (chunk initCompiler) (OBJ_VAL (OBJ_STRING (lit "x")))))
    !! Z.to_nat (snd (addConstant (chunk initCompiler) (OBJ_VAL (OBJ_STRING (lit "x"))))) =
  Some (OBJ_VAL (OBJ_STRING (lit "x"))).
Proof.
  assert (indexed (chunk initCompiler)) as Hi by apply indexed_empty.
  assert (Z.of_nat (length (constants (chunk initCompiler))) <= INT_MAX) as Hlen
    by (vm_compute; discriminate).
  split; [done|].
  apply (addConstant_string_is_reused (chunk initCompiler) (lit "x") Hi Hlen).
Defined.

(** *** Locals *)

Lemma resolveIn_other (rlocals : list Local) (name name' : list ascii) (l : Local) :
  Compiler.name l <> name' -> resolveIn (l :: rlocals) name' = resolveIn rlocals name'.
Proof. intros H. cbn. by rewrite bool_decide_eq_false_2. Qed.

(** X15.  The newest declaration of a name is the one found.  After
    [addLocal], with room among the 256 locals, [resolveLocal] gives
    the new slot for the name, whatever was declared under it before,
    and answers for every other name as it did. *)
Theorem addLocal_shadows (c : Compiler) (name : list ascii) :
  localCount c < 256 ->
  resolveLocal (addLocal c name) name = localCount c /\
  localCount (addLocal c name) = localCount c + 1 /\
  forall name', name' <> name ->
    resolveLocal (addLocal c name) name' = resolveLocal c name'.
Proof.
  intros Hroom. unfold addLocal.
  destruct (Z.eqb_spec (localCount c) 256) as [|_]; [lia|].
  unfold resolveLocal, localCount. cbn [locals set_locals].
  rewrite rev_app_distr. cbn [rev app]. split; [|split].
  - cbn. rewrite bool_decide_eq_true_2 by done. by rewrite length_rev.
  - rewrite length_app. cbn. lia.
  - intros name' Hne. apply resolveIn_other; cbn; congruence.
Qed.

Lemma addLocal_shadows_witness :
  localCount initCompiler < 256 /\
  resolveLocal (addLocal (addLocal initCompiler (lit "x")) (lit "x")) (lit "x") = 2.
Proof.
  split; [vm_compute; reflexivity|].
  assert (localCount (addLocal initCompiler (lit "x")) < 256) as H by (vm_compute; reflexivity).
  apply (addLocal_shadows (addLocal initCompiler (lit "x")) (lit "x") H).
Defined.

(** The 257th local.  With 256 locals declared [addLocal] prints
    its message and declares nothing; it does not set [hadError], and
    the name then resolves as it did before. *)
Theorem addLocal_full_declares_nothing (c : Compiler) (name : list ascii) :
  localCount c = 256 ->
  locals (addLocal c name) = locals c /\
  hadError (addLocal c name) = hadError c /\
  messages (addLocal c name) = messages c ++ [lit "Too many local variables in function."] /\
  chunk (addLocal c name) = chunk c /\
  forall name', resolveLocal (addLocal c name) name' = resolveLocal c name'.
Proof.
  intros Hfull. unfold addLocal. rewrite Hfull. cbn. by rewrite orb_false_r.
Qed.

Lemma addLocal_full_declares_nothing_witness :
  let c := set_locals initCompiler (replicate (Z.to_nat 256) (mkLocal (lit "v") 0 false)) in
  localCount c = 256 /\ resolveLocal (addLocal c (lit "w")) (lit "w") = -1.
Proof.
  intros c. assert (localCount c = 256) as Hfull.
  { unfold localCount, c. cbn [locals set_locals]. rewrite length_replicate. lia. }
  split; [exact Hfull|].
  destruct (addLocal_full_declares_nothing c (lit "w") Hfull) as (_ & _ & _ & _ & Hres).
  rewrite Hres. vm_compute. reflexivity.
Defined.

(** *** Scopes *)

Lemma addLocals_spec (names : list (list ascii)) : forall c,
  localCount c + Z.of_nat (length names) <= 256 ->
  addLocals c names =
  set_locals c (locals c ++ map (fun n => mkLocal n (scopeDepth c) false) names).
Proof.
  unfold addLocals.
  induction names as [|n names IH]; intros c Hroom; cbn [fold_left map length] in *.
  - rewrite app_nil_r. by destruct c.
  - unfold addLocal at 2. destruct (Z.eqb_spec (localCount c) 256) as [|_]; [lia|].
    rewrite IH.
    + cbn [locals set_locals scopeDepth]. rewrite <- app_assoc. done.
    + unfold localCount in *. cbn [locals set_locals]. rewrite length_app. cbn [length]. lia.
Qed.

Lemma popLocals_new (line : Z) (news : list Local) : forall c olds,
  (forall l, l ∈ news -> scopeDepth c < depth l /\ isCaptured l = false) ->
  (forall l, l ∈ olds -> depth l <= scopeDepth c) ->
  locals (popLocals c (news ++ olds) line) = rev olds /\
  scopeDepth (popLocals c (news ++ olds) line) = scopeDepth c /\
  code (chunk (popLocals c (news ++ olds) line)) =
    code (chunk c) ++ replicate (length news) (byteOf OP_POP).
Proof.
  induction news as [|l news IH]; intros c olds Hnew Hold; cbn [app length replicate].
  - rewrite app_nil_r. destruct olds as [|o olds]; [done|]. cbn [popLocals].
    destruct (Z.ltb_spec (scopeDepth c) (depth o)) as [Hlt|_]; [|done].
    specialize (Hold o ltac:(left)). lia.
  - cbn [popLocals].
    destruct (Hnew l ltac:(left)) as [Hd Hc]. rewrite Hc.
    destruct (Z.ltb_spec (scopeDepth c) (depth l)) as [_|]; [|lia].
    destruct (IH (emitOp c OP_POP line) olds) as (H1 & H2 & H3).
    + intros x Hx. apply Hnew. by right.
    + exact Hold.
    + split; [exact H1|]. split; [exact H2|]. rewrite H3.
      unfold emitOp. rewrite code_emitByte, <- app_assoc. done.
Qed.

(** X16.  A scope leaves no trace but its pops.  When no local is
    deeper than the scope depth, entering a scope, declaring up to the
    limit of 256 locals in it and leaving it gives back the locals and
    the depth of before, and emits one [OP_POP] for each local of the
    scope and nothing else. *)
Theorem scope_is_popped_on_exit (c : Compiler) (names : list (list ascii)) (line : Z) :
  scoped c -> localCount c + Z.of_nat (length names) <= 256 ->
  let c' := endScope (addLocals (beginScope c) names) line in
  locals c' = locals c /\ scopeDepth c' = scopeDepth c /\
  code (chunk c') = code (chunk c) ++ replicate (length names) (byteOf OP_POP).
Proof.
  intros Hscoped Hroom c'. unfold c'.
  rewrite addLocals_spec by exact Hroom. unfold endScope.
  cbn [locals set_locals scopeDepth set_scopeDepth beginScope].
  rewrite rev_app_distr, <- map_rev.
  set (c0 := set_scopeDepth _ _).
  assert (scopeDepth c0 = scopeDepth c) as Hd by (unfold c0; cbn; lia).
  destruct (popLocals_new line
              (map (fun n => mkLocal n (scopeDepth c + 1) false) (rev names))
              c0 (rev (locals c))) as (H1 & H2 & H3).
  - intros l Hl. apply list_elem_of_fmap in Hl as (n & -> & _). cbn. split; [lia|done].
  - intros l Hl. rewrite Hd. apply Hscoped.
    apply list_elem_of_In, in_rev. by apply list_elem_of_In.
  - rewrite H1, H2, H3, rev_involutive, length_map, length_rev. done.
Qed.

Lemma scope_is_popped_on_exit_witness :
  (scoped initCompiler /\
   localCount initCompiler + Z.of_nat (length [lit "a"; lit "b"]) <= 256) /\
  code (chunk (endScope (addLocals (beginScope initCompiler) [lit "a"; lit "b"]) 7)) =
  [byteOf OP_POP; byteOf OP_POP].
Proof.
  assert (scoped initCompiler) as Hs.
  { intros l Hl. apply list_elem_of_singleton in Hl as ->. cbn. lia. }
  assert (localCount initCompiler + Z.of_nat (length [lit "a"; lit "b"]) <= 256) as Hroom
    by (vm_compute; discriminate).
  split; [done|].
  apply (scope_is_popped_on_exit initCompiler [lit "a"; lit "b"] 7 Hs Hroom).
Defined.

(** *** The code only grows *)

(** Compiling a node never takes code away and leaves the loop
    that encloses the node as it found it: whatever loops the node
    holds, [loopStart] is restored when the node is done, so a
    [continue] after a nested loop still leads to the outer one. *)
Theorem compileNode_restores_the_enclosing_loop (node : AstNode) (c : Compiler) :
  loopStart (compileNode node c) = loopStart c /\
  codeCount c <= codeCount (compileNode node c).
Proof. exact (keeps_compileNode node c). Qed.

End CompilerExtras.

(* ================================================================= *)
(** ** vm.c: the stack, indexing, handlers and permissions *)

Module VMExtras.
Import Object TableC Opcode VM Interpret Examples VMProofs.
Local Open Scope Z_scope.

(** *** The value stack *)

(** X17.  [push] and [pop].  With room on the stack, a push followed by
    a pop gives the value back and leaves the stack top and every other
    slot as they were.  With all [STACK_MAX] slots in use the value is
    not stored: [push] prints its message and sets the stack top and
    the frame count to 0. *)
Theorem push_then_pop (vm : VM) (v : Value) :
  (stackTop vm < STACK_MAX ->
   snd (pop (push vm v)) = v /\
   stackTop (fst (pop (push vm v))) = stackTop vm /\
   frameCount (fst (pop (push vm v))) = frameCount vm /\
   stderr (fst (pop (push vm v))) = stderr vm /\
   forall i, i <> stackTop vm -> stack (fst (pop (push vm v))) i = stack vm i) /\
  (STACK_MAX <= stackTop vm ->
   stackTop (push vm v) = 0 /\ frameCount (push vm v) = 0 /\
   stack (push vm v) = stack vm /\
   stderr (push vm v) = stderr vm ++ [Message (lit "Stack overflow.")]).
Proof.
  split; intros Htop.
  - rewrite (push_in_bounds vm v Htop). unfold pop, pushRaw.
    cbn [fst snd stackTop set_stackTop stack set_stack frameCount stderr].
    replace (stackTop vm + 1 - 1) with (stackTop vm) by lia.
    rewrite aset_eq. repeat split; try done. intros i Hi. by apply aset_ne.
  - unfold push. destruct (Z.leb_spec STACK_MAX (stackTop vm)) as [_|]; [|lia]. done.
Qed.

(** *** Indexing a list *)

Lemma pop_pop (vm : VM) :
  pop vm = (set_stackTop vm (stackTop vm - 1), top vm (-1)) /\
  pop (set_stackTop vm (stackTop vm - 1)) =
    (set_stackTop vm (stackTop vm - 2), top vm (-2)).
Proof.
  unfold pop, top. cbn [stackTop set_stackTop stack]. split.
  - by replace (stackTop vm + -1) with (stackTop vm - 1) by lia.
  - replace (stackTop vm - 1 - 1) with (stackTop vm - 2) by lia.
    replace (stackTop vm + -2) with (stackTop vm - 2) by lia. by destruct vm.
Qed.

(** X18.  [OP_INDEX_GET] on a list.  The index is cast to [int], which
    drops its fraction, and a negative index counts from the end.  An
    index that then lies inside the list replaces the list and the
    index on the stack by the item; any other leaves the loop with the
    runtime error that names the index after the wrap and the length. *)
Theorem index_get_on_a_list (r : Regs) (items : list Value) (num : double) (i : Z) :
  top (vm r) (-1) = NUMBER_VAL num ->
  top (vm r) (-2) = OBJ_VAL (OBJ_LIST items) ->
  double_to_int num = Some i ->
  2 <= stackTop (vm r) <= STACK_MAX ->
  let n := Z.of_nat (length items) in
  let k := if i <? 0 then i + n else i in
  (0 <= k < n ->
   exists v r',
     items !! Z.to_nat k = Some v /\ op_INDEX_GET r = Next r' /\
     stackTop (vm r') = stackTop (vm r) - 1 /\ top (vm r') (-1) = v /\
     r_ip r' = r_ip r /\
     forall j, j <> stackTop (vm r) - 2 -> stack (vm r') j = stack (vm r) j) /\
  (~ 0 <= k < n ->
   exists vm',
     op_INDEX_GET r = Return INTERPRET_RUNTIME_ERROR vm' /\
     In (Message (lit "List index " ++ snprintf_d k ++ lit " out of range (length "
                  ++ snprintf_d n ++ lit ").")) (stderr vm') /\
     stackTop vm' = 0 /\ frameCount vm' = 0 /\ hasError vm' = hasError (vm r)).
Proof.
  intros Hidx Hlist Hint Htop n k.
  destruct (pop_pop (vm r)) as [Hp1 Hp2].
  assert (op_INDEX_GET r =
          let vm1 := set_stackTop (vm r) (stackTop (vm r) - 2) in
          if (k <? 0) || (n <=? k) then
            fail (set_vm r vm1)
              (lit "List index " ++ snprintf_d k ++ lit " out of range (length "
               ++ snprintf_d n ++ lit ").")
          else
            match items !! Z.to_nat k with
            | Some v => Next (set_vm (set_vm r vm1) (push vm1 v))
            | None => Undefined
            end) as Hop.
  { unfold op_INDEX_GET. rewrite Hp1, Hp2, Hlist, Hidx. unfold wrapIndex. rewrite Hint.
    reflexivity. }
  rewrite Hop. cbv zeta. split; intros Hk.
  - destruct (Z.ltb_spec k 0) as [|_]; [lia|]. destruct (Z.leb_spec n k) as [|_]; [lia|].
    cbn [orb]. destruct (lookup_lt_is_Some_2 items (Z.to_nat k) ltac:(lia)) as [v Hv].
    rewrite Hv. exists v. eexists. split; [done|]. split; [reflexivity|].
    rewrite push_in_bounds by (cbn; lia). unfold pushRaw, top.
    cbn [vm set_vm stackTop set_stackTop stack set_stack r_ip].
    split; [lia|]. split.
    + replace (stackTop (vm r) - 2 + 1 + -1) with (stackTop (vm r) - 2) by lia.
      apply aset_eq.
    + split; [done|]. intros j Hj. by apply aset_ne.
  - assert ((k <? 0) || (n <=? k) = true) as ->.
    { destruct (Z.ltb_spec k 0); [done|]. destruct (Z.leb_spec n k); [done|]. lia. }
    eexists. split; [reflexivity|]. unfold runtimeError.
    cbn [stderr set_stderr set_stackTop set_frameCount stackTop frameCount hasError
         vm set_vm STORE_FRAME set_frames].
    split; [|done]. apply in_or_app. right. by left.
Qed.

Lemma index_get_on_a_list_witness :
  let items := [NUMBER_VAL (double_of_int 10); NUMBER_VAL (double_of_int 20)] in
  let vm0 := pushRaw (pushRaw initVM (OBJ_VAL (OBJ_LIST items)))
               (NUMBER_VAL (double_of_int (-1))) in
  let r := mkRegs vm0 0 (mkCodePtr [] 0) [] in
  exists v r', items !! Z.to_nat 1 = Some v /\ op_INDEX_GET r = Next r' /\
               top (vm r') (-1) = v.
Proof.
  intros items vm0 r.
  destruct (index_get_on_a_list r items (double_of_int (-1)) (-1)
              eq_refl eq_refl eq_refl ltac:(vm_compute; split; discriminate)) as [Hin _].
  destruct (Hin ltac:(vm_compute; split; [discriminate|reflexivity]))
    as (v & r' & Hv & Hop & _ & Htop & _).
  exists v, r'. split; [exact Hv|]. split; [exact Hop|exact Htop].
Defined.

(** *** Handlers *)

(** X19.  The stack of handlers.  [OP_PUSH_HANDLER] registers a handler
    while fewer than [HANDLER_MAX] are registered, and [OP_POP_HANDLER]
    after it gives the count of before; with [HANDLER_MAX] handlers
    registered the push leaves the loop with a runtime error.
    [OP_POP_HANDLER] with no handler registered does nothing. *)
Theorem handlers_push_and_pop (r r1 : Regs) (off : Z) :
  READ_SHORT r = Some (off, r1) -> 0 <= handlerCount (vm r) ->
  (handlerCount (vm r) < HANDLER_MAX ->
   exists rp rq,
     op_PUSH_HANDLER r = Next rp /\ op_POP_HANDLER rp = Next rq /\
     handlerCount (vm rp) = handlerCount (vm r) + 1 /\
     handlerCount (vm rq) = handlerCount (vm r) /\
     stackTop (vm rq) = stackTop (vm r) /\ frameCount (vm rq) = frameCount (vm r) /\
     r_ip rq = r_ip r1 /\
     forall i, i <> handlerCount (vm r) -> handlers (vm rq) i = handlers (vm r) i) /\
  (HANDLER_MAX <= handlerCount (vm r) ->
   exists vm',
     op_PUSH_HANDLER r = Return INTERPRET_RUNTIME_ERROR vm' /\
     In (Message (lit "Too many nested error handlers.")) (stderr vm') /\
     handlerCount vm' = handlerCount (vm r)) /\
  (handlerCount (vm r) = 0 -> op_POP_HANDLER r = Next r).
Proof.
  intros Hread Hcount. pose proof (READ_SHORT_vm _ _ _ Hread) as Hvm.
  split; [|split].
  - intros Hroom. unfold op_PUSH_HANDLER. rewrite Hread, Hvm.
    destruct (Z.leb_spec HANDLER_MAX (handlerCount (vm r))) as [|_]; [lia|].
    eexists. eexists. split; [reflexivity|]. unfold op_POP_HANDLER.
    cbn [vm set_vm handlerCount set_handlerCount set_handlers].
    destruct (Z.ltb_spec 0 (handlerCount (vm r) + 1)) as [_|]; [|lia].
    split; [reflexivity|].
    cbn [vm set_vm handlerCount set_handlerCount set_handlers stackTop frameCount handlers
         r_ip].
    split; [done|]. split; [lia|]. split; [done|]. split; [done|]. split; [done|].
    intros i Hi. by apply aset_ne.
  - intros Hfull. unfold op_PUSH_HANDLER. rewrite Hread, Hvm.
    destruct (Z.leb_spec HANDLER_MAX (handlerCount (vm r))) as [_|]; [|lia].
    eexists. split; [reflexivity|]. unfold runtimeError.
    cbn [stderr set_stderr set_stackTop set_frameCount handlerCount vm set_vm STORE_FRAME
         set_frames].
    rewrite Hvm. split; [|done]. apply in_or_app. right. by left.
  - intros H0. unfold op_POP_HANDLER. by rewrite H0.
Qed.

Lemma handlers_push_and_pop_witness :
  exists rp rq,
    op_PUSH_HANDLER atPushHandler = Next rp /\ op_POP_HANDLER rp = Next rq /\
    handlerCount (vm rq) = handlerCount (vm atPushHandler).
Proof.
  destruct (READ_SHORT atPushHandler) as [[off r1]|] eqn:Hread;
    [|vm_compute in Hread; discriminate Hread].
  destruct (handlers_push_and_pop atPushHandler r1 off Hread
              ltac:(vm_compute; discriminate)) as (Hpush & _ & _).
  destruct (Hpush ltac:(vm_compute; reflexivity)) as (rp & rq & H1 & H2 & _ & H4 & _).
  exists rp, rq. split; [exact H1|]. split; [exact H2|exact H4].
Defined.

(** *** Permissions *)

(** X20.  What [allow] grants.  After [OP_ALLOW] a query is answered as
    before, or with yes when it has the type that the instruction names
    and its target matches the pattern of the instruction; the stack,
    the globals and the handlers are as they were. *)
Theorem allow_grants_the_pattern (r r1 r2 : Regs) (permType : Z) (target : ObjString)
    (ty : Permission.PermissionType) :
  READ_BYTE r = Some (permType, r1) ->
  READ_STRING r1 = Some (target, r2) ->
  permissionOfByte permType = Some ty ->
  exists r',
    op_ALLOW r = Next r' /\
    (forall ty' text,
       Permission.hasPermission (permissions (vm r')) ty' text =
       Permission.hasPermission (permissions (vm r)) ty' text ||
       (Permission.PermissionType_eqb ty ty' &&
        Permission.globMatch (untilNul target) text)) /\
    stackTop (vm r') = stackTop (vm r) /\ globals (vm r') = globals (vm r) /\
    handlerCount (vm r') = handlerCount (vm r) /\ r_ip r' = r_ip r2.
Proof.
  intros Hb Hs Hty. pose proof (READ_BYTE_vm _ _ _ Hb) as Hvm1.
  pose proof (ImportProofs.READ_STRING_vm _ _ _ Hs) as Hvm2.
  unfold op_ALLOW. rewrite Hb, Hs, Hty. eexists. split; [reflexivity|].
  cbn [vm set_vm permissions set_permissions stackTop globals handlerCount r_ip].
  rewrite Hvm2, Hvm1. split; [|done]. intros ty' text.
  rewrite PermissionExtras.hasPermission_grant by lia.
  by rewrite Nat2Z.id, firstn_all.
Qed.

Lemma allow_grants_the_pattern_witness :
  let r := mkRegs initVM 0 (mkCodePtr [0; 0] 0) [OBJ_VAL (OBJ_STRING (lit "git*"))] in
  exists r', op_ALLOW r = Next r' /\
    Permission.hasPermission (permissions (vm r')) Permission.PERM_EXEC (lit "git log") = true.
Proof.
  intros r.
  destruct (allow_grants_the_pattern r
              (mkRegs initVM 0 (mkCodePtr [0; 0] 1) [OBJ_VAL (OBJ_STRING (lit "git*"))])
              (mkRegs initVM 0 (mkCodePtr [0; 0] 2) [OBJ_VAL (OBJ_STRING (lit "git*"))])
              0 (lit "git*") Permission.PERM_EXEC eq_refl eq_refl eq_refl)
    as (r' & Hop & Hgrant & _).
  exists r'. split; [exact Hop|]. rewrite Hgrant. reflexivity.
Defined.




(** *** Building a list *)

Lemma map_top_stack (vm : VM) (n : nat) :
  map (fun i => top vm (- Z.of_nat i - 1)) (rev (seq 0 n)) =
  map (fun j => stack vm (stackTop vm - Z.of_nat n + Z.of_nat j)) (seq 0 n).
Proof.
  induction n as [|n IH]; [done|].
  rewrite seq_S, rev_app_distr. cbn [rev app map Nat.add].
  rewrite IH, map_app. cbn [map].
  rewrite <- (app_nil_l (map _ (seq 0 n) ++ _)). cbn [app].
  assert (map (fun j => stack vm (stackTop vm - Z.of_nat n + Z.of_nat j)) (seq 0 n) =
          map (fun j => stack vm (stackTop vm - Z.of_nat (S n) + Z.of_nat j)) (seq 1 n)) as ->.
  { rewrite <- seq_shift, map_map. apply map_ext. intros j. f_equal. lia. }
  unfold top.
  replace (stackTop vm + (- Z.of_nat n - 1)) with (stackTop vm - Z.of_nat (S n) + Z.of_nat 0)
    by lia.
  change (stack vm (stackTop vm - Z.of_nat (S n) + Z.of_nat 0) ::
          map (fun j => stack vm (stackTop vm - Z.of_nat (S n) + Z.of_nat j)) (seq 1 n))
    with (map (fun j => stack vm (stackTop vm - Z.of_nat (S n) + Z.of_nat j)) (0%nat :: seq 1 n)).
  change (0%nat :: seq 1 n) with (seq 0 (S n)). by rewrite seq_S, map_app.
Qed.

(** X22.  [OP_BUILD_LIST].  With room for one more value on the stack
    and [n] values on it, the instruction replaces the [n] topmost
    values by one list that holds them in the order in which they were
    pushed, the deepest first; the slots below are as they were. *)
Theorem build_list_collects_the_top_values (r r1 : Regs) (n : Z) :
  READ_BYTE r = Some (n, r1) ->
  0 <= n <= stackTop (vm r) -> stackTop (vm r) < STACK_MAX ->
  exists r',
    op_BUILD_LIST r = Next r' /\
    stackTop (vm r') = stackTop (vm r) - n + 1 /\
    top (vm r') (-1) =
      OBJ_VAL (OBJ_LIST (map (fun j => stack (vm r) (stackTop (vm r) - n + Z.of_nat j))
                           (seq 0 (Z.to_nat n)))) /\
    r_ip r' = r_ip r1 /\
    forall i, i < stackTop (vm r) - n -> stack (vm r') i = stack (vm r) i.
Proof.
  intros Hread Hn Htop. pose proof (READ_BYTE_vm _ _ _ Hread) as Hvm.
  unfold op_BUILD_LIST. rewrite Hread, Hvm. cbv zeta.
  rewrite (map_top_stack (vm r) (Z.to_nat n)), Z2Nat.id by lia.
  set (list := OBJ_VAL (OBJ_LIST _)).
  rewrite (push_in_bounds (vm r) list Htop).
  set (vm1 := set_stackTop (pushRaw (vm r) list) _).
  assert (stackTop vm1 = stackTop (vm r) - n) as Htop1.
  { unfold vm1, pushRaw. cbn [stackTop set_stackTop]. lia. }
  rewrite (push_in_bounds vm1 list) by lia.
  eexists. split; [reflexivity|].
  unfold pushRaw at 1 2 3 4, top. cbn [vm set_vm stackTop set_stackTop stack set_stack r_ip].
  rewrite Htop1. split; [lia|]. split.
  - replace (stackTop (vm r) - n + 1 + -1) with (stackTop (vm r) - n) by lia.
    apply aset_eq.
  - split; [done|]. intros i Hi. rewrite aset_ne by lia.
    unfold vm1, pushRaw. cbn [stack set_stack set_stackTop]. by rewrite aset_ne by lia.
Qed.

Lemma build_list_collects_the_top_values_witness :
  let vm0 := pushRaw (pushRaw initVM (NUMBER_VAL (double_of_int 1)))
               (NUMBER_VAL (double_of_int 2)) in
  let r := mkRegs vm0 0 (mkCodePtr [2] 0) [] in
  exists r', op_BUILD_LIST r = Next r' /\
    top (vm r') (-1) =
      OBJ_VAL (OBJ_LIST [NUMBER_VAL (double_of_int 1); NUMBER_VAL (double_of_int 2)]).
Proof.
  intros vm0 r.
  destruct (build_list_collects_the_top_values r (mkRegs vm0 0 (mkCodePtr [2] 1) []) 2
              eq_refl ltac:(vm_compute; split; discriminate) ltac:(vm_compute; reflexivity))
    as (r' & Hop & _ & Htop & _).
  exists r'. split; [exact Hop|]. rewrite Htop. reflexivity.
Defined.

End VMExtras.

(* ================================================================= *)
(** ** vm.c: the natives on strings and lists *)

Module NativesExtras.
Import Object TableC Natives NativesProps.
Local Open Scope nat_scope.

Local Abbreviation str_ s := (OBJ_VAL (OBJ_STRING s)).
Local Abbreviation list_ l := (OBJ_VAL (OBJ_LIST l)).

Lemma startsWith_spec (text prefix : list ascii) :
  startsWith text prefix = true <-> exists rest, text = prefix ++ rest.
Proof.
  revert prefix. induction text as [|t text IH]; intros [|p prefix]; cbn.
  - split; [by exists []|done].
  - split; [done|]. by intros [rest Hrest].
  - split; [by exists (t :: text)|done].
  - rewrite andb_true_iff, Ascii.eqb_eq, IH. split.
    + intros [-> [rest ->]]. by exists rest.
    + intros [rest Hrest]. injection Hrest as -> ->. split; [done|by exists rest].
Qed.

Lemma untilNul_noNul (s : list ascii) : noNul s -> untilNul s = s.
Proof.
  unfold noNul. induction s as [|c s IH]; intros Hs; [done|]. cbn.
  destruct (Ascii.eqb_spec c zero) as [->|_].
  - exfalso. apply Hs. left.
  - f_equal. apply IH. intros Hin. apply Hs. by right.
Qed.

Lemma noNul_drop (s : list ascii) (n : nat) : noNul s -> noNul (drop n s).
Proof.
  unfold noNul. intros Hs Hin. apply Hs.
  rewrite <- (take_drop n s). apply elem_of_app. by right.
Qed.

(** Where [strstr] finds the needle, the text is what precedes it, the
    needle, and what follows. *)
Lemma strstr_Some (haystack needle : list ascii) (pos : nat) :
  strstr haystack needle = Some pos ->
  haystack = take pos haystack ++ needle ++ drop (pos + length needle) haystack /\
  pos + length needle <= length haystack.
Proof.
  revert pos. induction haystack as [|h haystack IH]; intros pos; cbn [strstr].
  - destruct (startsWith [] needle) eqn:Hs; [|done].
    intros [= <-]. apply startsWith_spec in Hs as [rest Hrest].
    destruct needle; [|done]. by cbn.
  - destruct (startsWith (h :: haystack) needle) eqn:Hs.
    + intros [= <-]. apply startsWith_spec in Hs as [rest Hrest].
      rewrite Hrest at 1 3. cbn [take app Nat.add]. rewrite drop_app_length.
      split; [done|]. rewrite Hrest, length_app. lia.
    + destruct (strstr haystack needle) as [k|] eqn:Hk; [|done].
      intros [= <-]. destruct (IH k eq_refl) as [Heq Hle].
      cbn. split; [|lia]. f_equal. exact Heq.
Qed.

(** The needle stands nowhere before the place that [strstr] finds,
    and nowhere at all when it finds none. *)
Lemma strstr_first (haystack needle : list ascii) (j : nat) :
  match strstr haystack needle with
  | Some pos => j < pos
  | None => j <= length haystack
  end ->
  startsWith (drop j haystack) needle = false.
Proof.
  revert j. induction haystack as [|h haystack IH]; intros j; cbn [strstr].
  - destruct (startsWith [] needle) eqn:Hs; [lia|]. intros _. by destruct j.
  - destruct (startsWith (h :: haystack) needle) eqn:Hs; [lia|].
    specialize (IH (pred j)).
    destruct (strstr haystack needle) as [k|]; intros Hj;
      (destruct j as [|j]; [done|]); cbn [drop]; apply IH; cbn [pred length] in *; lia.
Qed.

Lemma strstr_None (haystack needle : list ascii) :
  (forall j, j <= length haystack -> startsWith (drop j haystack) needle = false) ->
  strstr haystack needle = None.
Proof.
  induction haystack as [|h haystack IH]; intros Hno; cbn [strstr].
  - pose proof (Hno 0 (Nat.le_refl _)) as H0. rewrite drop_0 in H0. by rewrite H0.
  - pose proof (Hno 0 (Nat.le_0_l _)) as H0. rewrite drop_0 in H0.
    rewrite H0, IH; [done|].
    intros j Hj. apply (Hno (S j)). cbn. lia.
Qed.

(** A piece cut off before the first place of the needle does not
    hold the needle. *)
Lemma strstr_take (haystack needle : list ascii) (pos : nat) :
  needle <> [] ->
  strstr haystack needle = Some pos ->
  strstr (take pos haystack) needle = None.
Proof.
  intros Hne Hpos. apply strstr_None. intros j Hj.
  destruct (startsWith (drop j (take pos haystack)) needle) eqn:Hs; [|done].
  exfalso. apply startsWith_spec in Hs as [rest Hrest].
  rewrite length_take in Hj.
  destruct (decide (j < pos)) as [Hlt|Hge].
  - pose proof (strstr_first haystack needle j) as Hfirst. rewrite Hpos in Hfirst.
    specialize (Hfirst Hlt).
    assert (Hs : startsWith (drop j haystack) needle = true); [|congruence].
    apply startsWith_spec. exists (rest ++ drop pos haystack).
    rewrite <- (take_drop pos haystack) at 1.
    rewrite drop_app_le by (rewrite length_take; lia).
    by rewrite Hrest, <- app_assoc.
  - rewrite drop_ge in Hrest by (rewrite length_take; lia).
    by destruct needle.
Qed.

Section Loops.
Variable host : Host.

Lemma joinLoop_later (pieces : list Value) (sep : list ascii) :
  pieces <> [] ->
  joinLoop host pieces sep false = sep ++ joinLoop host pieces sep true.
Proof. by destruct pieces. Qed.

(** The three loops over the places of [old] go the same way. *)
Lemma loops (chars old newStr : list ascii) (fuel : nat) :
  noNul chars -> noNul old -> old <> [] ->
  forall (start : nat) (items : list Value),
    length (drop start chars) < fuel ->
    exists (pieces : list Value) (count : nat),
      splitLoop fuel chars old start items = Some (items ++ pieces) /\
      countLoop fuel chars old start = Some count /\
      replaceLoop fuel chars old newStr start = Some (joinLoop host pieces newStr true) /\
      length pieces = S count /\
      joinLoop host pieces old true = drop start chars /\
      length (joinLoop host pieces newStr true) + count * length old
        = length (drop start chars) + count * length newStr /\
      Forall (fun piece => exists s, piece = str_ s /\ strstr s old = None) pieces.
Proof.
  intros Hchars Hold Hne. induction fuel as [|fuel IH]; intros start items Hfuel; [lia|].
  cbn [splitLoop countLoop replaceLoop].
  rewrite (untilNul_noNul old Hold), (untilNul_noNul _ (noNul_drop chars start Hchars)).
  destruct (strstr (drop start chars) old) as [pos|] eqn:Hpos.
  - destruct (strstr_Some _ _ _ Hpos) as [Heq Hle].
    assert (Hlen : 0 < length old) by (destruct old; [done|cbn; lia]).
    rewrite drop_drop, Nat.add_assoc in Heq.
    destruct (IH (start + pos + length old)
                (items ++ [str_ (take pos (drop start chars))])) as
      (pieces & count & Hsplit & Hcount & Hreplace & Hpieces & Hjoin & Hsize & Hall).
    { rewrite length_drop in *. lia. }
    rewrite Hsplit, Hcount, Hreplace.
    assert (Hsome : pieces <> []) by (by destruct pieces).
    exists (str_ (take pos (drop start chars)) :: pieces), (S count).
    repeat split.
    + by rewrite <- app_assoc.
    + cbn [joinLoop itemText app]. by rewrite (joinLoop_later _ _ Hsome).
    + cbn. by rewrite Hpieces.
    + cbn [joinLoop itemText app]. rewrite (joinLoop_later _ _ Hsome), Hjoin.
      symmetry. exact Heq.
    + cbn [joinLoop itemText app]. rewrite (joinLoop_later _ _ Hsome).
      rewrite !length_app, length_take, !length_drop in *. lia.
    + constructor; [|exact Hall]. eexists. split; [done|].
      by apply strstr_take.
  - exists [str_ (drop start chars)], 0. repeat split.
    + cbn. by rewrite app_nil_r.
    + cbn. by rewrite app_nil_r.
    + cbn. rewrite app_nil_r. lia.
    + constructor; [|constructor]. by eexists.
Qed.


End Loops.

(** *** [split], [join] and [replace] *)



(** X24.  [replace] is [split] and [join].  With an [old] that is not
    empty, replacing it by [newStr] gives what joining with [newStr]
    the pieces of the split at [old] gives, as long as the length of
    that text fits an [int]. *)
Theorem replace_is_split_then_join (host : Host) (str old newStr : list ascii)
    (pieces : list Value) :
  noNul str -> noNul old -> old <> [] ->
  splitNative [str_ str; str_ old] = Some (list_ pieces) ->
  (Z.of_nat (length (joinLoop host pieces newStr true)) <= INT_MAX)%Z ->
  replaceNative [str_ str; str_ old; str_ newStr]
  = Some (joinNative host [list_ pieces; str_ newStr]).
Proof.
  intros Hstr Hold Hne Hsplit Hfits. destruct old as [|o old]; [done|].
  destruct (loops host str (o :: old) newStr (S (length str)) Hstr Hold Hne) with
    (start := 0) (items := @nil Value)
    as (pieces' & count & Hsplit' & Hcount & Hreplace & Hpieces & Hjoin & Hsize & Hall);
    [rewrite length_drop; lia|].
  unfold splitNative in Hsplit. rewrite Hsplit' in Hsplit. injection Hsplit as <-.
  unfold replaceNative. rewrite Hcount, Hreplace. cbn [joinNative].
  destruct count as [|count].
  - destruct pieces' as [|piece [|? ?]]; [done| |done].
    apply Forall_cons in Hall as [[s [-> _]] _].
    cbn in Hjoin |- *. rewrite app_nil_r in Hjoin |- *. by rewrite Hjoin, drop_0.
  - set (newLen := (Z.of_nat (length str)
                    + Z.of_nat (S count)
                      * (Z.of_nat (length newStr) - Z.of_nat (length (o :: old))))%Z).
    assert (HnewLen : newLen = Z.of_nat (length (joinLoop host pieces' newStr true))).
    { subst newLen. rewrite drop_0 in Hsize. apply (f_equal Z.of_nat) in Hsize.
      rewrite !Nat2Z.inj_add, !Nat2Z.inj_mul in Hsize. lia. }
    rewrite HnewLen, Nat2Z.id.
    destruct (INT_MAX <? _)%Z eqn:Hmax; [lia|].
    by rewrite take_app_length.
Qed.

Lemma replace_is_split_then_join_witness :
  replaceNative [str_ (lit "a,b,,c"); str_ (lit ","); str_ (lit "--")]
  = Some (joinNative Examples.quietHost
            [list_ [str_ (lit "a"); str_ (lit "b"); str_ (lit ""); str_ (lit "c")];
             str_ (lit "--")]).
Proof.
  apply (replace_is_split_then_join Examples.quietHost (lit "a,b,,c") (lit ",") (lit "--")).
  - unfold noNul; cbn; intros Hin;
      by repeat (apply elem_of_cons in Hin as [?|Hin]; [done|]); apply elem_of_nil in Hin.
  - unfold noNul; cbn; intros Hin;
      by repeat (apply elem_of_cons in Hin as [?|Hin]; [done|]); apply elem_of_nil in Hin.
  - done.
  - reflexivity.
  - vm_compute. discriminate.
Defined.

(** *** [trim], [starts_with] and [ends_with] *)

Lemma leading_blanks (front rest : list ascii) :
  Forall (fun c => blank c = true) front ->
  leading (front ++ rest) = length front + leading rest.
Proof.
  induction 1 as [|c front Hc _ IH]; [done|]. cbn. by rewrite Hc, IH.
Qed.

Lemma leading_head (text : list ascii) :
  (forall c, head text = Some c -> blank c = false) -> text <> [] -> leading text = 0.
Proof.
  destruct text as [|c text]; [done|]. intros Hc _. cbn. by rewrite (Hc c eq_refl).
Qed.

(** X25.  [trim] removes the blanks around a text and nothing else: of
    blanks, a text that neither starts nor ends with a blank, and
    blanks again, the middle is what stays.  The blanks are the space,
    the tab, the line feed and the carriage return. *)
Theorem trim_drops_the_blanks_around (front middle back : list ascii) :
  Forall (fun c => blank c = true) front ->
  Forall (fun c => blank c = true) back ->
  (forall c, head middle = Some c -> blank c = false) ->
  (forall c, last middle = Some c -> blank c = false) ->
  trimNative [str_ (front ++ middle ++ back)] = str_ middle.
Proof.
  intros Hfront Hback Hhead Hlast. unfold trimNative. do 2 f_equal.
  rewrite (leading_blanks front _ Hfront).
  destruct (decide (middle = [])) as [->|Hmiddle].
  - cbn [app]. rewrite <- (app_nil_r back) at 1.
    rewrite (leading_blanks back [] Hback). cbn [leading].
    rewrite drop_ge by (rewrite length_app; lia). done.
  - rewrite (leading_head (middle ++ back)).
    + rewrite Nat.add_0_r, drop_app_length, rev_app_distr.
      rewrite (leading_blanks (rev back)) by (by apply Forall_rev).
      rewrite (leading_head (rev middle)).
      * rewrite length_rev, length_app, Nat.add_0_r.
        replace (length middle + length back - length back) with (length middle) by lia.
        by rewrite take_app_length.
      * intros c Hc. apply Hlast. destruct (rev middle) as [|x xs] eqn:Hrev; [done|].
        injection Hc as ->. rewrite <- (rev_involutive middle), Hrev. cbn.
        apply last_snoc.
      * intros Hrev. apply Hmiddle. by rewrite <- (rev_involutive middle), Hrev.
    + intros c Hc. apply Hhead. by destruct middle.
    + by destruct middle.
Qed.

Lemma trim_drops_the_blanks_around_witness :
  trimNative [str_ (lit "  " ++ lit "a b" ++ [" "; "010"]%char)] = str_ (lit "a b").
Proof.
  apply (trim_drops_the_blanks_around (lit "  ") (lit "a b") [" "; "010"]%char).
  - by repeat constructor.
  - by repeat constructor.
  - intros c [= <-]. reflexivity.
  - intros c [= <-]. reflexivity.
Defined.

(** [starts_with] and [ends_with] answer [true] exactly for a
    text that is the other one followed, or preceded, by some text;
    a part longer than the text is never found. *)
Theorem starts_with_and_ends_with (str part : list ascii) :
  (startsWithNative [str_ str; str_ part] = BOOL_VAL true
   <-> exists rest, str = part ++ rest) /\
  (endsWithNative [str_ str; str_ part] = BOOL_VAL true
   <-> exists rest, str = rest ++ part).
Proof.
  unfold startsWithNative, endsWithNative. split.
  - destruct (Nat.ltb_spec (length str) (length part)) as [Hlt|Hle].
    + split; [done|]. intros [rest ->]. rewrite length_app in Hlt. lia.
    + rewrite <- startsWith_spec. split; [by intros [= ->]|by intros ->].
  - destruct (Nat.ltb_spec (length str) (length part)) as [Hlt|Hle].
    + split; [done|]. intros [rest ->]. rewrite length_app in Hlt. lia.
    + split.
      * intros [= Hs]. apply startsWith_spec in Hs as [rest Hrest].
        assert (rest = []) as ->.
        { apply (f_equal length) in Hrest. rewrite length_drop, length_app in Hrest.
          destruct rest; [done|]. cbn in Hrest. lia. }
        exists (take (length str - length part) str).
        rewrite app_nil_r in Hrest.
        rewrite <- (take_drop (length str - length part) str) at 1. by rewrite Hrest.
      * intros [rest ->]. rewrite length_app.
        replace (length rest + length part - length part) with (length rest) by lia.
        rewrite drop_app_length.
        by rewrite (proj2 (startsWith_spec part part) (ex_intro _ [] (eq_sym (app_nil_r _)))).
Qed.

(** *** [sort] *)

Lemma swapAt_app (pre : list Value) (a b : Value) (rest : list Value) :
  swapAt (pre ++ a :: b :: rest) (length pre)
  = if greater a b then pre ++ b :: a :: rest else pre ++ a :: b :: rest.
Proof.
  unfold swapAt.
  rewrite (lookup_app_r pre) by lia. rewrite Nat.sub_diag. cbn [lookup list_lookup].
  rewrite (lookup_app_r pre) by lia.
  replace (S (length pre) - length pre) with 1 by lia. cbn [lookup list_lookup].
  destruct a as [|?|x|?]; cbn [greater]; try done.
  destruct b as [|?|y|?]; cbn [greater]; try done.
  destruct (SFltb y x); [|done].
  rewrite (insert_app_r_alt pre) by lia.
  replace (S (length pre) - length pre) with 1 by lia.
  rewrite (insert_app_r_alt pre) by lia. by rewrite Nat.sub_diag.
Qed.

(** The inner loop is [bubble]. *)
Lemma sortPass_bubble_from (n : nat) :
  forall pre items : list Value,
    n = 0 \/ n < length items ->
    fold_left swapAt (seq (length pre) n) (pre ++ items) = pre ++ bubble n items.
Proof.
  induction n as [|n IH]; intros pre items Hn; [by destruct items|].
  destruct Hn as [|Hn]; [done|].
  destruct items as [|a [|b rest]]; [cbn in Hn; lia..|].
  cbn [seq fold_left bubble]. rewrite swapAt_app.
  assert (Hn' : n = 0 \/ n < length (a :: rest)) by (cbn in *; lia).
  assert (Hn'' : n = 0 \/ n < length (b :: rest)) by (cbn in *; lia).
  destruct (greater a b).
  - specialize (IH (pre ++ [b]) (a :: rest) Hn').
    rewrite length_app, Nat.add_1_r, <- !app_assoc in IH. exact IH.
  - specialize (IH (pre ++ [a]) (b :: rest) Hn'').
    rewrite length_app, Nat.add_1_r, <- !app_assoc in IH. exact IH.
Qed.

Lemma sortPass_bubble (n : nat) (items : list Value) :
  n = 0 \/ n < length items -> sortPass items n = bubble n items.
Proof. apply (sortPass_bubble_from n []). Qed.

Lemma bubble_length (n : nat) : forall items, length (bubble n items) = length items.
Proof.
  induction n as [|n IH]; intros items; [by destruct items|].
  destruct items as [|a [|b rest]]; [done..|]. cbn [bubble].
  destruct (greater a b); cbn [length]; by rewrite IH.
Qed.

Lemma bubble_Permutation (n : nat) : forall items, bubble n items ≡ₚ items.
Proof.
  induction n as [|n IH]; intros items; [by destruct items|].
  destruct items as [|a [|b rest]]; [done..|]. cbn [bubble].
  destruct (greater a b).
  - rewrite IH. apply Permutation_swap.
  - by rewrite IH.
Qed.

(** What is no number keeps its place. *)
Lemma bubble_stays (n : nat) :
  forall (items : list Value) (i : nat) (v : Value),
    items !! i = Some v -> isNumber v = false -> bubble n items !! i = Some v.
Proof.
  induction n as [|n IH]; intros items i v Hi Hv; [by destruct items|].
  destruct items as [|a [|b rest]]; [done..|]. cbn [bubble].
  destruct (greater a b) eqn:Hgt.
  - destruct a as [|?|x|?]; try done. destruct b as [|?|y|?]; try done.
    destruct i as [|[|i]]; cbn in Hi.
    + injection Hi as <-. done.
    + injection Hi as <-. done.
    + cbn. by apply (IH (NUMBER_VAL x :: rest) (S i)).
  - destruct i as [|i]; [done|]. cbn. by apply IH.
Qed.

(** The outer loop of [sortNative], from the round [i] on. *)
Local Abbreviation rounds count from n items :=
  (fold_left (fun items i => sortPass items (count - i - 1)) (seq from n) items).

Lemma rounds_keep (count : nat) (n : nat) :
  forall (from : nat) (items : list Value),
    length items = count ->
    length (rounds count from n items) = count /\
    rounds count from n items ≡ₚ items /\
    forall i v, items !! i = Some v -> isNumber v = false ->
                rounds count from n items !! i = Some v.
Proof.
  induction n as [|n IH]; intros from items Hlen; [done|].
  cbn [seq fold_left].
  assert (Hpass : sortPass items (count - from - 1) = bubble (count - from - 1) items).
  { apply sortPass_bubble. lia. }
  rewrite Hpass.
  destruct (IH (S from) (bubble (count - from - 1) items)) as (Hlen' & Hperm & Hstay).
  { by rewrite bubble_length. }
  split; [done|]. split.
  - by rewrite Hperm, bubble_Permutation.
  - intros i v Hi Hv. apply Hstay; [|done]. by apply bubble_stays.
Qed.

(** X26.  [sort] reorders and loses nothing: the list afterwards is a
    permutation of the list before, and a value that is no number is
    where it was. *)
Theorem sort_is_a_permutation (items : list Value) :
  exists sorted : list Value,
    sortNative [list_ items] = list_ sorted /\
    sorted ≡ₚ items /\
    forall i v, items !! i = Some v -> isNumber v = false -> sorted !! i = Some v.
Proof.
  eexists. split; [reflexivity|].
  destruct (rounds_keep (length items) (length items - 1) 0 items eq_refl) as (_ & Hperm & Hstay).
  by split.
Qed.

Ltac compare_cases :=
  repeat match goal with
  | |- context [Z.compare ?a ?b] => destruct (Z.compare_spec a b)
  | |- context [Pos.compare_cont Eq ?a ?b] =>
      change (Pos.compare_cont Eq a b) with (Pos.compare a b)
  | |- context [Pos.compare ?a ?b] => destruct (Pos.compare_spec a b)
  end.

Ltac float_cases x := destruct x as [[]|[]| |[] ? ?]; try done.

(** The comparison of doubles is an order on the doubles that are no
    NaN. *)
Lemma SFltb_asym (x y : double) : SFltb x y = true -> SFltb y x = false.
Proof.
  unfold SFltb, SFcompare.
  float_cases x; float_cases y; cbn; compare_cases; cbn; (done || lia).
Qed.

Lemma SFltb_trans (x y z : double) :
  x <> S754_nan -> y <> S754_nan -> z <> S754_nan ->
  SFltb y x = false -> SFltb z y = false -> SFltb z x = false.
Proof.
  intros Hx Hy Hz. unfold SFltb, SFcompare.
  float_cases x; float_cases y; float_cases z; cbn; compare_cases; cbn; (done || lia).
Qed.

Lemma SFltb_SFleb (x y : double) :
  x <> S754_nan -> y <> S754_nan -> SFltb y x = false -> SFleb x y = true.
Proof.
  intros Hx Hy. unfold SFltb, SFleb, SFcompare.
  float_cases x; float_cases y; cbn; compare_cases; cbn; (done || lia).
Qed.

Lemma greater_asym (a b : Value) : greater a b = true -> greater b a = false.
Proof.
  destruct a as [|?|x|?], b as [|?|y|?]; try done. cbn. apply SFltb_asym.
Qed.

Lemma greater_irrefl (a : Value) : greater a a = false.
Proof.
  destruct (greater a a) eqn:Hgt; [|done]. by rewrite (greater_asym _ _ Hgt) in Hgt.
Qed.

Lemma greater_trans (a b c : Value) :
  ordered a -> ordered b -> ordered c ->
  greater a b = false -> greater b c = false -> greater a c = false.
Proof.
  destruct a as [|?|x|?], b as [|?|y|?], c as [|?|z|?]; try done. cbn.
  intros Hx Hy Hz Hxy Hyz. by apply (SFltb_trans x y z).
Qed.

(** A pass over [n] pairs brings the greatest of the first [n + 1]
    values behind them. *)
Lemma bubble_max (n : nat) :
  forall items : list Value,
    Forall ordered items -> n < length items ->
    exists (front : list Value) (top : Value),
      bubble n items = front ++ top :: drop (S n) items /\
      length front = n /\
      front ++ [top] ≡ₚ take (S n) items /\
      Forall (fun v => greater v top = false) front.
Proof.
  induction n as [|n IH]; intros items Hord Hn.
  - destruct items as [|a rest]; [cbn in Hn; lia|]. by exists [], a.
  - destruct items as [|a [|b rest]]; [cbn in Hn; lia..|].
    apply Forall_cons in Hord as [Ha Hord]. pose proof Hord as Hord'.
    apply Forall_cons in Hord' as [Hb Hrest].
    cbn [bubble]. destruct (greater a b) eqn:Hgt.
    + destruct (IH (a :: rest)) as (front & top & Heq & Hlen & Hperm & Hall).
      { by constructor. } { cbn in *; lia. }
      exists (b :: front), top. rewrite Heq. split; [done|]. split; [by cbn; rewrite Hlen|].
      split.
      * cbn [app]. rewrite Hperm. cbn. apply Permutation_swap.
      * constructor; [|done].
        assert (Hin : a ∈ front ++ [top]) by (rewrite Hperm; cbn; left).
        assert (Htop : ordered top).
        { assert (Hin' : top ∈ a :: rest).
          { apply (subseteq_take (S n)). rewrite <- Hperm. apply elem_of_app. right. left. }
          apply (proj1 (Forall_forall _ _) (Forall_cons_2 _ _ _ Ha Hrest) _ Hin'). }
        apply elem_of_app in Hin as [Hin|Hin].
        -- apply (greater_trans b a top); [done..|by apply greater_asym|].
           by apply (proj1 (Forall_forall _ _) Hall).
        -- apply list_elem_of_singleton in Hin as ->. by apply greater_asym.
    + destruct (IH (b :: rest)) as (front & top & Heq & Hlen & Hperm & Hall).
      { done. } { cbn in *; lia. }
      exists (a :: front), top. rewrite Heq. split; [done|]. split; [by cbn; rewrite Hlen|].
      split.
      * cbn [app]. by rewrite Hperm.
      * constructor; [|done].
        assert (Hin : b ∈ front ++ [top]) by (rewrite Hperm; cbn; left).
        assert (Htop : ordered top).
        { assert (Hin' : top ∈ b :: rest).
          { apply (subseteq_take (S n)). rewrite <- Hperm. apply elem_of_app. right. left. }
          apply (proj1 (Forall_forall _ _) Hord _ Hin'). }
        apply elem_of_app in Hin as [Hin|Hin].
        -- apply (greater_trans a b top); [done..|].
           by apply (proj1 (Forall_forall _ _) Hall).
        -- by apply list_elem_of_singleton in Hin as ->.
Qed.

Local Abbreviation ascending := (StronglySorted (fun a b : Value => greater a b = false)).

Lemma rounds_sorted (count : nat) (n : nat) :
  forall (from : nat) (items : list Value),
    length items = count -> Forall ordered items -> from + n = count - 1 ->
    ascending (drop (count - from) items) ->
    (forall x y, x ∈ take (count - from) items -> y ∈ drop (count - from) items ->
                 greater x y = false) ->
    ascending (rounds count from n items).
Proof.
  induction n as [|n IH]; intros from items Hlen Hord Hfrom Hsorted Hcross.
  - cbn [seq fold_left]. destruct items as [|a rest]; [constructor|].
    cbn [length] in Hlen. replace (count - from) with 1 in * by lia.
    constructor; [exact Hsorted|].
    apply Forall_forall. intros y Hy. apply Hcross; [left|exact Hy].
  - cbn [seq fold_left].
    assert (Hpass : sortPass items (count - from - 1) = bubble (count - from - 1) items).
    { apply sortPass_bubble. lia. }
    rewrite Hpass.
    destruct (bubble_max (count - from - 1) items Hord) as
      (front & top & Heq & Hfront & Hperm & Hall); [lia|].
    replace (S (count - from - 1)) with (count - from) in * by lia.
    assert (Htop : top ∈ take (count - from) items).
    { rewrite <- Hperm. apply elem_of_app. right. left. }
    apply IH.
    + by rewrite bubble_length.
    + by rewrite bubble_Permutation.
    + lia.
    + rewrite Heq. replace (count - S from) with (length front) by lia.
      rewrite drop_app_length. constructor; [exact Hsorted|].
      apply Forall_forall. intros y Hy. by apply Hcross.
    + rewrite Heq. replace (count - S from) with (length front) by lia.
      rewrite take_app_length, drop_app_length. intros x y Hx Hy.
      apply elem_of_cons in Hy as [->|Hy].
      * by apply (proj1 (Forall_forall _ _) Hall).
      * apply Hcross; [|done]. rewrite <- Hperm. apply elem_of_app. by left.
Qed.

(** X27.  [sort] orders a list of numbers.  With no NaN among them, the
    list afterwards holds the same numbers, each of them less than or
    equal to all that follow it. *)
Theorem sort_orders_the_numbers (nums : list double) :
  Forall (fun x => x <> S754_nan) nums ->
  exists sorted : list double,
    sortNative [list_ (map NUMBER_VAL nums)] = list_ (map NUMBER_VAL sorted) /\
    sorted ≡ₚ nums /\
    StronglySorted (fun x y => SFleb x y = true) sorted.
Proof.
  intros Hnums. set (items := map NUMBER_VAL nums).
  assert (Hord : Forall ordered items).
  { subst items. induction Hnums; by constructor. }
  destruct (rounds_keep (length items) (length items - 1) 0 items eq_refl) as (_ & Hperm & _).
  pose proof (rounds_sorted (length items) (length items - 1) 0 items eq_refl Hord) as Hsorted.
  rewrite Nat.sub_0_r, drop_all, firstn_all in Hsorted.
  specialize (Hsorted eq_refl (SSorted_nil _)).
  assert (Hempty : forall x y : Value, x ∈ items -> y ∈ [] -> greater x y = false).
  { intros x y _ Hy. by apply elem_of_nil in Hy. }
  specialize (Hsorted Hempty).
  destruct (Permutation_map_inv _ _ Hperm) as (sorted & Heq & Hperm').
  exists sorted. cbn [sortNative]. fold items. rewrite Heq. split; [done|].
  split; [by symmetry|].
  rewrite Heq in Hsorted.
  assert (Hsorted' : Forall (fun x => x <> S754_nan) sorted) by (by rewrite <- Hperm').
  clear -Hsorted Hsorted'. induction sorted as [|x sorted IH]; [constructor|].
  apply Forall_cons in Hsorted' as [Hx Hrest].
  cbn [map] in Hsorted. apply StronglySorted_inv in Hsorted as [Htail Hhead].
  constructor; [by apply IH|].
  apply Forall_forall. intros y Hy.
  apply SFltb_SFleb; [done|by apply (proj1 (Forall_forall _ _) Hrest)|].
  apply (proj1 (Forall_forall _ _) Hhead (NUMBER_VAL y)).
  apply list_elem_of_fmap. by exists y.
Qed.

Lemma sort_orders_the_numbers_witness :
  exists sorted : list double,
    sortNative [list_ (map NUMBER_VAL [double_of_int 3; double_of_int 1; double_of_int 2])]
    = list_ (map NUMBER_VAL sorted) /\
    sorted ≡ₚ [double_of_int 3; double_of_int 1; double_of_int 2] /\
    StronglySorted (fun x y => SFleb x y = true) sorted.
Proof.
  apply (sort_orders_the_numbers [double_of_int 3; double_of_int 1; double_of_int 2]).
  repeat constructor; vm_compute; discriminate.
Defined.

End NativesExtras.

(* ================================================================= *)
(** ** memory.c: the collector *)

Module MemoryExtras.
Import Memory MemoryProps.
Local Open Scope Z_scope.

Local Abbreviation aset_eq := VMProofs.aset_eq.
Local Abbreviation aset_ne := VMProofs.aset_ne.

(** *** The mark phase follows the pointers of [refs] *)

Lemma markValue_objectOf (vm : VM) (v : Value) : markValue vm v = markObject vm (objectOf v).
Proof. by destruct v. Qed.

Lemma markObjects_app (l1 l2 : list Z) :
  forall vm, markObjects vm (l1 ++ l2) = (vm' <- markObjects vm l1 ;; markObjects vm' l2).
Proof.
  induction l1 as [|a l1 IH]; intros vm; [done|]. cbn [app markObjects].
  destruct (markObject vm a) as [vm'| |]; cbn [bind]; [apply IH|done..].
Qed.

Lemma markArray_objects (values : list Value) :
  forall vm, markArray vm values = markObjects vm (map objectOf values).
Proof.
  induction values as [|v values IH]; intros vm; [done|]. cbn [markArray map markObjects].
  rewrite markValue_objectOf.
  destruct (markObject vm (objectOf v)) as [vm'| |]; cbn [bind]; [apply IH|done..].
Qed.

Lemma markTable_objects (table : Table) :
  forall vm, markTable vm table = markObjects vm (tableRefs table).
Proof.
  induction table as [|e table IH]; intros vm; [done|].
  cbn [markTable tableRefs flat_map app markObjects].
  destruct (markObject vm (key e)) as [vm'| |]; cbn [bind]; [|done..].
  rewrite markValue_objectOf.
  destruct (markObject vm' (objectOf (value e))) as [vm''| |]; cbn [bind]; [apply IH|done..].
Qed.

Lemma blackenObject_objects (vm : VM) (object : Z) :
  blackenObject vm object = (o <- deref vm object ;; markObjects vm (refs (fields o))).
Proof.
  unfold blackenObject. destruct (deref vm object) as [o| |]; cbn [bind]; [|done..].
  destruct (fields o); cbn [refs markObjects].
  - done.
  - destruct (markObject vm name); cbn [bind]; [apply markArray_objects|done..].
  - done.
  - rewrite markValue_objectOf. by destruct (markObject vm (objectOf closed)).
  - done.
  - apply markArray_objects.
  - apply markTable_objects.
Qed.

(** *** Marks and the count of the white objects *)

Lemma isMarkedAt_store (vm : VM) (object : Z) (o : Obj) (gray : list Z) (b : Z) :
  isMarkedAt (set_grayStack (store vm object o) gray) b
  = if b =? object then isMarked o else isMarkedAt vm b.
Proof.
  unfold isMarkedAt, store. cbn [memory set_grayStack set_memory]. unfold aset.
  by destruct (b =? object).
Qed.

Lemma white_mark (vm vm' : VM) (object : Z) (l : list Z) :
  NoDup l ->
  isMarkedAt vm object = false -> isMarkedAt vm' object = true ->
  (forall b, b <> object -> isMarkedAt vm' b = isMarkedAt vm b) ->
  (white vm' l + (if bool_decide (object ∈ l) then 1 else 0) = white vm l)%nat.
Proof.
  intros Hnodup Hbefore Hafter Hother. unfold white.
  induction Hnodup as [|a l Hnotin Hnodup IH].
  - by rewrite bool_decide_eq_false_2 by apply not_elem_of_nil.
  - rewrite !filter_cons. destruct (decide (a = object)) as [->|Hne].
    + rewrite bool_decide_eq_true_2 by left.
      rewrite bool_decide_eq_false_2 in IH by done.
      rewrite decide_False by (by rewrite Hafter).
      rewrite decide_True by done. cbn [length]. lia.
    + rewrite (Hother a Hne).
      assert (Hin : bool_decide (object ∈ a :: l) = bool_decide (object ∈ l)).
      { apply bool_decide_ext. rewrite elem_of_cons.
        split; [intros [?|?]; [congruence|done]|by right]. }
      rewrite Hin. destruct (decide (isMarkedAt vm a = false)); cbn [length]; lia.
Qed.

Lemma white_all (vm : VM) (l : list Z) :
  (forall object, isMarkedAt vm object = false) -> white vm l = length l.
Proof.
  intros Hwhite. unfold white. induction l as [|a l IH]; [done|].
  rewrite filter_cons, decide_True by apply Hwhite. cbn [length]. by rewrite IH.
Qed.

Lemma marking_refl (vm : VM) : marking vm vm.
Proof.
  split; [by destruct vm|]. intros object. by destruct (memory vm object).
Qed.

Lemma marking_memory (vm0 vm : VM) (object : Z) (o0 : Obj) :
  marking vm0 vm -> memory vm0 object = Some o0 ->
  exists o, memory vm object = Some o /\ next o = next o0 /\ fields o = fields o0 /\
            (isMarked o0 = true -> isMarked o = true).
Proof.
  intros [_ Hshape] H0. specialize (Hshape object). rewrite H0 in Hshape.
  destruct (memory vm object) as [o|]; [by exists o|done].
Qed.

Lemma marking_store (vm0 vm : VM) (object : Z) (o : Obj) (gray : list Z) :
  marking vm0 vm -> memory vm object = Some o ->
  marking vm0 (set_grayStack (store vm object (set_isMarked o true)) gray).
Proof.
  intros [Heq Hshape] Ho. split.
  - rewrite Heq at 1. by destruct vm0.
  - intros b. specialize (Hshape b).
    cbn [memory set_grayStack store set_memory]. unfold aset.
    destruct (Z.eqb_spec b object) as [->|Hne]; [|done].
    rewrite Ho in Hshape. destruct (memory vm0 object) as [o0|]; [|done].
    by destruct Hshape as (? & ? & ?).
Qed.

Lemma marking_gray (vm0 vm : VM) (gray : list Z) :
  marking vm0 vm -> marking vm0 (set_grayStack vm gray).
Proof.
  intros [Heq Hshape]. split; [|done]. rewrite Heq at 1. by destruct vm0.
Qed.

Lemma isMarkedAt_Some (vm : VM) (object : Z) :
  isMarkedAt vm object = true -> exists o, memory vm object = Some o /\ isMarked o = true.
Proof.
  unfold isMarkedAt. destruct (memory vm object) as [o|]; [by exists o|done].
Qed.

Lemma marking_roots (vm0 vm : VM) :
  marking vm0 vm ->
  stack vm = stack vm0 /\ frames vm = frames vm0 /\ openUpvalues vm = openUpvalues vm0 /\
  globals vm = globals vm0 /\ modules vm = modules vm0 /\ strings vm = strings vm0 /\
  objects vm = objects vm0.
Proof. intros [Heq _]. rewrite Heq. by destruct vm0. Qed.

Lemma linked_nonzero (vm : VM) (nextOf : Obj -> option Z) (l : list Z) :
  forall from, linked vm nextOf from l -> 0 ∉ l.
Proof.
  induction l as [|a l IH]; intros from Hlinked Hin; [by apply elem_of_nil in Hin|].
  destruct Hlinked as (-> & Hne & Hlinked). apply elem_of_cons in Hin as [<-|Hin]; [done|].
  destruct (memory vm a) as [o|]; [|done]. destruct (nextOf o) as [nx|]; [|done].
  by apply (IH nx).
Qed.

Section MarkPhase.

Variables (vm0 : VM) (chain ups : list Z).
Hypothesis Hwf : heap_wf vm0 chain ups.

Local Abbreviation reach := (reachable vm0 ups).
Local Abbreviation inv := (tricolour vm0 chain ups).

Lemma reachable_allocated (object : Z) : reach object -> memory vm0 object <> None.
Proof.
  induction 1 as [object Hroot Hne|holder o object _ _ Ho Hin Hne].
  - by apply (wf_roots _ _ _ Hwf).
  - by apply (wf_refs _ _ _ Hwf holder o).
Qed.

Lemma inv_start : inv (fun _ => False) (length chain) vm0.
Proof.
  split; [apply marking_refl|]. split; [|split; [|split]].
  - intros object. by rewrite (wf_white _ _ _ Hwf).
  - intros object. by rewrite (wf_gray _ _ _ Hwf), elem_of_nil.
  - intros holder o. by rewrite (wf_white _ _ _ Hwf).
  - rewrite (wf_gray _ _ _ Hwf). cbn [length Nat.add].
    apply white_all, (wf_white _ _ _ Hwf).
Qed.

(** [markObject] on a pointer that is [NULL] or reachable. *)
Lemma markObject_inv (pending : Z -> Prop) (n : nat) (vm : VM) (object : Z) :
  inv pending n vm -> object = 0 \/ reach object ->
  exists vm',
    markObject vm object = Done vm' /\ inv pending n vm' /\
    (object <> 0 -> isMarkedAt vm' object = true) /\
    (forall b, isMarkedAt vm b = true -> isMarkedAt vm' b = true).
Proof.
  intros Hinv Hobject. unfold markObject.
  destruct (Z.eqb_spec object 0) as [->|Hne].
  { exists vm. split; [done|]. split; [done|]. split; [intros []; reflexivity|done]. }
  pose proof Hinv as (Hmarking & Hreach & Hgray & Htri & Hcount).
  destruct Hobject as [|Hobject]; [done|].
  pose proof (reachable_allocated object Hobject) as Halloc.
  destruct (memory vm0 object) as [o0|] eqn:Ho0; [clear Halloc|done].
  destruct (marking_memory vm0 vm object o0 Hmarking Ho0) as (o & Ho & _).
  unfold deref. rewrite Ho. cbn [bind]. destruct (isMarked o) eqn:Hmarked.
  { exists vm. split; [done|]. split; [done|]. split; [|done].
    intros _. unfold isMarkedAt. by rewrite Ho. }
  eexists. split; [reflexivity|].
  assert (Hat : forall b, isMarkedAt
             (set_grayStack (store vm object (set_isMarked o true)) (object :: grayStack vm)) b
             = if b =? object then true else isMarkedAt vm b).
  { intros b. apply isMarkedAt_store. }
  assert (Hmono : forall b, isMarkedAt vm b = true -> isMarkedAt
             (set_grayStack (store vm object (set_isMarked o true)) (object :: grayStack vm)) b
             = true).
  { intros b Hb. rewrite Hat. by destruct (b =? object). }
  split; [|split; [|exact Hmono]].
  - split; [by apply marking_store|]. split; [|split; [|split]].
    + intros b. rewrite Hat. destruct (Z.eqb_spec b object) as [->|_]; [done|apply Hreach].
    + intros g Hg. cbn [grayStack set_grayStack] in Hg.
      apply elem_of_cons in Hg as [->|Hg]; [by rewrite Hat, Z.eqb_refl|].
      apply Hmono. by apply Hgray.
    + intros holder oh Hholder Hoh. cbn [grayStack set_grayStack].
      rewrite Hat in Hholder. destruct (Z.eqb_spec holder object) as [->|_]; [left; left|].
      destruct (Htri holder oh Hholder Hoh) as [Hin|[Hpending|Hrefs]].
      * left. by right.
      * right. by left.
      * right. right. intros r Hr Hr0. apply Hmono. by apply Hrefs.
    + cbn [grayStack set_grayStack length].
      assert (Hin : object ∈ chain).
      { apply (wf_all _ _ _ Hwf). by rewrite Ho0. }
      pose proof (white_mark vm
        (set_grayStack (store vm object (set_isMarked o true)) (object :: grayStack vm))
        object chain (wf_nodup _ _ _ Hwf)) as Hwhite.
      rewrite bool_decide_eq_true_2 in Hwhite by done.
      rewrite <- Hcount, <- Hwhite; [lia| | |].
      * unfold isMarkedAt. by rewrite Ho.
      * by rewrite Hat, Z.eqb_refl.
      * intros b Hb. rewrite Hat. by destruct (Z.eqb_spec b object).
  - intros _. by rewrite Hat, Z.eqb_refl.
Qed.

Lemma markObjects_inv (pending : Z -> Prop) (n : nat) (l : list Z) :
  forall vm,
    inv pending n vm -> (forall object, object ∈ l -> object = 0 \/ reach object) ->
    exists vm',
      markObjects vm l = Done vm' /\ inv pending n vm' /\
      (forall object, object ∈ l -> object <> 0 -> isMarkedAt vm' object = true) /\
      (forall b, isMarkedAt vm b = true -> isMarkedAt vm' b = true).
Proof.
  induction l as [|a l IH]; intros vm Hinv Hl.
  - exists vm. split; [done|]. split; [done|]. split; [|done].
    intros object Hin. by apply elem_of_nil in Hin.
  - destruct (markObject_inv pending n vm a Hinv) as (vm1 & Hrun1 & Hinv1 & Ha & Hmono1).
    { apply Hl. left. }
    destruct (IH vm1 Hinv1) as (vm2 & Hrun2 & Hinv2 & Hrest & Hmono2).
    { intros object Hin. apply Hl. by right. }
    exists vm2. cbn [markObjects]. rewrite Hrun1. cbn [bind]. split; [exact Hrun2|].
    split; [exact Hinv2|]. split.
    + intros object Hin Hne. apply elem_of_cons in Hin as [->|Hin].
      * apply Hmono2. by apply Ha.
      * by apply Hrest.
    + intros b Hb. by apply Hmono2, Hmono1.
Qed.

Lemma root_reach (object : Z) : object ∈ roots vm0 ups -> object = 0 \/ reach object.
Proof.
  intros Hin. destruct (decide (object = 0)) as [?|Hne]; [by left|right].
  by apply reach_root.
Qed.

(** The loop over the open upvalues. *)
Lemma markOpenUpvalues_inv (pending : Z -> Prop) (n : nat) (l : list Z) :
  forall (fuel : nat) (vm : VM) (upvalue : Z),
    linked vm0 upvalueNext upvalue l -> (length l <= fuel)%nat ->
    inv pending n vm -> (forall object, object ∈ l -> reach object) ->
    exists vm',
      markOpenUpvalues fuel vm upvalue = Done vm' /\ inv pending n vm' /\
      (forall object, object ∈ l -> isMarkedAt vm' object = true) /\
      (forall b, isMarkedAt vm b = true -> isMarkedAt vm' b = true).
Proof.
  induction l as [|a l IH]; intros fuel vm upvalue Hlinked Hfuel Hinv Hl.
  - cbn in Hlinked. subst upvalue. exists vm.
    split; [by destruct fuel|]. split; [done|]. split; [|done].
    intros object Hin. by apply elem_of_nil in Hin.
  - destruct Hlinked as (-> & Hne & Hlinked).
    destruct (memory vm0 a) as [o0|] eqn:Ho0; [|done].
    destruct (upvalueNext o0) as [next0|] eqn:Hnext; [|done].
    destruct fuel as [|fuel]; [cbn in Hfuel; lia|]. cbn [markOpenUpvalues].
    destruct (Z.eqb_spec a 0) as [|_]; [done|].
    destruct (markObject_inv pending n vm a Hinv) as (vm1 & Hrun1 & Hinv1 & Ha & Hmono1).
    { right. apply Hl. left. }
    rewrite Hrun1. cbn [bind].
    destruct (marking_memory vm0 vm1 a o0 (proj1 Hinv1) Ho0) as (o1 & Ho1 & _ & Hfields & _).
    unfold deref. rewrite Ho1. cbn [bind]. rewrite Hfields.
    unfold upvalueNext in Hnext. destruct (fields o0); try done. injection Hnext as ->.
    destruct (IH fuel vm1 next0 Hlinked) as (vm2 & Hrun2 & Hinv2 & Hrest & Hmono2);
      [cbn in Hfuel; lia|done|intros object Hin; apply Hl; by right|].
    exists vm2. split; [done|]. split; [done|]. split.
    + intros object Hin. apply elem_of_cons in Hin as [->|Hin].
      * by apply Hmono2, Ha.
      * by apply Hrest.
    + intros b Hb. by apply Hmono2, Hmono1.
Qed.

Lemma markRoots_inv (fuel : nat) :
  (length ups <= fuel)%nat ->
  exists vm',
    markRoots fuel vm0 = Done vm' /\ inv (fun _ => False) (length chain) vm' /\
    forall object, object ∈ roots vm0 ups -> object <> 0 -> isMarkedAt vm' object = true.
Proof.
  intros Hfuel. unfold markRoots.
  rewrite markArray_objects.
  destruct (markObjects_inv (fun _ => False) (length chain) (map objectOf (stack vm0)) vm0
              inv_start) as (vm1 & Hrun1 & Hinv1 & Hstack & _).
  { intros object Hin. apply root_reach. unfold roots. apply elem_of_app. by left. }
  rewrite Hrun1. cbn [bind].
  destruct (marking_roots vm0 vm1 (proj1 Hinv1)) as (_ & -> & _).
  destruct (markObjects_inv (fun _ => False) (length chain) (frames vm0) vm1 Hinv1)
    as (vm2 & Hrun2 & Hinv2 & Hframes & Hmono2).
  { intros object Hin. apply root_reach. unfold roots.
    apply elem_of_app. right. apply elem_of_app. by left. }
  rewrite Hrun2. cbn [bind].
  destruct (marking_roots vm0 vm2 (proj1 Hinv2)) as (_ & _ & -> & _).
  destruct (markOpenUpvalues_inv (fun _ => False) (length chain) ups fuel vm2
              (openUpvalues vm0) (wf_ups _ _ _ Hwf) Hfuel Hinv2)
    as (vm3 & Hrun3 & Hinv3 & Hups & Hmono3).
  { intros object Hin. assert (Hroot : object ∈ roots vm0 ups).
    { unfold roots. apply elem_of_app. right. apply elem_of_app. right.
      apply elem_of_app. by left. }
    destruct (root_reach object Hroot) as [->|]; [|done].
    by destruct (linked_nonzero _ _ _ _ (wf_ups _ _ _ Hwf)). }
  rewrite Hrun3. cbn [bind]. rewrite markTable_objects.
  destruct (marking_roots vm0 vm3 (proj1 Hinv3)) as (_ & _ & _ & -> & _).
  destruct (markObjects_inv (fun _ => False) (length chain) (tableRefs (globals vm0)) vm3 Hinv3)
    as (vm4 & Hrun4 & Hinv4 & Hglobals & Hmono4).
  { intros object Hin. apply root_reach. unfold roots. do 3 (apply elem_of_app; right).
    apply elem_of_app. by left. }
  rewrite Hrun4. cbn [bind]. rewrite markTable_objects.
  destruct (marking_roots vm0 vm4 (proj1 Hinv4)) as (_ & _ & _ & _ & -> & _).
  destruct (markObjects_inv (fun _ => False) (length chain) (tableRefs (modules vm0)) vm4 Hinv4)
    as (vm5 & Hrun5 & Hinv5 & Hmodules & Hmono5).
  { intros object Hin. apply root_reach. unfold roots. by do 4 (apply elem_of_app; right). }
  exists vm5. split; [done|]. split; [done|].
  intros object Hin Hne. unfold roots in Hin.
  apply elem_of_app in Hin as [Hin|Hin]; [by apply Hmono5, Hmono4, Hmono3, Hmono2, Hstack|].
  apply elem_of_app in Hin as [Hin|Hin]; [by apply Hmono5, Hmono4, Hmono3, Hframes|].
  apply elem_of_app in Hin as [Hin|Hin]; [by apply Hmono5, Hmono4, Hups|].
  apply elem_of_app in Hin as [Hin|Hin]; [by apply Hmono5, Hglobals|].
  by apply Hmodules.
Qed.

(** The loop of [traceReferences] ends with an empty gray stack. *)
Lemma traceReferences_inv (fuel : nat) :
  forall (n : nat) (vm : VM),
    inv (fun _ => False) n vm -> (n <= fuel)%nat ->
    exists vm',
      traceReferences_loop fuel vm = Done vm' /\
      (exists n', inv (fun _ => False) n' vm') /\ grayStack vm' = [] /\
      (forall b, isMarkedAt vm b = true -> isMarkedAt vm' b = true).
Proof.
  induction fuel as [|fuel IH]; intros n vm Hinv Hn.
  - pose proof Hinv as (Hmarking & Hreach & Hgray & Htri & Hcount).
    destruct (grayStack vm) as [|a gray] eqn:Hg; [|cbn in Hcount; lia].
    exists vm. cbn [traceReferences_loop]. rewrite Hg. split; [done|].
    split; [by exists n|]. by split.
  - cbn [traceReferences_loop].
    destruct (grayStack vm) as [|a gray] eqn:Hg.
    { exists vm. split; [done|]. split; [by exists n|]. by split. }
    destruct Hinv as (Hmarking & Hreach & Hgray & Htri & Hcount).
    assert (Ha : isMarkedAt vm a = true) by (apply Hgray; rewrite Hg; left).
    assert (Hat : forall b, isMarkedAt (set_grayStack vm gray) b = isMarkedAt vm b) by done.
    assert (Hinv1 : inv (fun b => b = a) (pred n) (set_grayStack vm gray)).
    { split; [by apply marking_gray|]. split; [|split; [|split]].
      - intros b. rewrite Hat. apply Hreach.
      - intros g Hin. rewrite Hat. apply Hgray. rewrite Hg. by right.
      - intros holder o Hholder Ho. rewrite Hat in Hholder.
        destruct (Htri holder o Hholder Ho) as [Hin|[[]|Hrefs]].
        + rewrite Hg in Hin. apply elem_of_cons in Hin as [->|Hin]; [right; by left|by left].
        + right. right. exact Hrefs.
      - rewrite Hg in Hcount. cbn [grayStack set_grayStack length] in *.
        change (white (set_grayStack vm gray) chain) with (white vm chain). lia. }
    rewrite blackenObject_objects.
    destruct (isMarkedAt_Some _ _ Ha) as (o & Ho & _).
    unfold deref. cbn [memory set_grayStack]. rewrite Ho. cbn [bind].
    pose proof (Hreach a Ha) as Hra.
    pose proof (reachable_allocated a Hra) as Halloc.
    destruct (memory vm0 a) as [o0|] eqn:Ho0; [clear Halloc|done].
    destruct (marking_memory vm0 vm a o0 Hmarking Ho0) as (o' & Ho' & _ & Hfields & _).
    rewrite Ho in Ho'. injection Ho' as <-.
    destruct (markObjects_inv (fun b => b = a) (pred n) (refs (fields o))
                (set_grayStack vm gray) Hinv1) as (vm2 & Hrun2 & Hinv2 & Hrefs & Hmono2).
    { intros r Hr. destruct (decide (r = 0)) as [?|Hne]; [by left|right].
      apply (reach_ref vm0 ups a o0 r); [done..|by rewrite <- Hfields|done]. }
    rewrite Hrun2.
    assert (Hinv2' : inv (fun _ => False) (pred n) vm2).
    { destruct Hinv2 as (Hmarking2 & Hreach2 & Hgray2 & Htri2 & Hcount2).
      split; [done|]. split; [done|]. split; [done|]. split; [|done].
      intros holder oh Hholder Hoh.
      destruct (Htri2 holder oh Hholder Hoh) as [Hin|[->|Hr]]; [by left| |by right; right].
      right. right. intros r Hr Hne. rewrite Ho0 in Hoh. injection Hoh as <-.
      apply Hrefs; [by rewrite Hfields|done]. }
    destruct (IH (pred n) vm2 Hinv2') as (vm3 & Hrun3 & Hinv3 & Hgray3 & Hmono3); [lia|].
    exists vm3. split; [done|]. split; [done|]. split; [done|].
    intros b Hb. apply Hmono3, Hmono2. by rewrite Hat.
Qed.

(** With the gray stack empty and the roots marked, everything that is
    reachable is marked. *)
Lemma reachable_marked (n : nat) (vm : VM) :
  inv (fun _ => False) n vm -> grayStack vm = [] ->
  (forall object, object ∈ roots vm0 ups -> object <> 0 -> isMarkedAt vm object = true) ->
  forall object, reach object -> isMarkedAt vm object = true.
Proof.
  intros (Hmarking & Hreach & Hgray & Htri & Hcount) Hempty Hroots object.
  induction 1 as [object Hroot Hne|holder o object _ IH Ho Hin Hne]; [by apply Hroots|].
  destruct (Htri holder o IH Ho) as [Hg|[[]|Hrefs]]; [|by apply Hrefs].
  rewrite Hempty in Hg. by apply elem_of_nil in Hg.
Qed.

End MarkPhase.

(** *** A heap of four objects *)

Ltac heap4_cases a :=
  cbn [memory heap4]; unfold aset;
  destruct (Z.eqb_spec a 4) as [->|?];
    [|destruct (Z.eqb_spec a 3) as [->|?];
        [|destruct (Z.eqb_spec a 2) as [->|?];
            [|destruct (Z.eqb_spec a 1) as [->|?]]]].

Lemma heap4_wf : heap_wf heap4 [4; 3; 2; 1] [].
Proof.
  split.
  - by cbn.
  - apply (bool_decide_unpack _). by vm_compute.
  - intros a. heap4_cases a; intros Ha; try done; repeat constructor.
  - intros a. unfold isMarkedAt. by heap4_cases a.
  - done.
  - intros holder o r. heap4_cases holder; intros [= <-]; cbn [fields refs map objectOf];
      intros Hr Hne; repeat (apply elem_of_cons in Hr as [->|Hr]; [done|]);
      by apply elem_of_nil in Hr.
  - intros r Hr Hne. cbn in Hr. apply list_elem_of_singleton in Hr as ->. done.
  - by cbn.
  - intros e He. cbn in He. apply list_elem_of_singleton in He as ->. done.
Qed.

(** *** The mark phase *)

(** X28.  The mark phase marks what is reachable.  On a heap with no
    dangling pointer and no mark, [markRoots] and [traceReferences] end
    without a read of a freed object, with the gray stack empty and the
    mark on exactly the objects that the roots reach; but for the marks
    the machine is as before. *)
Theorem mark_phase_marks_the_reachable (fuel : nat) (vm : VM) (chain ups : list Z) :
  heap_wf vm chain ups -> (length chain <= fuel)%nat -> (length ups <= fuel)%nat ->
  exists vm1 vm2,
    markRoots fuel vm = Done vm1 /\ traceReferences fuel vm1 = Done vm2 /\
    marking vm vm2 /\ grayStack vm2 = [] /\
    forall object, isMarkedAt vm2 object = true <-> reachable vm ups object.
Proof.
  intros Hwf Hchain Hups.
  destruct (markRoots_inv vm chain ups Hwf fuel Hups) as (vm1 & Hrun1 & Hinv1 & Hroots).
  destruct (traceReferences_inv vm chain ups Hwf fuel (length chain) vm1 Hinv1 Hchain)
    as (vm2 & Hrun2 & [n Hinv2] & Hgray & Hmono).
  exists vm1, vm2. split; [done|]. split; [done|]. split; [apply Hinv2|]. split; [done|].
  intros object. split; [apply Hinv2|].
  apply (reachable_marked vm chain ups n vm2 Hinv2 Hgray).
  intros r Hr Hne. by apply Hmono, Hroots.
Qed.

Lemma mark_phase_marks_the_reachable_witness :
  exists vm1 vm2,
    markRoots 4 heap4 = Done vm1 /\ traceReferences 4 vm1 = Done vm2 /\
    marking heap4 vm2 /\ grayStack vm2 = [] /\
    forall object, isMarkedAt vm2 object = true <-> reachable heap4 [] object.
Proof.
  apply (mark_phase_marks_the_reachable 4 heap4 [4; 3; 2; 1] [] heap4_wf); cbn; lia.
Defined.

(** *** The sweep phase *)

Lemma linked_ext (vm vm' : VM) (nextOf : Obj -> option Z) (l : list Z) :
  (forall a, a ∈ l -> memory vm' a = memory vm a) ->
  forall from, linked vm nextOf from l -> linked vm' nextOf from l.
Proof.
  induction l as [|a l IH]; intros Hsame from Hlinked; [done|].
  destruct Hlinked as (-> & Hne & Hlinked). split; [done|]. split; [done|].
  rewrite (Hsame a) by left. destruct (memory vm a) as [o|]; [|done].
  destruct (nextOf o) as [nx|]; [|done]. apply IH; [|done].
  intros b Hb. apply Hsame. by right.
Qed.

Lemma set_next_next (p : Obj) : set_next p (next p) = p.
Proof. by destruct p. Qed.

Section Sweep.
Variable sizeofObj : ObjType -> Z.
Variable mark : Z -> bool.

Local Abbreviation survivors l := (filter (fun a => mark a = true) l).

(** The loop of [sweep] over the list [l] that starts at [object]:
    [previous] is [NULL] or an object before the list whose [next] is
    [object]. *)
Lemma sweep_loop_spec (l : list Z) :
  forall (fuel : nat) (vm : VM) (previous object : Z),
    linked vm objNext object l -> NoDup l -> (length l <= fuel)%nat ->
    (forall a, a ∈ l -> isMarkedAt vm a = mark a) ->
    (previous = 0 /\ objects vm = object) \/
    (previous <> 0 /\ (previous ∉ l) /\
     exists p, memory vm previous = Some p /\ next p = object) ->
    exists vm',
      sweep_loop sizeofObj fuel vm previous object = Done vm' /\
      (forall a, a ∈ l -> mark a = false -> memory vm' a = None) /\
      (forall a o, a ∈ l -> memory vm a = Some o -> mark a = true ->
                   exists nx, memory vm' a = Some (mkObj false nx (fields o))) /\
      (forall a, a ∉ l -> (previous <> 0 -> a <> previous) -> memory vm' a = memory vm a) /\
      (previous = 0 -> linked vm' objNext (objects vm') (survivors l)) /\
      (previous <> 0 ->
       objects vm' = objects vm /\
       forall p, memory vm previous = Some p ->
                 exists nx, memory vm' previous = Some (set_next p nx) /\
                            linked vm' objNext nx (survivors l)) /\
      (stack vm' = stack vm /\ frames vm' = frames vm /\ openUpvalues vm' = openUpvalues vm /\
       globals vm' = globals vm /\ modules vm' = modules vm /\ strings vm' = strings vm /\
       grayStack vm' = grayStack vm).
Proof.
  induction l as [|a l IH]; intros fuel vm previous object Hlinked Hnodup Hfuel Hmark Hprev.
  - cbn in Hlinked. subst object. exists vm.
    split; [by destruct fuel|].
    split; [intros a Ha; by apply elem_of_nil in Ha|].
    split; [intros a o Ha; by apply elem_of_nil in Ha|].
    split; [done|]. split; [|split; [|done]].
    + intros ->. destruct Hprev as [[_ Hobjects]|[? _]]; [|done]. by cbn.
    + intros Hne. split; [done|]. intros p Hp.
      destruct Hprev as [[? _]|(_ & _ & p' & Hp' & Hnext)]; [done|].
      rewrite Hp in Hp'. injection Hp' as <-. exists 0.
      by rewrite <- Hnext, set_next_next.
  - destruct Hlinked as (-> & Hne & Hlinked).
    destruct (memory vm a) as [o|] eqn:Ho; [|done]. cbn [objNext] in Hlinked.
    apply NoDup_cons in Hnodup as [Hnotin Hnodup].
    destruct fuel as [|fuel]; [cbn in Hfuel; lia|]. cbn [length] in Hfuel.
    cbn [sweep_loop]. destruct (Z.eqb_spec a 0) as [|_]; [done|].
    unfold deref at 1. rewrite Ho. cbn [bind].
    assert (Hma : isMarked o = mark a).
    { rewrite <- (Hmark a) by left. unfold isMarkedAt. by rewrite Ho. }
    destruct (isMarked o) eqn:Hmarked.
    + (* the object is marked and stays *)
      set (vm1 := store vm a (set_isMarked o false)).
      assert (Hmem1 : forall b, b <> a -> memory vm1 b = memory vm b).
      { intros b Hb. subst vm1. cbn [store memory set_memory]. by apply aset_ne. }
      assert (Ha1 : memory vm1 a = Some (set_isMarked o false)).
      { subst vm1. cbn [store memory set_memory]. apply aset_eq. }
      destruct (IH fuel vm1 a (next o)) as (vm' & Hrun & HA & HB & HC & _ & HD & HE).
      { apply (linked_ext vm); [|done]. intros b Hb. apply Hmem1. by intros ->. }
      { done. } { lia. }
      { intros b Hb. rewrite <- (Hmark b) by (by right).
        unfold isMarkedAt. rewrite Hmem1; [done|by intros ->]. }
      { right. split; [done|]. split; [done|]. by exists (set_isMarked o false). }
      destruct (HD Hne) as [Hobjects HD']. destruct (HD' _ Ha1) as (nx & Ha' & Hlinked').
      assert (Hsurv : survivors (a :: l) = a :: survivors l).
      { by rewrite filter_cons, decide_True by done. }
      assert (Hhere : linked vm' objNext a (survivors (a :: l))).
      { rewrite Hsurv. split; [done|]. split; [done|]. by rewrite Ha'. }
      exists vm'. split; [exact Hrun|].
      split; [|split; [|split; [|split; [|split]]]].
      * intros b Hb Hmb. apply elem_of_cons in Hb as [->|Hb]; [congruence|by apply HA].
      * intros b ob Hb Hob Hmb. apply elem_of_cons in Hb as [->|Hb].
        -- rewrite Ho in Hob. injection Hob as <-. by exists nx.
        -- apply HB; [done| |done]. rewrite Hmem1; [done|by intros ->].
      * intros b Hb Hbp. rewrite HC.
        -- apply Hmem1. intros ->. apply Hb. left.
        -- intros Hin. apply Hb. by right.
        -- intros _ ->. apply Hb. left.
      * intros ->. destruct Hprev as [[_ Hobj]|[? _]]; [|done].
        rewrite Hobjects. subst vm1. cbn [store objects set_memory]. by rewrite Hobj.
      * intros Hp0. split; [by rewrite Hobjects|]. intros p Hp.
        destruct Hprev as [[? _]|(_ & Hpnotin & p' & Hp' & Hnext)]; [done|].
        rewrite Hp in Hp'. injection Hp' as <-. exists a.
        split; [|done]. rewrite HC.
        -- rewrite Hmem1, Hp; [by rewrite <- Hnext, set_next_next|].
           intros ->. apply Hpnotin. left.
        -- intros Hin. apply Hpnotin. by right.
        -- intros _ ->. apply Hpnotin. left.
      * destruct HE as (-> & -> & -> & -> & -> & -> & ->). by subst vm1.
    + (* the object is not marked and is freed *)
      assert (Hsurv : survivors (a :: l) = survivors l).
      { rewrite filter_cons, decide_False; [done|]. rewrite <- Hma. done. }
      destruct Hprev as [[-> Hobj]|(Hp0 & Hpnotin & p & Hp & Hnext)].
      * (* at the head of the list *)
        cbn [Z.eqb negb bind]. unfold freeObject, deref.
        cbn [memory set_objects]. rewrite Ho. cbn [bind].
        match goal with |- context [sweep_loop _ _ ?v 0 _] => set (vm2 := v) end.
        assert (Hmem2 : forall b, b <> a -> memory vm2 b = memory vm b).
        { intros b Hb. subst vm2. cbn [memory set_memory set_bytesAllocated set_objects].
          by apply aset_ne. }
        assert (Ha2 : memory vm2 a = None).
        { subst vm2. cbn [memory set_memory]. apply aset_eq. }
        destruct (IH fuel vm2 0 (next o)) as (vm' & Hrun & HA & HB & HC & HD0 & _ & HE).
        { apply (linked_ext vm); [|done]. intros b Hb. apply Hmem2. by intros ->. }
        { done. } { lia. }
        { intros b Hb. rewrite <- (Hmark b) by (by right).
          unfold isMarkedAt. rewrite Hmem2; [done|by intros ->]. }
        { left. by subst vm2. }
        exists vm'. split; [exact Hrun|].
        split; [|split; [|split; [|split; [|split]]]].
        -- intros b Hb Hmb. apply elem_of_cons in Hb as [->|Hb]; [|by apply HA].
           by rewrite HC.
        -- intros b ob Hb Hob Hmb. apply elem_of_cons in Hb as [->|Hb]; [congruence|].
           apply HB; [done| |done]. rewrite Hmem2; [done|by intros ->].
        -- intros b Hb _. rewrite HC; [|intros Hin; apply Hb; by right|done].
           apply Hmem2. intros ->. apply Hb. left.
        -- intros _. rewrite Hsurv. by apply HD0.
        -- done.
        -- destruct HE as (-> & -> & -> & -> & -> & -> & ->). by subst vm2.
      * (* behind an object that stays *)
        destruct (Z.eqb_spec previous 0) as [|_]; [done|]. cbn [negb].
        unfold deref at 1. rewrite Hp. cbn [bind].
        assert (Hpa : previous <> a) by (intros ->; apply Hpnotin; left).
        unfold freeObject, deref. cbn [store memory set_memory].
        rewrite aset_ne, Ho by (by intros ->). cbn [bind].
        match goal with |- context [sweep_loop _ _ ?v previous _] => set (vm2 := v) end.
        assert (Hmem2 : forall b, b <> a -> b <> previous -> memory vm2 b = memory vm b).
        { intros b Hb Hbp. subst vm2. unfold store.
          cbn [memory set_memory set_bytesAllocated]. by rewrite !aset_ne. }
        assert (Ha2 : memory vm2 a = None).
        { subst vm2. cbn [memory set_memory]. apply aset_eq. }
        assert (Hp2 : memory vm2 previous = Some (set_next p (next o))).
        { subst vm2. unfold store. cbn [memory set_memory set_bytesAllocated].
          by rewrite aset_ne, aset_eq. }
        assert (Hl : forall b, b ∈ l -> memory vm2 b = memory vm b).
        { intros b Hb. apply Hmem2; intros ->; [done|]. apply Hpnotin. by right. }
        destruct (IH fuel vm2 previous (next o)) as (vm' & Hrun & HA & HB & HC & _ & HD & HE).
        { by apply (linked_ext vm). }
        { done. } { lia. }
        { intros b Hb. rewrite <- (Hmark b) by (by right).
          unfold isMarkedAt. by rewrite Hl. }
        { right. split; [done|]. split; [intros Hin; apply Hpnotin; by right|].
          by exists (set_next p (next o)). }
        destruct (HD Hp0) as [Hobjects HD']. destruct (HD' _ Hp2) as (nx & Hp' & Hlinked').
        exists vm'. split; [exact Hrun|].
        split; [|split; [|split; [|split; [|split]]]].
        -- intros b Hb Hmb. apply elem_of_cons in Hb as [->|Hb]; [|by apply HA].
           rewrite HC; [done|done|by intros _ ->].
        -- intros b ob Hb Hob Hmb. apply elem_of_cons in Hb as [->|Hb]; [congruence|].
           apply HB; [done| |done]. by rewrite Hl.
        -- intros b Hb Hbp. rewrite HC; [|intros Hin; apply Hb; by right|done].
           apply Hmem2; [|by apply Hbp]. intros ->. apply Hb. left.
        -- done.
        -- intros _. split; [by rewrite Hobjects|]. intros p' [= <-].
           exists nx. rewrite Hsurv.
           split; [|done]. rewrite Hp'. by destruct p.
        -- destruct HE as (-> & -> & -> & -> & -> & -> & ->). by subst vm2.
Qed.

End Sweep.

(** X29.  [sweep] frees the objects that are not marked.  Over the
    list of all objects, an object without the mark is freed, an object
    with the mark stays with its fields and loses the mark, the list is
    linked anew through the objects that stay, in their order, and
    nothing outside of the list is touched. *)
Theorem sweep_frees_the_unmarked (sizeofObj : ObjType -> Z) (fuel : nat) (vm : VM)
    (chain : list Z) :
  linked vm objNext (objects vm) chain -> NoDup chain -> (length chain <= fuel)%nat ->
  exists vm',
    sweep sizeofObj fuel vm = Done vm' /\
    (forall a, a ∈ chain -> isMarkedAt vm a = false -> memory vm' a = None) /\
    (forall a o, a ∈ chain -> memory vm a = Some o -> isMarked o = true ->
                 exists nx, memory vm' a = Some (mkObj false nx (fields o))) /\
    (forall a, a ∉ chain -> memory vm' a = memory vm a) /\
    linked vm' objNext (objects vm') (filter (fun a => isMarkedAt vm a = true) chain).
Proof.
  intros Hlinked Hnodup Hfuel.
  destruct (sweep_loop_spec sizeofObj (isMarkedAt vm) chain fuel vm 0 (objects vm))
    as (vm' & Hrun & HA & HB & HC & HD0 & _); [done..|by left|].
  exists vm'. split; [exact Hrun|]. split; [exact HA|]. split; [|split].
  - intros a o Ha Ho Hmarked. apply HB; [done..|]. unfold isMarkedAt. by rewrite Ho.
  - intros a Ha. by apply HC.
  - by apply HD0.
Qed.

Lemma sweep_frees_the_unmarked_witness :
  exists vm',
    sweep lp64 4 heap4 = Done vm' /\
    (forall a, a ∈ [4; 3; 2; 1] -> isMarkedAt heap4 a = false -> memory vm' a = None) /\
    (forall a o, a ∈ [4; 3; 2; 1] -> memory heap4 a = Some o -> isMarked o = true ->
                 exists nx, memory vm' a = Some (mkObj false nx (fields o))) /\
    (forall a, a ∉ [4; 3; 2; 1] -> memory vm' a = memory heap4 a) /\
    linked vm' objNext (objects vm') (filter (fun a => isMarkedAt heap4 a = true) [4; 3; 2; 1]).
Proof.
  apply (sweep_frees_the_unmarked lp64 4 heap4 [4; 3; 2; 1]).
  - by cbn.
  - apply (bool_decide_unpack _). by vm_compute.
  - cbn. lia.
Defined.

(** *** A collection *)

Lemma tableRemoveWhite_filter (vm : VM) (table : list Entry) :
  (forall e, e ∈ table -> memory vm (key e) <> None) ->
  tableRemoveWhite vm table
  = Done (filter (fun e => isMarkedAt vm (key e) = true) table).
Proof.
  induction table as [|e table IH]; intros Hkeys; [done|].
  cbn [tableRemoveWhite]. unfold deref.
  pose proof (Hkeys e (list_elem_of_here _ _)) as He.
  destruct (memory vm (key e)) as [o|] eqn:Ho; [|done].
  assert (Hm : isMarkedAt vm (key e) = isMarked o) by (unfold isMarkedAt; by rewrite Ho).
  cbn [bind]. rewrite IH by (intros e' He'; apply Hkeys; by right). cbn [bind].
  rewrite filter_cons.
  destruct (isMarked o); [by rewrite decide_True|by rewrite decide_False by (by rewrite Hm)].
Qed.

Lemma linked_same (vm vm' : VM) (nextOf : Obj -> option Z) (l : list Z) :
  (forall a o, a ∈ l -> memory vm a = Some o ->
               exists o', memory vm' a = Some o' /\ nextOf o' = nextOf o) ->
  forall from, linked vm nextOf from l -> linked vm' nextOf from l.
Proof.
  induction l as [|a l IH]; intros Hsame from Hlinked; [done|].
  destruct Hlinked as (-> & Hne & Hlinked). split; [done|]. split; [done|].
  destruct (memory vm a) as [o|] eqn:Ho; [|done].
  destruct (Hsame a o) as (o' & -> & ->); [left|done|].
  destruct (nextOf o) as [nx|]; [|done]. apply IH; [|done].
  intros b ob Hb. apply Hsame. by right.
Qed.

(** X30.  A collection keeps what is reachable and frees the rest.  On
    a heap with no dangling pointer, [collectGarbage] ends without a
    read of a freed object; the objects that the roots reach stay with
    their fields, every other object is freed, the table of the
    interned strings keeps the entries of the strings that stay, the
    roots are as before, and the heap is again one on which a
    collection can run: its list of all objects holds exactly the
    objects that were reachable. *)
Theorem collectGarbage_keeps_the_reachable (sizeofObj : ObjType -> Z) (fuel : nat)
    (vm : VM) (chain ups : list Z) :
  heap_wf vm chain ups -> (length chain <= fuel)%nat -> (length ups <= fuel)%nat ->
  exists vm' chain',
    collectGarbage sizeofObj fuel vm = Done vm' /\
    (forall a, reachable vm ups a ->
               exists o nx, memory vm a = Some o /\
                            memory vm' a = Some (mkObj false nx (fields o))) /\
    (forall a, ~ reachable vm ups a -> memory vm' a = None) /\
    (forall e, e ∈ strings vm' <-> e ∈ strings vm /\ reachable vm ups (key e)) /\
    (stack vm' = stack vm /\ frames vm' = frames vm /\ openUpvalues vm' = openUpvalues vm /\
     globals vm' = globals vm /\ modules vm' = modules vm) /\
    nextGC vm' = size_t (bytesAllocated vm' * 2) /\
    heap_wf vm' chain' ups /\
    (forall a, a ∈ chain' <-> reachable vm ups a).
Proof.
  intros Hwf Hchain Hups.
  destruct (markRoots_inv vm chain ups Hwf fuel Hups) as (vm1 & Hrun1 & Hinv1 & Hroots).
  destruct (traceReferences_inv vm chain ups Hwf fuel (length chain) vm1 Hinv1 Hchain)
    as (vm2 & Hrun2 & [n Hinv2] & Hgray & Hmono).
  assert (Hmarked : forall a, isMarkedAt vm2 a = true <-> reachable vm ups a).
  { intros a. split; [apply Hinv2|].
    apply (reachable_marked vm chain ups n vm2 Hinv2 Hgray).
    intros r Hr Hne. by apply Hmono, Hroots. }
  pose proof (proj1 Hinv2) as Hmarking.
  destruct (marking_roots vm vm2 Hmarking) as
    (Hstack & Hframes & Hopen & Hglobals & Hmodules & Hstrings & Hobjects).
  unfold collectGarbage. rewrite Hrun1. cbn [bind].
  unfold traceReferences in Hrun2. unfold traceReferences. rewrite Hrun2. cbn [bind].
  rewrite tableRemoveWhite_filter; cycle 1.
  { intros e He. rewrite Hstrings in He. pose proof (wf_strings _ _ _ Hwf e He) as Hkey.
    destruct (memory vm (key e)) as [o0|] eqn:Ho0; [|done].
    by destruct (marking_memory vm vm2 _ _ Hmarking Ho0) as (o & -> & _). }
  cbn [bind].
  set (table := filter (fun e => isMarkedAt vm2 (key e) = true)
                  (strings vm2 : list Entry)).
  destruct (sweep_loop_spec sizeofObj (isMarkedAt vm2) chain fuel (set_strings vm2 table) 0
              (objects vm2)) as (vm3 & Hrun3 & HA & HB & HC & HD0 & _ & HE).
  { apply (linked_same vm); [|rewrite Hobjects; apply (wf_chain _ _ _ Hwf)].
    intros a o0 _ Ho0.
    destruct (marking_memory vm vm2 _ _ Hmarking Ho0) as (o & Ho & Hnext & _).
    exists o. split; [done|]. unfold objNext. by rewrite Hnext. }
  { apply (wf_nodup _ _ _ Hwf). } { done. } { done. } { by left. }
  unfold sweep. cbn [objects set_strings]. rewrite Hrun3. cbn [bind].
  destruct HE as (Hstack3 & Hframes3 & Hopen3 & Hglobals3 & Hmodules3 & Hstrings3 & Hgray3).
  cbn [stack frames openUpvalues globals modules strings grayStack set_strings] in *.
  assert (Hstay : forall a, reachable vm ups a ->
            exists o nx, memory vm a = Some o /\
                         memory vm3 a = Some (mkObj false nx (fields o))).
  { intros a Ha. pose proof (reachable_allocated vm chain ups Hwf a Ha) as Halloc.
    destruct (memory vm a) as [o0|] eqn:Ho0; [|done].
    destruct (marking_memory vm vm2 _ _ Hmarking Ho0) as (o & Ho & _ & Hfields & _).
    destruct (HB a o) as [nx Hnx].
    - apply (wf_all _ _ _ Hwf). by rewrite Ho0.
    - done.
    - by apply Hmarked.
    - exists o0, nx. split; [done|]. by rewrite Hnx, Hfields. }
  assert (Hfreed : forall a, isMarkedAt vm2 a = false -> memory vm3 a = None).
  { intros a Ha. destruct (decide (a ∈ chain)) as [Hin|Hnotin]; [by apply HA|].
    rewrite HC by done. cbn [memory set_strings].
    destruct (memory vm2 a) as [o|] eqn:Ho; [|done]. exfalso. apply Hnotin.
    apply (wf_all _ _ _ Hwf). destruct Hmarking as [_ Hshape]. specialize (Hshape a).
    rewrite Ho in Hshape. by destruct (memory vm a). }
  assert (Hlive : forall a, memory vm3 a <> None -> reachable vm ups a).
  { intros a Ha. apply Hmarked. destruct (isMarkedAt vm2 a) eqn:Hm; [done|].
    by rewrite Hfreed in Ha. }
  eexists. exists (filter (fun a => isMarkedAt vm2 a = true) chain).
  split; [reflexivity|]. cbn [memory strings stack frames openUpvalues globals modules
                                nextGC bytesAllocated set_nextGC].
  split; [exact Hstay|]. split; [|split; [|split; [|split; [done|split]]]].
  - intros a Ha. apply Hfreed. destruct (isMarkedAt vm2 a) eqn:Hm; [|done].
    destruct Ha. by apply Hmarked.
  - intros e. rewrite Hstrings3. subst table. rewrite list_elem_of_filter, Hmarked, Hstrings.
    tauto.
  - by rewrite Hstack3, Hframes3, Hopen3, Hglobals3, Hmodules3.
  - split.
    + apply (linked_ext vm3); [done|]. by apply HD0.
    + apply NoDup_filter, (wf_nodup _ _ _ Hwf).
    + intros a Ha. cbn [memory set_nextGC] in Ha. apply list_elem_of_filter.
      pose proof (Hlive a Ha) as Hreach. split; [by apply Hmarked|].
      apply (wf_all _ _ _ Hwf). by apply (reachable_allocated vm chain ups Hwf).
    + intros a. unfold isMarkedAt. cbn [memory set_nextGC].
      destruct (isMarkedAt vm2 a) eqn:Hm.
      * destruct (Hstay a) as (o & nx & _ & ->); [by apply Hmarked|done].
      * by rewrite Hfreed.
    + cbn [grayStack set_nextGC]. by rewrite Hgray3.
    + intros holder o' r Hholder Hr Hne. cbn [memory set_nextGC] in *.
      assert (Hh : reachable vm ups holder) by (apply Hlive; by rewrite Hholder).
      destruct (Hstay holder Hh) as (o & nx & Ho & Ho').
      rewrite Hholder in Ho'. injection Ho' as ->. cbn [fields] in Hr.
      destruct (Hstay r) as (? & ? & _ & ->); [|done].
      by apply (reach_ref vm ups holder o).
    + intros r Hr Hne. cbn [memory set_nextGC].
      assert (Hroot : r ∈ roots vm ups).
      { unfold roots in *. cbn [stack frames globals modules set_nextGC] in Hr.
        by rewrite Hstack3, Hframes3, Hglobals3, Hmodules3,
                   Hstack, Hframes, Hglobals, Hmodules in Hr. }
      destruct (Hstay r) as (? & ? & _ & ->); [by apply reach_root|done].
    + cbn [openUpvalues set_nextGC]. rewrite Hopen3, Hopen.
      apply (linked_same vm); [|apply (wf_ups _ _ _ Hwf)].
      intros a o Ha Ho. cbn [memory set_nextGC].
      destruct (Hstay a) as (o' & nx & Ho' & ->).
      { apply reach_root.
        - unfold roots. apply elem_of_app. right. apply elem_of_app. right.
          apply elem_of_app. by left.
        - intros ->. by apply (linked_nonzero _ _ _ _ (wf_ups _ _ _ Hwf)). }
      rewrite Ho in Ho'. injection Ho' as <-. by eexists.
    + intros e He. cbn [strings memory set_nextGC] in *. rewrite Hstrings3 in He.
      subst table. apply list_elem_of_filter in He as [He _].
      destruct (Hstay (key e)) as (? & ? & _ & ->); [by apply Hmarked|done].
  - intros a. rewrite list_elem_of_filter, Hmarked. split; [tauto|].
    intros Ha. split; [done|]. apply (wf_all _ _ _ Hwf).
    by apply (reachable_allocated vm chain ups Hwf).
Qed.

Lemma collectGarbage_keeps_the_reachable_witness :
  exists vm' chain',
    collectGarbage lp64 4 heap4 = Done vm' /\
    (forall a, reachable heap4 [] a ->
               exists o nx, memory heap4 a = Some o /\
                            memory vm' a = Some (mkObj false nx (fields o))) /\
    (forall a, ~ reachable heap4 [] a -> memory vm' a = None) /\
    (forall e, e ∈ strings vm' <-> e ∈ strings heap4 /\ reachable heap4 [] (key e)) /\
    (stack vm' = stack heap4 /\ frames vm' = frames heap4 /\
     openUpvalues vm' = openUpvalues heap4 /\
     globals vm' = globals heap4 /\ modules vm' = modules heap4) /\
    nextGC vm' = size_t (bytesAllocated vm' * 2) /\
    heap_wf vm' chain' [] /\
    (forall a, a ∈ chain' <-> reachable heap4 [] a).
Proof.
  apply (collectGarbage_keeps_the_reachable lp64 4 heap4 [4; 3; 2; 1] [] heap4_wf); cbn; lia.
Defined.

End MemoryExtras.
